(** * MTA subway graph: station complexes, graph construction and queries

    A shallow embedding of [complexes.py], [mta_graph.py] and
    [mta_complex_graph.py].

    - Python [str] is [string] (the UTF-8 bytes of the text); the only
      characters the code inspects are the ASCII letters [N] and [S], the
      [;] separator and white space, of ASCII or not.
    - The tables are the rows as the program holds them once read: a row
      of [Complexes.csv] with its three fields and a station count that
      [int] accepted, a row of a GTFS table with a value in every cell.  A
      file with any other row is not one of these tables: [__init__]
      raises on the first row whose count [int] rejects, before there is an
      object to query, and pandas reads an empty cell as NaN, which is no
      text.
    - A Python exception is a value of [exn]; fallible code lives in the
      [result] monad.
    - The look-up dictionaries of [ComplexesData] are never iterated: they
      are [gmap]s.  The dictionaries of the graph are iterated (successor
      order, first node with a given name), so they are association lists in
      insertion order.
    - Class-level attributes ([cls.G], [cls._trips], ...) are fields of an
      explicit [cls_state]. *)

From Stdlib Require Import String Ascii ZArith List Lia.
From stdpp Require Import base option list gmap strings sorting.

Local Open Scope Z_scope.
Local Open Scope string_scope.
Local Open Scope list_scope.

(** ** Exceptions and the error monad *)

Inductive exn : Type :=
| IndexError
| KeyError
| AttributeError
| RuntimeError (msg : string)
| NetworkXError
| NodeNotFound
| NetworkXNoPath
| Diverges.   (* not a Python exception: a search of the model out of fuel *)

Inductive result (A : Type) : Type :=
| Ok (a : A)
| Raise (e : exn).
Arguments Ok {A} a.
Arguments Raise {A} e.

#[global] Instance result_ret : MRet result := fun A a => Ok a.
#[global] Instance result_bind : MBind result :=
  fun A B f m => match m with Ok a => f a | Raise e => Raise e end.

(** [for s in l: st = f st s], stopping at the first exception. *)
Fixpoint for_each {A S : Type} (f : S → A → result S) (l : list A) (s : S)
  : result S :=
  match l with
  | [] => Ok s
  | x :: l' => s' ← f s x; for_each f l' s'
  end.

(** ** Python strings *)

Module PyStr.

(** [s[-1]]: the last character, [IndexError] on the empty string. *)
Fixpoint index_last (s : string) : result ascii :=
  match s with
  | EmptyString => Raise IndexError
  | String c EmptyString => Ok c
  | String _ s' => index_last s'
  end.

(** [s[:-1]]: all but the last character; the empty string stays empty. *)
Fixpoint drop_last (s : string) : string :=
  match s with
  | EmptyString => EmptyString
  | String _ EmptyString => EmptyString
  | String c s' => String c (drop_last s')
  end.

(** [c in ['N', 'S']] *)
Definition in_NS (c : ascii) : bool :=
  Ascii.eqb c "N"%char || Ascii.eqb c "S"%char.

(** [str.isspace] holds of the white space of ASCII, TAB..CR, FS..US and
    space (one byte), of U+0085 and U+00A0 (two bytes), and of U+1680,
    U+2000..U+200A, U+2028, U+2029, U+202F, U+205F and U+3000 (three
    bytes). *)
Definition isspace (c : ascii) : bool :=
  let n := nat_of_ascii c in
  ((9 <=? n) && (n <=? 13) || (28 <=? n) && (n <=? 32))%nat.

Definition isspace2 (c1 c2 : ascii) : bool :=
  let n1 := nat_of_ascii c1 in
  let n2 := nat_of_ascii c2 in
  ((n1 =? 194) && ((n2 =? 133) || (n2 =? 160)))%nat.

Definition isspace3 (c1 c2 c3 : ascii) : bool :=
  let n1 := nat_of_ascii c1 in
  let n2 := nat_of_ascii c2 in
  let n3 := nat_of_ascii c3 in
  ((n1 =? 225) && (n2 =? 154) && (n3 =? 128)
   || (n1 =? 226) && (n2 =? 128)
      && ((128 <=? n3) && (n3 <=? 138) || (n3 =? 168) || (n3 =? 169)
          || (n3 =? 175))
   || (n1 =? 226) && (n2 =? 129) && (n3 =? 159)
   || (n1 =? 227) && (n2 =? 128) && (n3 =? 128))%nat.

(** [s.lstrip()]: the white space at the start goes, character by
    character. *)
Fixpoint lstrip (s : string) : string :=
  match s with
  | EmptyString => EmptyString
  | String c1 s1 =>
      if isspace c1 then lstrip s1
      else
        match s1 with
        | EmptyString => s
        | String c2 s2 =>
            if isspace2 c1 c2 then lstrip s2
            else
              match s2 with
              | EmptyString => s
              | String c3 s3 => if isspace3 c1 c2 c3 then lstrip s3 else s
              end
        end
  end.

(** [s.rstrip()]: the text ends where only white space follows. *)
Fixpoint rstrip (s : string) : string :=
  match s with
  | EmptyString => EmptyString
  | String c s' =>
      match lstrip s with
      | EmptyString => EmptyString
      | _ => String c (rstrip s')
      end
  end.

(** [s.strip()] *)
Definition strip (s : string) : string := rstrip (lstrip s).

(** [s.split(sep)] for a one-character separator. *)
Fixpoint split (sep : ascii) (s : string) : list string :=
  match s with
  | EmptyString => [EmptyString]
  | String c s' =>
      if Ascii.eqb c sep then EmptyString :: split sep s'
      else match split sep s' with
           | hd :: tl => String c hd :: tl
           | [] => [String c EmptyString]
           end
  end.

(** Truth value of a [str]: non-empty. *)
Definition truthy (s : string) : bool :=
  match s with EmptyString => false | _ => true end.

(** Truth value of a [str | None]. *)
Definition truthy_opt (o : option string) : bool :=
  match o with Some s => truthy s | None => false end.

(** [sep.join(l)] *)
Definition join (sep : string) (l : list string) : string :=
  String.concat sep l.

(** Insertion of [x] into a list sorted by [String.leb], after the
    elements equal to it. *)
Fixpoint insert_sorted (x : string) (l : list string) : list string :=
  match l with
  | [] => [x]
  | y :: l' => if String.ltb x y then x :: l else y :: insert_sorted x l'
  end.

(** [sorted(l)] on strings: code-point order, which is byte order on
    UTF-8. *)
Definition sorted (l : list string) : list string :=
  foldr insert_sorted [] (reverse l).

End PyStr.

(** ** complexes.py *)

Module complexes.

(** One row of [Complexes.csv] as [csv.DictReader] yields it, the station
    count as [int] returns it.  A row whose count [int] rejects has no
    value here: on such a row [__init__] raises [ValueError]. *)
Record complex_row : Type := {
  row_complex_id : string;        (* row['Complex ID'] *)
  row_num_stations : Z;           (* int(row['Number Of Stations In Complex']) *)
  row_gtfs_stop_ids : string      (* row['GTFS Stop IDs'] *)
}.

(** One row of GTFS [stops.txt], as the data frame holds it: the text of
    the two cells.  A cell left empty in the file is NaN in the frame, not
    a text, and has no value here. *)
Record stop_row : Type := {
  stop_id : string;
  stop_name : string
}.

Record complex_info_t : Type := {
  num_stations : Z;
  gtfs_stop_ids : list string
}.

Record ComplexesData : Type := {
  complex_id_by_gtfs : gmap string string;
  complex_info : gmap string complex_info_t;
  _stops : list stop_row;
  stop_name_map : gmap string string
}.

(** [[gtfs.strip() for gtfs in gtfs_stop_ids.split(';') if gtfs.strip()]] *)
Definition gtfs_list_of (gtfs_stop_ids : string) : list string :=
  map PyStr.strip
    (List.filter (fun gtfs => PyStr.truthy (PyStr.strip gtfs))
                 (PyStr.split ";"%char gtfs_stop_ids)).

(** Body of [for gtfs in gtfs_list]. *)
Definition register_gtfs (complex_id : string)
    (by_gtfs : gmap string string) (gtfs : string)
  : result (gmap string string) :=
  let by_gtfs := <[gtfs := complex_id]> by_gtfs in
  c ← PyStr.index_last gtfs;
  if PyStr.in_NS c
  then Ok (<[PyStr.drop_last gtfs := complex_id]> by_gtfs)
  else Ok by_gtfs.

(** Body of [for row in reader]. *)
Definition load_row (self : ComplexesData) (row : complex_row)
  : result ComplexesData :=
  let complex_id := row_complex_id row in
  let num_stations := row_num_stations row in
  let gtfs_list := gtfs_list_of (row_gtfs_stop_ids row) in
  let info := <[complex_id := {| num_stations := num_stations;
                                 gtfs_stop_ids := gtfs_list |}]>
                (complex_info self) in
  by_gtfs ← for_each (register_gtfs complex_id) gtfs_list
                     (complex_id_by_gtfs self);
  Ok {| complex_id_by_gtfs := by_gtfs;
        complex_info := info;
        _stops := _stops self;
        stop_name_map := stop_name_map self |}.

(** [dict(zip(stops.stop_id, stops.stop_name))]: a later row wins. *)
Definition name_map_of (stops : list stop_row) : gmap string string :=
  foldl (fun m r => <[stop_id r := stop_name r]> m) ∅ stops.

(** [ComplexesData.__init__], on the rows of the two files. *)
Definition init (rows : list complex_row) (stops : list stop_row)
  : result ComplexesData :=
  for_each load_row rows
    {| complex_id_by_gtfs := ∅;
       complex_info := ∅;
       _stops := stops;
       stop_name_map := name_map_of stops |}.

Definition get_complex_id_by_gtfs_stop_id (self : ComplexesData)
    (gtfs_stop_id : string) : result (option string) :=
  let complex_id := complex_id_by_gtfs self !! gtfs_stop_id in
  if PyStr.truthy_opt complex_id then Ok complex_id
  else
    c ← PyStr.index_last gtfs_stop_id;
    if PyStr.in_NS c
    then Ok (complex_id_by_gtfs self !! PyStr.drop_last gtfs_stop_id)
    else Ok (complex_id_by_gtfs self !! (gtfs_stop_id +:+ "N")).

(** [info['num_stations'] if info else None]; a two-key dict is true. *)
Definition get_number_of_stations (self : ComplexesData)
    (complex_id : string) : option Z :=
  num_stations <$> complex_info self !! complex_id.

Definition get_gtfs_stop_ids_by_complex_id (self : ComplexesData)
    (complex_id : string) : option (list string) :=
  gtfs_stop_ids <$> complex_info self !! complex_id.

Definition get_names_of_stations (self : ComplexesData)
    (complex_id : string) : option (list string) :=
  match get_gtfs_stop_ids_by_complex_id self complex_id with
  | None | Some [] => None
  | Some ids =>
      Some (foldl (fun station_names stop_id =>
                     match stop_name_map self !! stop_id with
                     | Some name =>
                         if PyStr.truthy name
                         then station_names ++ [name]
                         else station_names
                     | None => station_names
                     end) [] ids)
  end.

Definition get_station_name (self : ComplexesData) (complex_id : string)
  : string :=
  match get_names_of_stations self complex_id with
  | Some (name :: _) => name
  | _ => "Unknown"
  end.

Definition get_station_name_by_gtfs_id (self : ComplexesData)
    (gtfs_stop_id : string) : result (option string) :=
  let name := stop_name_map self !! gtfs_stop_id in
  if PyStr.truthy_opt name then Ok name
  else
    c ← PyStr.index_last gtfs_stop_id;
    if PyStr.in_NS c
    then Ok (stop_name_map self !! PyStr.drop_last gtfs_stop_id)
    else Ok (stop_name_map self !! (gtfs_stop_id +:+ "N")).

End complexes.

(** ** Insertion-ordered dictionaries

    A Python [dict] whose iteration order is observed: an association list
    in insertion order.  Assigning to a present key keeps its position. *)

Module ODict.

Definition t (V : Type) : Type := list (string * V).

(** [d.get(k)] *)
Fixpoint get {V : Type} (d : t V) (k : string) : option V :=
  match d with
  | [] => None
  | (k', v) :: d' => if String.eqb k' k then Some v else get d' k
  end.

(** [k in d] *)
Definition mem {V : Type} (d : t V) (k : string) : bool :=
  match get d k with Some _ => true | None => false end.

(** [d[k] = v] *)
Fixpoint set {V : Type} (d : t V) (k : string) (v : V) : t V :=
  match d with
  | [] => [(k, v)]
  | (k', v') :: d' =>
      if String.eqb k' k then (k', v) :: d' else (k', v') :: set d' k v
  end.

(** [list(d)] *)
Definition keys {V : Type} (d : t V) : list string := map fst d.

(** The same keys, every value through [f]. *)
Definition map_values {V W : Type} (f : V → W) (d : t V) : t W :=
  map (fun kv => (kv.1, f kv.2)) d.

End ODict.

(** ** The part of networkx the program uses

    networkx is a library, outside the repository.  A graph is its
    dict-of-dicts: every node has an attribute dictionary and an adjacency
    dictionary (successors, for a [DiGraph]) whose values are the edge
    attribute [lines].  An undirected [Graph] stores an edge under both end
    points, and both entries are one shared attribute dictionary: every
    update below writes the two of them. *)

Module nx.

(** The node attributes set by [build_graph]. *)
Record node_attrs : Type := {
  stop_name : string;
  gtfs_ids : option (list string)
}.

(** [attrs = None] is the empty attribute dictionary of a node that an
    [add_edge] created. *)
Record node_entry : Type := {
  attrs : option node_attrs;
  adj : ODict.t (list string)
}.

Record graph : Type := {
  directed : bool;
  entries : ODict.t node_entry
}.

(** [nx.Graph()] and [nx.DiGraph()] *)
Definition Graph : graph := {| directed := false; entries := [] |}.
Definition DiGraph : graph := {| directed := true; entries := [] |}.

(** [n in G] *)
Definition has_node (G : graph) (n : string) : bool :=
  ODict.mem (entries G) n.

(** [list(G)] *)
Definition nodes (G : graph) : list string := ODict.keys (entries G).

(** [G[u]] as the list of its keys; no neighbour for an absent node. *)
Definition neighbors (G : graph) (u : string) : list string :=
  match ODict.get (entries G) u with
  | Some e => ODict.keys (adj e)
  | None => []
  end.

(** [G[u][v]['lines']] when the edge is there. *)
Definition edge_lines (G : graph) (u v : string) : option (list string) :=
  e ← ODict.get (entries G) u; ODict.get (adj e) v.

(** [G.has_edge(u, v)] *)
Definition has_edge (G : graph) (u v : string) : bool :=
  match edge_lines G u v with Some _ => true | None => false end.

(** [G.add_node(n, stop_name=.., gtfs_ids=..)] *)
Definition add_node (G : graph) (n : string) (a : node_attrs) : graph :=
  let e := match ODict.get (entries G) n with
           | Some e => {| attrs := Some a; adj := adj e |}
           | None => {| attrs := Some a; adj := [] |}
           end in
  {| directed := directed G; entries := ODict.set (entries G) n e |}.

(** What [add_edge] does to an end point that is not yet a node. *)
Definition ensure_node (G : graph) (n : string) : graph :=
  if has_node G n then G
  else {| directed := directed G;
          entries := ODict.set (entries G) n {| attrs := None; adj := [] |} |}.

(** [G._adj[u][v] = lines], one direction. *)
Definition set_adj (G : graph) (u v : string) (lines : list string) : graph :=
  match ODict.get (entries G) u with
  | Some e =>
      {| directed := directed G;
         entries := ODict.set (entries G) u
                      {| attrs := attrs e; adj := ODict.set (adj e) v lines |} |}
  | None => G
  end.

(** Assignment of the [lines] attribute of the edge between [u] and [v]:
    the entry under [u], and the one under [v] in an undirected graph. *)
Definition set_lines (G : graph) (u v : string) (lines : list string) : graph :=
  let G := set_adj G u v lines in
  if directed G then G else set_adj G v u lines.

(** [G.add_edge(u, v, lines=lines)] *)
Definition add_edge (G : graph) (u v : string) (lines : list string) : graph :=
  set_lines (ensure_node (ensure_node G u) v) u v lines.

(** [for u, v, data in G.edges(data=True): data['lines'] = f(data['lines'])] *)
Definition map_lines (f : list string → list string) (G : graph) : graph :=
  {| directed := directed G;
     entries := ODict.map_values
                  (fun e => {| attrs := attrs e;
                               adj := ODict.map_values f (adj e) |})
                  (entries G) |}.

(** [G.successors(n)] of a [DiGraph]. *)
Definition successors (G : graph) (n : string) : result (list string) :=
  match ODict.get (entries G) n with
  | Some e => Ok (ODict.keys (adj e))
  | None => Raise NetworkXError
  end.

(** [data['lines']] for the edges [G.out_edges(n, data=True)]. *)
Definition out_edge_lines (G : graph) (n : string) : list (list string) :=
  match ODict.get (entries G) n with
  | Some e => map snd (adj e)
  | None => []
  end.

(** [data['lines']] for the edges [G.in_edges(n, data=True)]. *)
Definition in_edge_lines (G : graph) (n : string) : list (list string) :=
  omap (fun ue => ODict.get (adj ue.2) n) (entries G).

(** *** Breadth-first search by levels

    The loop shared by [single_source_shortest_path] and [predecessor]:
    [d] is the dictionary of the nodes seen so far ([paths], or [seen]
    with [pred]), a node enters [d] and the next level when it is first
    met, and meeting it again may update its entry. *)
Section Levels.
Context {A : Type}.
Variable fresh : nat → ODict.t A → string → string → A.
Variable again : nat → A → string → A.

(** Body of [for w in G[v]]. *)
Definition visit_nbr (level : nat) (v : string)
    (acc : ODict.t A * list string) (w : string)
  : ODict.t A * list string :=
  match ODict.get acc.1 w with
  | None => (ODict.set acc.1 w (fresh level acc.1 v w), acc.2 ++ [w])
  | Some a => (ODict.set acc.1 w (again level a v), acc.2)
  end.

(** Body of [for v in thislevel]. *)
Definition visit_node (G : graph) (level : nat)
    (acc : ODict.t A * list string) (v : string)
  : ODict.t A * list string :=
  foldl (visit_nbr level v) acc (neighbors G v).

(** [while nextlevel: ...]; [None] when the fuel is spent first. *)
Fixpoint levels (fuel : nat) (G : graph) (level : nat) (d : ODict.t A)
    (nextlevel : list string) : option (ODict.t A) :=
  match nextlevel with
  | [] => Some d
  | _ =>
      match fuel with
      | O => None
      | S fuel' =>
          let level := S level in
          let thislevel := nextlevel in
          let acc := foldl (visit_node G level) (d, []) thislevel in
          levels fuel' G level acc.1 acc.2
      end
  end.
End Levels.

(** Every string that names a node or a neighbour. *)
Definition universe (G : graph) : list string :=
  nodes G ++ concat (map (fun ne => ODict.keys (adj ne.2)) (entries G)).

(** Enough fuel for any search in [G]. *)
Definition enough (G : graph) : nat := S (length (universe G)).

(** [nx.single_source_shortest_path(G, source)]:
    [paths[w] = paths[v] + [w]] when [w] is first met. *)
Definition single_source_shortest_path (G : graph) (source : string)
  : option (ODict.t (list string)) :=
  levels (fun _ paths v w => default [] (ODict.get paths v) ++ [w])
         (fun _ p _ => p)
         (enough G) G 0 [(source, [source])] [source].

(** [nx.predecessor(G, source)], the entry of a node holding [seen[w]]
    and [pred[w]]: [pred[w] = [v]; seen[w] = level] when [w] is first met,
    [pred[w].append(v)] when it is met again at the same level. *)
Definition predecessor (G : graph) (source : string)
  : option (ODict.t (nat * list string)) :=
  levels (fun level _ v _ => (level, [v]))
         (fun level a v => if Nat.eqb a.1 level then (a.1, a.2 ++ [v]) else a)
         (enough G) G 0 [(source, (O, []))] [source].

(** The paths [_build_paths_from_predecessors({source}, node, pred)]
    yields, in its order: depth first along the predecessor lists. *)
Fixpoint build_paths (fuel : nat) (pred : ODict.t (nat * list string))
    (source node : string) : list (list string) :=
  match fuel with
  | O => []
  | S fuel' =>
      (if String.eqb node source then [[node]] else []) ++
      flat_map (fun p => map (fun path => path ++ [node])
                             (build_paths fuel' pred source p))
               (match ODict.get pred node with
                | Some a => a.2
                | None => []
                end)
  end.

(** [nx.shortest_path(G, source=source, target=target)], unweighted: a
    path with the fewest edges.  networkx searches from both ends; which
    of several shortest paths it returns is not part of its contract, and
    this model returns the first one found from [source]. *)
Definition shortest_path (G : graph) (source target : string)
  : result (list string) :=
  if negb (has_node G source) || negb (has_node G target)
  then Raise NodeNotFound
  else match single_source_shortest_path G source with
       | None => Raise Diverges
       | Some paths =>
           match ODict.get paths target with
           | Some path => Ok path
           | None => Raise NetworkXNoPath
           end
       end.

(** [list(nx.all_shortest_paths(G, source=source, target=target))] *)
Definition all_shortest_paths (G : graph) (source target : string)
  : result (list (list string)) :=
  if negb (has_node G source) then Raise NodeNotFound
  else match predecessor G source with
       | None => Raise Diverges
       | Some pred =>
           if ODict.mem pred target
           then Ok (build_paths (length pred) pred source target)
           else Raise NetworkXNoPath
       end.

End nx.

(** ** The GTFS tables, as pandas data frames *)

Module gtfs.

(** One row of [trips.txt]. *)
Record trip_row : Type := {
  trip_id : string;
  route_id : string;
  direction_id : Z
}.

(** One row of [stop_times.txt]. *)
Record stop_time_row : Type := {
  st_trip_id : string;
  st_stop_id : string;
  stop_sequence : Z
}.

(** [series.unique()]: the values in order of first appearance. *)
Definition unique (l : list string) : list string :=
  foldl (fun acc x => if bool_decide (x ∈ acc) then acc else acc ++ [x]) [] l.

(** [trips.query("route_id==@route and direction_id==@direction")] *)
Definition query_trips (trips : list trip_row) (route : string)
    (direction : Z) : list trip_row :=
  List.filter (fun r => String.eqb (route_id r) route
                        && Z.eqb (direction_id r) direction) trips.

(** [stop_times.query("trip_id==@trip_id")] *)
Definition query_stop_times (stop_times : list stop_time_row)
    (trip : string) : list stop_time_row :=
  List.filter (fun r => String.eqb (st_trip_id r) trip) stop_times.

(** [series.iloc[0]] *)
Definition iloc0 {A : Type} (l : list A) : result A :=
  match l with
  | x :: _ => Ok x
  | [] => Raise IndexError
  end.

(** Insertion into a list sorted by [stop_sequence], after the rows with
    the same key. *)
Fixpoint insert_by_sequence (r : stop_time_row) (l : list stop_time_row)
  : list stop_time_row :=
  match l with
  | [] => [r]
  | r' :: l' =>
      if Z.ltb (stop_sequence r) (stop_sequence r') then r :: l
      else r' :: insert_by_sequence r l'
  end.

(** [df.sort_values("stop_sequence")].  Rows with equal keys keep their
    order here; pandas' default sort leaves their order open. *)
Definition sort_values (l : list stop_time_row) : list stop_time_row :=
  foldr insert_by_sequence [] (reverse l).

(** [df.groupby("trip_id").size()]: the number of rows of every trip id,
    the trip ids in sorted order. *)
Definition groupby_size (stop_times : list stop_time_row)
  : list (string * nat) :=
  map (fun k => (k, length (query_stop_times stop_times k)))
      (PyStr.sorted (unique (map st_trip_id stop_times))).

(** [series.idxmax()]: the label of the first largest value. *)
Fixpoint idxmax (best : string * nat) (l : list (string * nat)) : string :=
  match l with
  | [] => best.1
  | kn :: l' => idxmax (if Nat.ltb best.2 kn.2 then kn else best) l'
  end.

End gtfs.

(** ** Class-level state and source files *)

(** The files a build reads.  [ComplexesData()] reads its two files from
    their default paths, whatever [gtfs_dir] is. *)
Record sources : Type := {
  complexes_csv : list complexes.complex_row;   (* data/Complexes.csv *)
  complexes_stops_txt : list complexes.stop_row; (* data/gtfs_subway/stops.txt *)
  stops_txt : list complexes.stop_row;          (* gtfs_dir/stops.txt *)
  trips_txt : list gtfs.trip_row;               (* gtfs_dir/trips.txt *)
  stop_times_txt : list gtfs.stop_time_row      (* gtfs_dir/stop_times.txt *)
}.

(** The class attributes of [SubwayGraph], and of [MTAComplexGraph]. *)
Record cls_state : Type := {
  G : option nx.graph;
  _stops : option (list complexes.stop_row);
  _trips : option (list gtfs.trip_row);
  _stop_times : option (list gtfs.stop_time_row);
  _complexes : option complexes.ComplexesData
}.

(** The class as the module is imported: every cache is [None]. *)
Definition cls_initial : cls_state :=
  {| G := None; _stops := None; _trips := None; _stop_times := None;
     _complexes := None |}.

(** An attribute that is used as an object: [None.query] fails. *)
Definition attr {A : Type} (o : option A) : result A :=
  match o with
  | Some a => Ok a
  | None => Raise AttributeError
  end.

(** The assignments that open [build_graph]. *)
Definition load (src : sources) (cls : cls_state) : result cls_state :=
  cx ← complexes.init (complexes_csv src) (complexes_stops_txt src);
  Ok {| G := G cls;
        _stops := Some (stops_txt src);
        _trips := Some (trips_txt src);
        _stop_times := Some (stop_times_txt src);
        _complexes := Some cx |}.

(** [cls.G = G] *)
Definition set_G (cls : cls_state) (g : nx.graph) : cls_state :=
  {| G := Some g; _stops := _stops cls; _trips := _trips cls;
     _stop_times := _stop_times cls; _complexes := _complexes cls |}.

(** Steps shared by the two [build_graph]. *)
Section Build.
Variable cx : complexes.ComplexesData.

(** [for stop in stops: complex_id = ...; if complex_id: complex_ids.append(complex_id)] *)
Definition to_complex_ids (stops : list string) : result (list string) :=
  for_each (fun complex_ids stop =>
              complex_id ← complexes.get_complex_id_by_gtfs_stop_id cx stop;
              match complex_id with
              | Some c => if PyStr.truthy c then Ok (complex_ids ++ [c])
                          else Ok complex_ids
              | None => Ok complex_ids
              end) stops [].

(** [for complex_id in complex_ids: if complex_id not in G: G.add_node(..)] *)
Definition add_nodes (g : nx.graph) (complex_ids : list string) : nx.graph :=
  foldl (fun g complex_id =>
           if nx.has_node g complex_id then g
           else
             let gtfs_ids :=
               complexes.get_gtfs_stop_ids_by_complex_id cx complex_id in
             let station_name := complexes.get_station_name cx complex_id in
             nx.add_node g complex_id
               {| nx.stop_name := station_name; nx.gtfs_ids := gtfs_ids |})
        g complex_ids.
End Build.

(** [if G.has_edge(u, v): if route not in lines: lines.append(route)
     else: G.add_edge(u, v, lines=[route])] *)
Definition add_or_update_edge (route : string) (g : nx.graph) (u v : string)
  : nx.graph :=
  match nx.edge_lines g u v with
  | Some lines =>
      if bool_decide (route ∈ lines) then g
      else nx.set_lines g u v (lines ++ [route])
  | None => nx.add_edge g u v [route]
  end.

(** [for route in routes: for direction in [0, 1]: try: ... except Exception: print(..)]:
    a pair that fails leaves the graph as it was (no step of the body fails
    once it has touched the graph). *)
Definition for_routes (body : nx.graph → string → Z → result nx.graph)
    (routes : list string) (g : nx.graph) : nx.graph :=
  foldl (fun g route =>
           foldl (fun g direction =>
                    match body g route direction with
                    | Ok g' => g'
                    | Raise _ => g
                    end) g [0; 1]) g routes.

(** ** mta_graph.py *)

Module SubwayGraph.

Definition _assert_built (cls : cls_state) : result nx.graph :=
  match G cls with
  | None => Raise (RuntimeError "Call SubwayGraph.build_graph() first.")
  | Some g => Ok g
  end.

Definition ordered_stops (cls : cls_state) (route : string) (direction : Z)
  : result (list string) :=
  if String.eqb route "A" || String.eqb route "4" then
    all_trips ← attr (_trips cls);
    let trips := gtfs.query_trips all_trips route direction in
    let trip_ids := map gtfs.trip_id trips in
    all_stop_times ← attr (_stop_times cls);
    let stop_times :=
      List.filter (fun r => bool_decide (gtfs.st_trip_id r ∈ trip_ids))
                  all_stop_times in
    let trip_counts := gtfs.groupby_size stop_times in
    match trip_counts with
    | [] => Ok []
    | first :: rest =>
        let best_trip_id := gtfs.idxmax first rest in
        Ok (map gtfs.st_stop_id
              (gtfs.sort_values (gtfs.query_stop_times stop_times best_trip_id)))
    end
  else
    all_trips ← attr (_trips cls);
    trip_id ← gtfs.iloc0 (map gtfs.trip_id
                            (gtfs.query_trips all_trips route direction));
    all_stop_times ← attr (_stop_times cls);
    Ok (map gtfs.st_stop_id
          (gtfs.sort_values (gtfs.query_stop_times all_stop_times trip_id))).

(** [for i in range(len(complex_ids)): for j in range(i + 1, len(complex_ids)): ...] *)
Definition add_edges (route : string) (g : nx.graph)
    (complex_ids : list string) : nx.graph :=
  let n := length complex_ids in
  foldl (fun g i =>
           foldl (fun g j =>
                    let u := complex_ids !!! i in
                    let v := complex_ids !!! j in
                    add_or_update_edge route g u v)
                 g (seq (i + 1) (n - (i + 1))))
        g (seq 0 n).

(** The complex ids of one route and direction: the first two steps of
    the [try] body. *)
Definition complex_ids_of (cls : cls_state) (route : string) (direction : Z)
  : result (list string) :=
  stops ← ordered_stops cls route direction;
  cx ← attr (_complexes cls);
  to_complex_ids cx stops.

(** The [try] body. *)
Definition process (cls : cls_state) (g : nx.graph) (route : string)
    (direction : Z) : result nx.graph :=
  stops ← ordered_stops cls route direction;
  cx ← attr (_complexes cls);
  complex_ids ← to_complex_ids cx stops;
  let g := add_nodes cx g complex_ids in
  Ok (add_edges route g complex_ids).

Definition build_graph (src : sources) (cls : cls_state) : result cls_state :=
  cls ← load src cls;
  let routes := gtfs.unique (map gtfs.route_id (trips_txt src)) in
  let g := nx.DiGraph in
  let g := for_routes (process cls) routes g in
  let g := nx.map_lines PyStr.sorted g in
  Ok (set_G cls g).

(** [data['stop_name']] *)
Definition stop_name_of (e : nx.node_entry) : result string :=
  match nx.attrs e with
  | Some a => Ok (nx.stop_name a)
  | None => Raise KeyError
  end.

(** [for node, data in G.nodes(data=True): if data['stop_name'] == name: return node] *)
Fixpoint first_named (d : ODict.t nx.node_entry) (name : string)
  : result (option string) :=
  match d with
  | [] => Ok None
  | (node, data) :: d' =>
      n ← stop_name_of data;
      if String.eqb n name then Ok (Some node) else first_named d' name
  end.

Definition stop_name_to_complex_id (cls : cls_state) (name : string)
  : result (option string) :=
  g ← _assert_built cls;
  first_named (nx.entries g) name.

Definition complex_id_to_name (cls : cls_state) (complex_id : string)
  : result (option string) :=
  g ← _assert_built cls;
  match ODict.get (nx.entries g) complex_id with
  | Some e => n ← stop_name_of e; Ok (Some n)
  | None => Ok None
  end.

(** [sorted(lines)] for the set [lines] filled from the out-edges, then
    from the in-edges. *)
Definition lines_around (g : nx.graph) (complex_id : string) : list string :=
  PyStr.sorted
    (gtfs.unique (concat (nx.out_edge_lines g complex_id)
                  ++ concat (nx.in_edge_lines g complex_id))).

Definition lines_at_gtfs_stop_id (cls : cls_state) (gtfs_stop_id : string)
  : result (list string) :=
  g ← _assert_built cls;
  cx ← attr (_complexes cls);
  complex_id ← complexes.get_complex_id_by_gtfs_stop_id cx gtfs_stop_id;
  match complex_id with
  | Some c =>
      if negb (PyStr.truthy c) || negb (nx.has_node g c) then Ok []
      else Ok (lines_around g c)
  | None => Ok []
  end.

Definition lines_at_complex_id (cls : cls_state) (complex_id : string)
  : result (list string) :=
  g ← _assert_built cls;
  if negb (PyStr.truthy complex_id) || negb (nx.has_node g complex_id)
  then Ok []
  else Ok (lines_around g complex_id).

Definition successors (cls : cls_state) (complex_id : string)
  : result (list string) :=
  g ← _assert_built cls;
  nx.successors g complex_id.

Definition connecting_lines (cls : cls_state) (u v : string)
  : result (list string) :=
  g ← _assert_built cls;
  Ok (default [] (nx.edge_lines g u v)).

(** [try: return nx.shortest_path(..) except nx.NetworkXNoPath: return None] *)
Definition shortest_path (cls : cls_state) (start end_ : string)
  : result (option (list string)) :=
  g ← _assert_built cls;
  match nx.shortest_path g start end_ with
  | Ok path => Ok (Some path)
  | Raise NetworkXNoPath => Ok None
  | Raise e => Raise e
  end.

(** [for i in range(len(path) - 1): result.append((path[i], connecting_lines(path[i], path[i + 1])))] *)
Definition hops_with_lines (cls : cls_state) (path : list string)
  : result (list (string * list string)) :=
  for_each (fun result i =>
              let current := path !!! i in
              let next_stop := path !!! (i + 1)%nat in
              lines ← connecting_lines cls current next_stop;
              Ok (result ++ [(current, lines)]))
           (seq 0 (length path - 1)) [].

Definition shortest_path_with_lines (cls : cls_state) (start end_ : string)
  : result (option (list (string * list string))) :=
  path ← shortest_path cls start end_;
  match path with
  | None | Some [] => Ok None
  | Some path =>
      result ← hops_with_lines cls path;
      last ← match last path with Some x => Ok x | None => Raise IndexError end;
      Ok (Some (result ++ [(last, [])]))
  end.

(** An f-string field that holds a [str | None]. *)
Definition fmt (o : option string) : string := default "None" o.

Definition get_directions (cls : cls_state) (start end_ : string)
  : result (option string) :=
  path_with_lines ← shortest_path_with_lines cls start end_;
  match path_with_lines with
  | None | Some [] => Ok None
  | Some (((current_station, _) :: _) as path_with_lines) =>
      current_name ← complex_id_to_name cls current_station;
      let directions :=
        ["Start at " +:+ fmt current_name +:+ " (" +:+ current_station +:+ ")"] in
      directions ←
        for_each (fun directions i =>
                    let '(current_station, lines) := path_with_lines !!! i in
                    let '(next_station, _) := path_with_lines !!! (i + 1)%nat in
                    next_name ← complex_id_to_name cls next_station;
                    match lines with
                    | _ :: _ =>
                        let line_str := PyStr.join ", " lines in
                        Ok (directions ++
                            ["Take the " +:+ line_str +:+ " trains to "
                             +:+ fmt next_name +:+ " (" +:+ next_station +:+ ")"])
                    | [] =>
                        Ok (directions ++
                            ["Transfer at " +:+ fmt next_name
                             +:+ " (" +:+ next_station +:+ ")"])
                    end)
                 (seq 0 (length path_with_lines - 1)) directions;
      Ok (Some (PyStr.join (String "010"%char EmptyString) directions))
  end.

(** [try: return list(nx.all_shortest_paths(..)) except nx.NetworkXNoPath: return []] *)
Definition all_shortest_paths (cls : cls_state) (start end_ : string)
  : result (list (list string)) :=
  g ← _assert_built cls;
  match nx.all_shortest_paths g start end_ with
  | Ok paths => Ok paths
  | Raise NetworkXNoPath => Ok []
  | Raise e => Raise e
  end.

Record segment : Type := {
  from_station : string;
  from_name : option string;
  to_station : string;
  to_name : option string;
  lines : list string
}.

Definition get_directions_for_path (cls : cls_state) (path : list string)
  : result (list segment) :=
  for_each (fun segments i =>
              let from_station := path !!! i in
              let to_station := path !!! (i + 1)%nat in
              from_name ← complex_id_to_name cls from_station;
              to_name ← complex_id_to_name cls to_station;
              lines ← connecting_lines cls from_station to_station;
              Ok (segments ++
                  [{| from_station := from_station; from_name := from_name;
                      to_station := to_station; to_name := to_name;
                      lines := lines |}]))
           (seq 0 (length path - 1)) [].

Definition get_all_directions (cls : cls_state) (start end_ : string)
  : result (list (list segment)) :=
  paths ← all_shortest_paths cls start end_;
  for_each (fun acc path =>
              d ← get_directions_for_path cls path; Ok (acc ++ [d]))
           paths [].

End SubwayGraph.

(** ** mta_complex_graph.py *)

Module MTAComplexGraph.

Definition _assert_built (cls : cls_state) : result nx.graph :=
  match G cls with
  | None => Raise (RuntimeError "Call MTAComplexGraph.build_graph() first.")
  | Some g => Ok g
  end.

Definition ordered_stops (cls : cls_state) (route : string) (direction : Z)
  : result (list string) :=
  _ ← _assert_built cls;
  all_trips ← attr (_trips cls);
  trip_id ← gtfs.iloc0 (map gtfs.trip_id
                          (gtfs.query_trips all_trips route direction));
  all_stop_times ← attr (_stop_times cls);
  let gtfs_stops :=
    map gtfs.st_stop_id
        (gtfs.sort_values (gtfs.query_stop_times all_stop_times trip_id)) in
  cx ← attr (_complexes cls);
  for_each (fun complex_ids stop =>
              complex_id ← complexes.get_complex_id_by_gtfs_stop_id cx stop;
              match complex_id with
              | Some c =>
                  if PyStr.truthy c && negb (bool_decide (c ∈ complex_ids))
                  then Ok (complex_ids ++ [c])
                  else Ok complex_ids
              | None => Ok complex_ids
              end) gtfs_stops [].

(** [for i in range(len(complex_ids) - 1): u, v = complex_ids[i], complex_ids[i + 1]; ...] *)
Definition add_edges (route : string) (g : nx.graph)
    (complex_ids : list string) : nx.graph :=
  foldl (fun g i =>
           let u := complex_ids !!! i in
           let v := complex_ids !!! (i + 1)%nat in
           add_or_update_edge route g u v)
        g (seq 0 (length complex_ids - 1)).

(** The complex ids of one route and direction: the first two steps of
    the [try] body. *)
Definition complex_ids_of (cls : cls_state) (route : string) (direction : Z)
  : result (list string) :=
  stops ← ordered_stops cls route direction;
  cx ← attr (_complexes cls);
  to_complex_ids cx stops.

(** The [try] body. *)
Definition process (cls : cls_state) (g : nx.graph) (route : string)
    (direction : Z) : result nx.graph :=
  stops ← ordered_stops cls route direction;
  cx ← attr (_complexes cls);
  complex_ids ← to_complex_ids cx stops;
  let g := add_nodes cx g complex_ids in
  Ok (add_edges route g complex_ids).

Definition build_graph (src : sources) (cls : cls_state) : result cls_state :=
  cls ← load src cls;
  let routes := gtfs.unique (map gtfs.route_id (trips_txt src)) in
  let g := nx.Graph in
  let g := for_routes (process cls) routes g in
  let g := nx.map_lines PyStr.sorted g in
  Ok (set_G cls g).

Definition connecting_lines (cls : cls_state) (complex_id_1 complex_id_2 : string)
  : result (list string) :=
  g ← _assert_built cls;
  Ok (default [] (nx.edge_lines g complex_id_1 complex_id_2)).

(** [lines.append(cls.G[u][v]['lines'])] for the hops of [path]. *)
Definition path_lines (g : nx.graph) (path : list string)
  : result (list (list string)) :=
  for_each (fun lines i =>
              let u := path !!! i in
              let v := path !!! (i + 1)%nat in
              match nx.edge_lines g u v with
              | Some l => Ok (lines ++ [l])
              | None => Raise KeyError
              end)
           (seq 0 (length path - 1)) [].

(** The whole body is in the [try]: [NetworkXNoPath] gives [([], [])]. *)
Definition shortest_path (cls : cls_state) (complex_id_1 complex_id_2 : string)
  : result (list string * list (list string)) :=
  g ← _assert_built cls;
  match (path ← nx.shortest_path g complex_id_1 complex_id_2;
         lines ← path_lines g path;
         Ok (path, lines)) with
  | Raise NetworkXNoPath => Ok ([], [])
  | r => r
  end.

End MTAComplexGraph.

(** * Vocabulary of the properties *)

Section RegistryVocabulary.
Import complexes.

(** A stop id is registered when some row lists it. *)
Definition registered (rows : list complex_row) (gtfs : string) : Prop :=
  ∃ row, row ∈ rows ∧ gtfs ∈ gtfs_list_of (row_gtfs_stop_ids row).

(** A row lists [gtfs] under the complex [c]. *)
Definition registered_in (rows : list complex_row) (gtfs c : string) : Prop :=
  ∃ row, row ∈ rows ∧ row_complex_id row = c
         ∧ gtfs ∈ gtfs_list_of (row_gtfs_stop_ids row).

(** The keys the member [gtfs] writes: itself, and its stem when it ends
    in [N] or [S]. *)
Definition writes (gtfs k : string) : Prop :=
  k = gtfs ∨ gtfs = k +:+ "N" ∨ gtfs = k +:+ "S".

#[global] Instance writes_dec (gtfs k : string) : Decision (writes gtfs k).
Proof. unfold writes. apply _. Defined.

(** Of the three forms [base], [base]N and [base]S of a stop id, only
    [base]N is registered: a row lists it, and no other listed id writes
    one of the three keys. *)
Definition only_northbound_registered (rows : list complex_row)
    (base : string) : Prop :=
  registered rows (base +:+ "N") ∧
  ∀ g k, registered rows g → g ≠ base +:+ "N" →
         k ∈ [base; base +:+ "N"; base +:+ "S"] → ¬ writes g k.

(** A stop id without directional suffix: non-empty, not ending in [N] or
    [S]. *)
Definition unsuffixed (s : string) : Prop :=
  ∃ stem ch, s = stem +:+ String ch EmptyString
             ∧ ch ≠ "N"%char ∧ ch ≠ "S"%char.

End RegistryVocabulary.

Section GraphVocabulary.

(** The route [r] is in the line list of the edge from [a] to [b]. *)
Definition lines_on (g : nx.graph) (a b r : string) : Prop :=
  ∃ l, nx.edge_lines g a b = Some l ∧ r ∈ l.

(** The edge from [a] to [b] is the edge a build step on [u], [v] writes:
    the same pair, or the reversed pair in an undirected graph. *)
Definition same_edge (directed : bool) (u v a b : string) : Prop :=
  (a = u ∧ b = v) ∨ (directed = false ∧ a = v ∧ b = u).

(** An undirected graph stores every edge under both end points. *)
Definition symmetric (g : nx.graph) : Prop :=
  nx.directed g = false → ∀ a b, nx.edge_lines g a b = nx.edge_lines g b a.

(** No edge has an empty line list. *)
Definition lines_nonempty (g : nx.graph) : Prop :=
  ∀ a b l, nx.edge_lines g a b = Some l → l ≠ [].

(** What the build loop keeps true of its graph. *)
Definition edge_invariant (g : nx.graph) : Prop :=
  symmetric g ∧ lines_nonempty g.

(** The complex ids of [stops]: in order, the stops without a complex id
    dropped, nothing else changed. *)
Inductive kept_resolved (cx : complexes.ComplexesData)
  : list string → list string → Prop :=
| kept_nil : kept_resolved cx [] []
| kept_keep stop c stops ids :
    complexes.get_complex_id_by_gtfs_stop_id cx stop = Ok (Some c) →
    c ≠ EmptyString →
    kept_resolved cx stops ids →
    kept_resolved cx (stop :: stops) (c :: ids)
| kept_drop stop stops ids :
    complexes.get_complex_id_by_gtfs_stop_id cx stop = Ok None
    ∨ complexes.get_complex_id_by_gtfs_stop_id cx stop = Ok (Some EmptyString) →
    kept_resolved cx stops ids →
    kept_resolved cx (stop :: stops) ids.

(** [a] occurs before [b] in [seq]. *)
Definition before (seq : list string) (a b : string) : Prop :=
  ∃ i j, (i < j)%nat ∧ seq !! i = Some a ∧ seq !! j = Some b.

(** [a] and [b] are consecutive in [seq], in this order. *)
Definition consecutive (seq : list string) (a b : string) : Prop :=
  ∃ i, seq !! i = Some a ∧ seq !! S i = Some b.

(** The pairs of a route and a direction the build loop goes through. *)
Definition in_build_loop (src : sources) (route : string) (direction : Z)
  : Prop :=
  route ∈ gtfs.unique (map gtfs.route_id (trips_txt src))
  ∧ direction ∈ [0; 1].

(** There is an edge from [u] to [v]. *)
Definition edge (g : nx.graph) (u v : string) : Prop :=
  v ∈ nx.neighbors g u.

(** The pairs a level of the search goes through: every node of the level
    with every neighbour of it, in order. *)
Definition level_pairs (g : nx.graph) (vs : list string)
  : list (string * string) :=
  vs ≫= λ v, (λ w, (v, w)) <$> nx.neighbors g v.

(** [path] leads from [a] to [b] along edges of [g]. *)
Inductive is_path (g : nx.graph) : string → string → list string → Prop :=
| is_path_one a : is_path g a a [a]
| is_path_snoc a b c p :
    is_path g a b p → edge g b c → is_path g a c (p ++ [c]).

(** [b] can be reached from [a]. *)
Definition reachable (g : nx.graph) (a b : string) : Prop :=
  ∃ p, is_path g a b p.

(** Every node carries a [stop_name]. *)
Definition all_named (g : nx.graph) : bool :=
  forallb (λ ne, match nx.attrs ne.2 with Some _ => true | None => false end)
          (nx.entries g).

(** The name of a node, when the node is there. *)
Definition name_opt (g : nx.graph) (n : string) : option string :=
  e ← ODict.get (nx.entries g) n; a ← nx.attrs e; Some (nx.stop_name a).

(** The line list of a hop; empty when there is no edge. *)
Definition lines_of (g : nx.graph) (u v : string) : list string :=
  default [] (nx.edge_lines g u v).

(** [F] on every two neighbouring elements of [l]. *)
Fixpoint hop_map {X B : Type} (F : X → X → B) (l : list X) : list B :=
  match l with
  | u :: (v :: _) as rest => F u v :: hop_map F rest
  | _ => []
  end.

(** A path with the lines of each hop, the last node with none. *)
Fixpoint with_lines (g : nx.graph) (p : list string)
  : list (string * list string) :=
  match p with
  | [] => []
  | u :: rest =>
      match rest with
      | [] => [(u, [])]
      | v :: _ => (u, lines_of g u v) :: with_lines g rest
      end
  end.

(** The first line of the directions. *)
Definition start_line (g : nx.graph) (a : string) : string :=
  "Start at " +:+ SubwayGraph.fmt (name_opt g a) +:+ " (" +:+ a +:+ ")".

(** The line of a hop to [v] on [lines]. *)
Definition hop_text (g : nx.graph) (lines : list string) (v : string) : string :=
  match lines with
  | [] => "Transfer at " +:+ SubwayGraph.fmt (name_opt g v) +:+ " (" +:+ v +:+ ")"
  | _ => "Take the " +:+ PyStr.join ", " lines +:+ " trains to "
         +:+ SubwayGraph.fmt (name_opt g v) +:+ " (" +:+ v +:+ ")"
  end.

(** The line of the hop from [u] to [v]. *)
Definition hop_line (g : nx.graph) (u v : string) : string :=
  hop_text g (lines_of g u v) v.

(** The directions as the specification words them: the first line for the
    start, then a line for each hop, joined by new lines. *)
Definition render_directions (g : nx.graph) (p : list string) : option string :=
  match p with
  | [] => None
  | a :: _ =>
      Some (PyStr.join (String "010"%char EmptyString)
                       (start_line g a :: hop_map (hop_line g) p))
  end.

End GraphVocabulary.

(** * Vocabulary of the further properties *)

Section TableVocabulary.
Import complexes.

(** The rows of [Complexes.csv] with the complex id [c], in file order. *)
Definition rows_of (rows : list complex_row) (c : string) : list complex_row :=
  List.filter (λ row, String.eqb (row_complex_id row) c) rows.

(** The rows of [Complexes.csv] with a member that writes the key [k], in
    file order. *)
Definition writer_rows (rows : list complex_row) (k : string)
  : list complex_row :=
  List.filter (λ row, bool_decide (Exists (λ g, writes g k)
                                     (gtfs_list_of (row_gtfs_stop_ids row))))
              rows.

(** The rows of [stops.txt] with the stop id [s], in file order. *)
Definition stop_rows_of (stops : list stop_row) (s : string) : list stop_row :=
  List.filter (λ r, String.eqb (stop_id r) s) stops.

(** The name [stops.txt] gives the stop id [s]: that of its last row. *)
Definition table_name (stops : list stop_row) (s : string) : option string :=
  stop_name <$> last (stop_rows_of stops s).

(** The name of a member stop that counts for its complex: listed, and not
    the empty text. *)
Definition listed_name (self : ComplexesData) (s : string) : option string :=
  match stop_name_map self !! s with
  | Some name => if PyStr.truthy name then Some name else None
  | None => None
  end.

(** Every row of [stops.txt] carries a name. *)
Definition names_present (stops : list stop_row) : Prop :=
  Forall (λ r, stop_name r ≠ EmptyString) stops.

(** The member list the registry file gives the complex [c]: that of its
    last row, and no member when it has no row. *)
Definition members_of (rows : list complex_row) (c : string) : list string :=
  default [] ((λ row, gtfs_list_of (row_gtfs_stop_ids row))
                <$> last (rows_of rows c)).

(** The text of a [str | None] that is true: not [None], not empty. *)
Definition true_text (o : option string) : Prop :=
  ∃ name, o = Some name ∧ name ≠ EmptyString.

(** The order of [sorted] on strings. *)
Definition str_le (a b : string) : Prop := String.leb a b = true.

(** The order of [sort_values("stop_sequence")]. *)
Definition by_sequence (r1 r2 : gtfs.stop_time_row) : Prop :=
  (gtfs.stop_sequence r1 ≤ gtfs.stop_sequence r2)%Z.

End TableVocabulary.

Section BuildVocabulary.

(** The attributes the build gives the node of the complex [c]. *)
Definition node_attrs_of (cx : complexes.ComplexesData) (c : string)
  : nx.node_attrs :=
  {| nx.stop_name := complexes.get_station_name cx c;
     nx.gtfs_ids := complexes.get_gtfs_stop_ids_by_complex_id cx c |}.

(** The graphs the build loop goes through, from the graph [empty]: a
    complex that is not yet a node is added with its attributes, and an
    edge step joins two nodes. *)
Inductive build_state (cx : complexes.ComplexesData) (empty : nx.graph)
  : nx.graph → Prop :=
| build_start : build_state cx empty empty
| build_node g c :
    build_state cx empty g → nx.has_node g c = false →
    build_state cx empty (nx.add_node g c (node_attrs_of cx c))
| build_edge route g u v :
    build_state cx empty g →
    nx.has_node g u = true → nx.has_node g v = true →
    build_state cx empty (add_or_update_edge route g u v).

(** The dictionaries of the graph hold a key once. *)
Definition keys_once (g : nx.graph) : Prop :=
  NoDup (nx.nodes g) ∧
  ∀ n e, ODict.get (nx.entries g) n = Some e → NoDup (ODict.keys (nx.adj e)).

(** Every edge ends in a node. *)
Definition closed (g : nx.graph) : Prop :=
  ∀ a b l, nx.edge_lines g a b = Some l → nx.has_node g b = true.

(** Every node carries the attributes of its complex. *)
Definition attrs_of_registry (cx : complexes.ComplexesData) (g : nx.graph)
  : Prop :=
  ∀ n e, ODict.get (nx.entries g) n = Some e →
         nx.attrs e = Some (node_attrs_of cx n).

(** No line list names a route twice. *)
Definition lines_once (g : nx.graph) : Prop :=
  ∀ a b l, nx.edge_lines g a b = Some l → NoDup l.

End BuildVocabulary.

Section BuiltVocabulary.

(** What the build loop keeps true of its graph, besides the shape of its
    edges. *)
Definition well_built (cx : complexes.ComplexesData) (g : nx.graph) : Prop :=
  edge_invariant g ∧ keys_once g ∧ closed g ∧ attrs_of_registry cx g
  ∧ lines_once g.

(** Every line list is in ascending order. *)
Definition lines_sorted (g : nx.graph) : Prop :=
  ∀ a b l, nx.edge_lines g a b = Some l → Sorted str_le l.

End BuiltVocabulary.

Section DirectionsVocabulary.

(** The line of the directions for a hop to [v] on a line, the station
    named by the registry. *)
Definition ride_line (cx : complexes.ComplexesData) (g : nx.graph)
    (u v : string) : string :=
  "Take the " +:+ PyStr.join ", " (lines_of g u v) +:+ " trains to "
  +:+ complexes.get_station_name cx v +:+ " (" +:+ v +:+ ")".

(** The segment of the hop from [u] to [v]. *)
Definition segment_of (g : nx.graph) (u v : string) : SubwayGraph.segment :=
  {| SubwayGraph.from_station := u;
     SubwayGraph.from_name := name_opt g u;
     SubwayGraph.to_station := v;
     SubwayGraph.to_name := name_opt g v;
     SubwayGraph.lines := lines_of g u v |}.

(** [p] is a path from [a] to [b] with the fewest edges. *)
Definition shortest (g : nx.graph) (a b : string) (p : list string) : Prop :=
  is_path g a b p ∧ ∀ q, is_path g a b q → (length p ≤ length q)%nat.

End DirectionsVocabulary.

Section SequenceVocabulary.

(** Every run of consecutive repeats collapsed to one occurrence, as the
    specification asks of the sequence of a trip. *)
Fixpoint collapse_repeats (l : list string) : list string :=
  match l with
  | [] => []
  | x :: rest =>
      match rest with
      | [] => [x]
      | y :: _ =>
          if String.eqb x y then collapse_repeats rest
          else x :: collapse_repeats rest
      end
  end.

(** The sequence the specification asks for, of the trip that
    [SubwayGraph.ordered_stops] picks for a route and direction: its stops
    in order, each resolved to its complex, the unresolved dropped,
    consecutive repeats collapsed. *)
Definition spec_sequence (cls : cls_state) (route : string) (direction : Z)
  : result (list string) :=
  stops ← SubwayGraph.ordered_stops cls route direction;
  cx ← attr (_complexes cls);
  ids ← to_complex_ids cx stops;
  Ok (collapse_repeats ids).

End SequenceVocabulary.

(** * Sources used in examples *)

Section ExampleSources.
Import complexes gtfs.

(** Route L calls at two platforms of complex 611, then at complex 10. *)
Definition two_platforms : sources :=
  {| complexes_csv :=
       [ {| row_complex_id := "611"; row_num_stations := 2;
            row_gtfs_stop_ids := "127; 725" |};
         {| row_complex_id := "10"; row_num_stations := 1;
            row_gtfs_stop_ids := "R16" |} ];
     complexes_stops_txt :=
       [ {| stop_id := "127"; stop_name := "Times Sq-42 St" |};
         {| stop_id := "R16"; stop_name := "49 St" |} ];
     stops_txt :=
       [ {| stop_id := "127"; stop_name := "Times Sq-42 St" |};
         {| stop_id := "R16"; stop_name := "49 St" |} ];
     trips_txt := [ {| trip_id := "t1"; route_id := "L"; direction_id := 0 |} ];
     stop_times_txt :=
       [ {| st_trip_id := "t1"; st_stop_id := "127"; stop_sequence := 1 |};
         {| st_trip_id := "t1"; st_stop_id := "725"; stop_sequence := 2 |};
         {| st_trip_id := "t1"; st_stop_id := "R16"; stop_sequence := 3 |} ] |}.

(** Route L runs from A1 to B1; every complex id is also the id of its one
    stop. *)
Definition self_named : sources :=
  {| complexes_csv :=
       [ {| row_complex_id := "A1"; row_num_stations := 1;
            row_gtfs_stop_ids := "A1" |};
         {| row_complex_id := "B1"; row_num_stations := 1;
            row_gtfs_stop_ids := "B1" |} ];
     complexes_stops_txt :=
       [ {| stop_id := "A1"; stop_name := "First Av" |};
         {| stop_id := "B1"; stop_name := "Second Av" |} ];
     stops_txt :=
       [ {| stop_id := "A1"; stop_name := "First Av" |};
         {| stop_id := "B1"; stop_name := "Second Av" |} ];
     trips_txt := [ {| trip_id := "t1"; route_id := "L"; direction_id := 0 |} ];
     stop_times_txt :=
       [ {| st_trip_id := "t1"; st_stop_id := "A1"; stop_sequence := 1 |};
         {| st_trip_id := "t1"; st_stop_id := "B1"; stop_sequence := 2 |} ] |}.

(** A graph made by hand: from A to B on the lines N and Q, from B to C on
    an edge without a line. *)
Definition abc_graph : nx.graph :=
  {| nx.directed := true;
     nx.entries :=
       [ ("idA", {| nx.attrs := Some {| nx.stop_name := "A"; nx.gtfs_ids := None |};
                    nx.adj := [("idB", ["N"; "Q"])] |});
         ("idB", {| nx.attrs := Some {| nx.stop_name := "B"; nx.gtfs_ids := None |};
                    nx.adj := [("idC", [])] |});
         ("idC", {| nx.attrs := Some {| nx.stop_name := "C"; nx.gtfs_ids := None |};
                    nx.adj := [] |}) ] |}.

(** The class with [cls.G = abc_graph]. *)
Definition abc_cls : cls_state := set_G cls_initial abc_graph.

(** The nodes of [cls.G], when there is a graph. *)
Definition nodes_of (cls : cls_state) : option (list string) :=
  nx.nodes <$> G cls.

End ExampleSources.

Section MoreExampleSources.
Import complexes gtfs.

(** Route A has a short trip, listed first, and a longer one. *)
Definition short_and_long : sources :=
  {| complexes_csv :=
       [ {| row_complex_id := "1"; row_num_stations := 1;
            row_gtfs_stop_ids := "A01" |};
         {| row_complex_id := "2"; row_num_stations := 1;
            row_gtfs_stop_ids := "A02" |};
         {| row_complex_id := "3"; row_num_stations := 1;
            row_gtfs_stop_ids := "A03" |} ];
     complexes_stops_txt :=
       [ {| stop_id := "A01"; stop_name := "First St" |};
         {| stop_id := "A02"; stop_name := "Second St" |};
         {| stop_id := "A03"; stop_name := "Third St" |} ];
     stops_txt :=
       [ {| stop_id := "A01"; stop_name := "First St" |};
         {| stop_id := "A02"; stop_name := "Second St" |};
         {| stop_id := "A03"; stop_name := "Third St" |} ];
     trips_txt :=
       [ {| trip_id := "short"; route_id := "A"; direction_id := 0 |};
         {| trip_id := "long"; route_id := "A"; direction_id := 0 |} ];
     stop_times_txt :=
       [ {| st_trip_id := "short"; st_stop_id := "A01N"; stop_sequence := 1 |};
         {| st_trip_id := "short"; st_stop_id := "A03N"; stop_sequence := 2 |};
         {| st_trip_id := "long"; st_stop_id := "A03N"; stop_sequence := 3 |};
         {| st_trip_id := "long"; st_stop_id := "A01N"; stop_sequence := 1 |};
         {| st_trip_id := "long"; st_stop_id := "A02N"; stop_sequence := 2 |} ] |}.

(** Route L runs from X to Y, back to X and on to Z; every complex id is
    also the id of its one stop. *)
Definition there_and_back : sources :=
  {| complexes_csv :=
       [ {| row_complex_id := "X"; row_num_stations := 1;
            row_gtfs_stop_ids := "X" |};
         {| row_complex_id := "Y"; row_num_stations := 1;
            row_gtfs_stop_ids := "Y" |};
         {| row_complex_id := "Z"; row_num_stations := 1;
            row_gtfs_stop_ids := "Z" |} ];
     complexes_stops_txt :=
       [ {| stop_id := "X"; stop_name := "Cross St" |};
         {| stop_id := "Y"; stop_name := "York St" |};
         {| stop_id := "Z"; stop_name := "Zoo" |} ];
     stops_txt :=
       [ {| stop_id := "X"; stop_name := "Cross St" |};
         {| stop_id := "Y"; stop_name := "York St" |};
         {| stop_id := "Z"; stop_name := "Zoo" |} ];
     trips_txt := [ {| trip_id := "t1"; route_id := "L"; direction_id := 0 |} ];
     stop_times_txt :=
       [ {| st_trip_id := "t1"; st_stop_id := "X"; stop_sequence := 1 |};
         {| st_trip_id := "t1"; st_stop_id := "Y"; stop_sequence := 2 |};
         {| st_trip_id := "t1"; st_stop_id := "X"; stop_sequence := 3 |};
         {| st_trip_id := "t1"; st_stop_id := "Z"; stop_sequence := 4 |} ] |}.

(** The routes Q and N, in this order in [trips.txt], both run from A1 to
    B1. *)
Definition two_routes : sources :=
  {| complexes_csv :=
       [ {| row_complex_id := "A1"; row_num_stations := 1;
            row_gtfs_stop_ids := "A1" |};
         {| row_complex_id := "B1"; row_num_stations := 1;
            row_gtfs_stop_ids := "B1" |} ];
     complexes_stops_txt :=
       [ {| stop_id := "A1"; stop_name := "First Av" |};
         {| stop_id := "B1"; stop_name := "Second Av" |} ];
     stops_txt :=
       [ {| stop_id := "A1"; stop_name := "First Av" |};
         {| stop_id := "B1"; stop_name := "Second Av" |} ];
     trips_txt :=
       [ {| trip_id := "t1"; route_id := "Q"; direction_id := 0 |};
         {| trip_id := "t2"; route_id := "N"; direction_id := 0 |} ];
     stop_times_txt :=
       [ {| st_trip_id := "t1"; st_stop_id := "A1"; stop_sequence := 1 |};
         {| st_trip_id := "t1"; st_stop_id := "B1"; stop_sequence := 2 |};
         {| st_trip_id := "t2"; st_stop_id := "A1"; stop_sequence := 1 |};
         {| st_trip_id := "t2"; st_stop_id := "B1"; stop_sequence := 2 |} ] |}.

(** Stop 127 is listed twice: under complex 611, then under complex 999. *)
Definition listed_twice : list complex_row :=
  [ {| row_complex_id := "611"; row_num_stations := 2;
       row_gtfs_stop_ids := "127; 725" |};
    {| row_complex_id := "999"; row_num_stations := 1;
       row_gtfs_stop_ids := "127" |} ].

End MoreExampleSources.

(** The class with the tables of [src] loaded, and no graph. *)
Definition tables_of (src : sources) : cls_state :=
  {| G := None; _stops := Some (stops_txt src); _trips := Some (trips_txt src);
     _stop_times := Some (stop_times_txt src); _complexes := None |}.

(** * Properties *)

(** ** Strings *)

Section PyStrFacts.
Import PyStr.

Lemma index_last_snoc (s : string) (c : ascii) :
  index_last (s +:+ String c EmptyString) = Ok c.
Proof.
  induction s as [|a s IH]; simpl; [done|].
  rewrite IH. by destruct s.
Qed.

Lemma drop_last_snoc (s : string) (c : ascii) :
  drop_last (s +:+ String c EmptyString) = s.
Proof.
  induction s as [|a s IH]; simpl; [done|].
  rewrite IH. by destruct s.
Qed.

Lemma index_last_Ok (s : string) (c : ascii) :
  index_last s = Ok c → s = drop_last s +:+ String c EmptyString.
Proof.
  induction s as [|a s IH]; simpl; [done|].
  destruct s as [|b s]; [by intros [= ->]|].
  intros H.
  change (drop_last (String a (String b s)))
    with (String a (drop_last (String b s))).
  change (String a (String b s) =
          String a (drop_last (String b s) +:+ String c EmptyString)).
  f_equal. exact (IH H).
Qed.

Lemma index_last_nonempty (s : string) :
  s ≠ EmptyString → ∃ c, index_last s = Ok c.
Proof.
  induction s as [|a s IH]; [done|]. intros _.
  destruct s as [|b s]; [by exists a|].
  destruct IH as [c Hc]; [done|]. exists c. exact Hc.
Qed.

Lemma index_last_Raise (s : string) (e : exn) :
  index_last s = Raise e → s = EmptyString.
Proof.
  intros H. destruct (decide (s = EmptyString)) as [|Hne]; [done|].
  destruct (index_last_nonempty s Hne) as [c Hc]. congruence.
Qed.

Lemma in_NS_true (c : ascii) :
  in_NS c = true ↔ c = "N"%char ∨ c = "S"%char.
Proof.
  unfold in_NS. rewrite orb_true_iff, !Ascii.eqb_eq. done.
Qed.

Lemma truthy_true (s : string) : truthy s = true ↔ s ≠ EmptyString.
Proof. by destruct s. Qed.

Lemma truthy_false (s : string) : truthy s = false ↔ s = EmptyString.
Proof. by destruct s. Qed.

Lemma snoc_not_empty (s : string) (c : ascii) :
  s +:+ String c EmptyString ≠ EmptyString.
Proof. by destruct s. Qed.

Lemma snoc_inj (s t : string) (c d : ascii) :
  s +:+ String c EmptyString = t +:+ String d EmptyString → s = t ∧ c = d.
Proof.
  intros H. split.
  - by rewrite <- (drop_last_snoc s c), H, drop_last_snoc.
  - pose proof (index_last_snoc s c) as Hs. rewrite H, index_last_snoc in Hs.
    congruence.
Qed.
End PyStrFacts.

(** ** The loop combinator *)

Lemma for_each_app {A S : Type} (f : S → A → result S) (l1 l2 : list A) (s : S) :
  for_each f (l1 ++ l2) s = s' ← for_each f l1 s; for_each f l2 s'.
Proof.
  revert s. induction l1 as [|x l1 IH]; intros s; simpl; [done|].
  destruct (f s x); simpl; [apply IH|done].
Qed.

(** A loop whose body never raises on the elements of [l] returns, and an
    invariant of the body holds of what it returns. *)
Lemma for_each_invariant {A S : Type} (f : S → A → result S) (P : list A → S → Prop)
    (l : list A) (s : S) :
  P [] s →
  (∀ done x s, P done s → x ∈ l → ∃ s', f s x = Ok s' ∧ P (done ++ [x]) s') →
  ∃ s', for_each f l s = Ok s' ∧ P l s'.
Proof.
  intros H0 Hstep.
  cut (∀ done rest s, done ++ rest = l → P done s →
         ∃ s', for_each f rest s = Ok s' ∧ P l s').
  { intros Hc. by apply (Hc [] l s). }
  intros done rest. revert done.
  induction rest as [|x rest IH]; intros done s0 Hl HP; simpl.
  - rewrite app_nil_r in Hl. subst. by exists s0.
  - destruct (Hstep done x s0 HP) as (s1 & -> & HP1).
    { rewrite <- Hl. set_solver. }
    simpl. apply (IH (done ++ [x])); [by rewrite <- app_assoc|done].
Qed.

(** ** The complex registry *)

Section ComplexesFacts.
Import PyStr complexes.

Lemma gtfs_list_of_nonempty (x gtfs : string) :
  gtfs ∈ gtfs_list_of x → gtfs ≠ EmptyString.
Proof.
  unfold gtfs_list_of. rewrite list_elem_of_In, in_map_iff.
  intros (g & <- & Hg). apply filter_In in Hg as [_ Hg].
  by apply truthy_true.
Qed.

Lemma register_gtfs_spec (c : string) (m : gmap string string) (gtfs : string) :
  gtfs ≠ EmptyString →
  ∃ m', register_gtfs c m gtfs = Ok m' ∧
    ∀ k, m' !! k = if bool_decide (writes gtfs k) then Some c else m !! k.
Proof.
  unfold writes.
  intros Hne. unfold register_gtfs.
  destruct (index_last_nonempty gtfs Hne) as [ch Hch]. rewrite Hch. simpl.
  pose proof (index_last_Ok _ _ Hch) as Hg.
  destruct (in_NS ch) eqn:HNS.
  - eexists; split; [done|].
    + intros k. apply in_NS_true in HNS. case_bool_decide as Hk.
      * destruct (decide (k = drop_last gtfs)) as [->|Hk'];
          [by rewrite lookup_insert_eq|].
        rewrite lookup_insert_ne by done.
        destruct Hk as [->|Hk]; [by rewrite lookup_insert_eq|].
        exfalso. apply Hk'.
        destruct Hk as [Hk|Hk]; rewrite Hk at 1; by rewrite drop_last_snoc.
      * rewrite !lookup_insert_ne; [done| |].
        -- intros <-. apply Hk. by left.
        -- intros <-. apply Hk. right.
           destruct HNS as [->| ->]; [by left|by right].
  - eexists; split; [done|].
    intros k. case_bool_decide as Hk.
    + destruct Hk as [->|Hk]; [by rewrite lookup_insert_eq|].
      exfalso. rewrite Hg in Hk.
      assert (ch = "N"%char ∨ ch = "S"%char) as HNS'.
      { destruct Hk as [Hk|Hk]; apply snoc_inj in Hk as [_ ->]; auto. }
      apply in_NS_true in HNS'. congruence.
    + rewrite lookup_insert_ne; [done|]. intros <-. apply Hk. by left.
Qed.

(** One row writes its complex id under every key its members write. *)
Lemma load_row_spec (self : ComplexesData) (row : complex_row) :
  ∃ self', load_row self row = Ok self' ∧
    stop_name_map self' = stop_name_map self ∧
    ∀ k, complex_id_by_gtfs self' !! k =
         if bool_decide (Exists (λ g, writes g k)
                                (gtfs_list_of (row_gtfs_stop_ids row)))
         then Some (row_complex_id row)
         else complex_id_by_gtfs self !! k.
Proof.
  unfold load_row.
  destruct (for_each_invariant (register_gtfs (row_complex_id row))
    (λ done m, ∀ k, m !! k =
       if bool_decide (Exists (λ g, writes g k) done)
       then Some (row_complex_id row) else complex_id_by_gtfs self !! k)
    (gtfs_list_of (row_gtfs_stop_ids row)) (complex_id_by_gtfs self))
    as (m' & Hm' & Hspec).
  - intros k. rewrite bool_decide_eq_false_2; [done|]. by intros ?%Exists_nil.
  - intros done x m Hm Hx.
    destruct (register_gtfs_spec (row_complex_id row) m x) as (m1 & -> & H1).
    { by eapply gtfs_list_of_nonempty. }
    exists m1. split; [done|]. intros k. rewrite H1, Hm.
    repeat case_bool_decide; try done; exfalso;
      rewrite ?Exists_app, ?Exists_cons, ?Exists_nil in *; naive_solver.
  - rewrite Hm'. simpl. eexists. split; [done|]. by split.
Qed.

(** What [__init__] leaves in [complex_id_by_gtfs]. *)
Lemma init_spec (rows : list complex_row) (stops : list stop_row) :
  ∃ self, init rows stops = Ok self ∧
    stop_name_map self = name_map_of stops ∧
    (∀ k c, complex_id_by_gtfs self !! k = Some c →
            ∃ g, registered_in rows g c ∧ writes g k) ∧
    (∀ k, (∃ g, registered rows g ∧ writes g k) →
          is_Some (complex_id_by_gtfs self !! k)) ∧
    (∀ k1 k2, (∀ g, registered rows g → writes g k1 ↔ writes g k2) →
              complex_id_by_gtfs self !! k1 = complex_id_by_gtfs self !! k2).
Proof.
  unfold init.
  destruct (for_each_invariant load_row
    (λ done self,
       stop_name_map self = name_map_of stops ∧
       (∀ k c, complex_id_by_gtfs self !! k = Some c →
               ∃ g, registered_in done g c ∧ writes g k) ∧
       (∀ k, (∃ g, registered done g ∧ writes g k) →
             is_Some (complex_id_by_gtfs self !! k)) ∧
       (∀ k1 k2, (∀ g, registered done g → writes g k1 ↔ writes g k2) →
                 complex_id_by_gtfs self !! k1 = complex_id_by_gtfs self !! k2))
    rows {| complex_id_by_gtfs := ∅; complex_info := ∅; _stops := stops;
            stop_name_map := name_map_of stops |})
    as (self & Hself & HP).
  - simpl. split; [done|]. split; [|split].
    + intros k c. by rewrite lookup_empty.
    + intros k (g & (row & Hrow & _) & _). by apply elem_of_nil in Hrow.
    + intros k1 k2 _. by rewrite !lookup_empty.
  - intros done row self (Hn & H1 & H2 & H3) Hrow.
    destruct (load_row_spec self row) as (self' & -> & Hn' & Hk).
    exists self'. split; [done|]. split; [congruence|].
    assert (∀ g, registered (done ++ [row]) g ↔
                 registered done g ∨ g ∈ gtfs_list_of (row_gtfs_stop_ids row))
      as Hreg.
    { intros g. unfold registered. setoid_rewrite elem_of_app.
      setoid_rewrite list_elem_of_singleton. naive_solver. }
    split; [|split].
    + intros k c. rewrite Hk. case_bool_decide as Hex.
      * intros [= <-]. apply Exists_exists in Hex as (g & Hg & Hw).
        exists g. split; [|done]. exists row. set_solver.
      * intros Hc. destruct (H1 k c Hc) as (g & (r & Hr & Hrc & Hg) & Hw).
        exists g. split; [|done]. exists r. set_solver.
    + intros k (g & Hg & Hw). rewrite Hk. case_bool_decide as Hex; [done|].
      apply H2. exists g. split; [|done].
      apply Hreg in Hg as [Hg|Hg]; [done|].
      exfalso. apply Hex, Exists_exists. by exists g.
    + intros k1 k2 Hw. rewrite !Hk.
      assert (Exists (λ g, writes g k1) (gtfs_list_of (row_gtfs_stop_ids row))
              ↔ Exists (λ g, writes g k2) (gtfs_list_of (row_gtfs_stop_ids row)))
        as Hiff.
      { rewrite !Exists_exists.
        split; intros (g & Hg & Hwg); exists g; (split; [done|]);
          apply (Hw g); try done; apply Hreg; by right. }
      repeat case_bool_decide; try tauto.
      apply H3. intros g Hg. apply Hw, Hreg. by left.
  - exists self. by split.
Qed.

Lemma init_total (rows : list complex_row) (stops : list stop_row) :
  ∃ self, init rows stops = Ok self.
Proof. destruct (init_spec rows stops) as (self & H & _). by exists self. Qed.
End ComplexesFacts.

(** ** The resolver *)

Section ResolverFacts.
Import PyStr complexes.

Lemma append_snoc_neq (s : string) (c : ascii) :
  s ≠ s +:+ String c EmptyString.
Proof. induction s as [|a s IH]; simpl; [done|]. intros [= H]. by apply IH. Qed.

(** The three branches of the resolver, on a look-up table [self]. *)
Lemma resolve_branches (self : ComplexesData) :
  (∀ s c, complex_id_by_gtfs self !! s = Some c → c ≠ EmptyString →
          get_complex_id_by_gtfs_stop_id self s = Ok (Some c)) ∧
  (∀ stem ch, truthy_opt (complex_id_by_gtfs self
                            !! (stem +:+ String ch EmptyString)) = false →
              ch = "N"%char ∨ ch = "S"%char →
              get_complex_id_by_gtfs_stop_id self (stem +:+ String ch EmptyString)
              = Ok (complex_id_by_gtfs self !! stem)) ∧
  (∀ stem ch, truthy_opt (complex_id_by_gtfs self
                            !! (stem +:+ String ch EmptyString)) = false →
              ch ≠ "N"%char → ch ≠ "S"%char →
              get_complex_id_by_gtfs_stop_id self (stem +:+ String ch EmptyString)
              = Ok (complex_id_by_gtfs self
                      !! ((stem +:+ String ch EmptyString) +:+ "N"))).
Proof.
  unfold get_complex_id_by_gtfs_stop_id. repeat split.
  - intros s c -> Hc. simpl. by apply truthy_true in Hc as ->.
  - intros stem ch -> HNS. rewrite index_last_snoc. simpl.
    apply in_NS_true in HNS as ->. by rewrite drop_last_snoc.
  - intros stem ch -> HN HS. rewrite index_last_snoc. simpl.
    destruct (in_NS ch) eqn:E; [|done].
    apply in_NS_true in E as [?|?]; done.
Qed.

(** C5: the resolver returns an exact match when there is one; failing
    that it looks the id up without its final N or S when it has one, and
    with an N appended when it has none.  Hence, on a registry where, of
    the three forms of an unsuffixed stop id, only the northbound one is
    registered, the three forms resolve to one complex id, that of a row
    listing the northbound form. *)
Theorem resolve_suffix_normalization
    (rows : list complex_row) (stops : list stop_row) (self : ComplexesData)
    (base : string) :
  init rows stops = Ok self →
  unsuffixed base →
  only_northbound_registered rows base →
  (∀ s c, complex_id_by_gtfs self !! s = Some c → c ≠ EmptyString →
          get_complex_id_by_gtfs_stop_id self s = Ok (Some c)) ∧
  (∀ stem ch, truthy_opt (complex_id_by_gtfs self
                            !! (stem +:+ String ch EmptyString)) = false →
              ch = "N"%char ∨ ch = "S"%char →
              get_complex_id_by_gtfs_stop_id self (stem +:+ String ch EmptyString)
              = Ok (complex_id_by_gtfs self !! stem)) ∧
  (∀ stem ch, truthy_opt (complex_id_by_gtfs self
                            !! (stem +:+ String ch EmptyString)) = false →
              ch ≠ "N"%char → ch ≠ "S"%char →
              get_complex_id_by_gtfs_stop_id self (stem +:+ String ch EmptyString)
              = Ok (complex_id_by_gtfs self
                      !! ((stem +:+ String ch EmptyString) +:+ "N"))) ∧
  ∃ c, registered_in rows (base +:+ "N") c ∧
       get_complex_id_by_gtfs_stop_id self base = Ok (Some c) ∧
       get_complex_id_by_gtfs_stop_id self (base +:+ "N") = Ok (Some c) ∧
       get_complex_id_by_gtfs_stop_id self (base +:+ "S") = Ok (Some c).
Proof.
  intros Hinit (stem & ch & Hbase & HchN & HchS) [Hreg Honly].
  destruct (resolve_branches self) as (Hexact & Hstrip & Happend).
  split; [exact Hexact|]. split; [exact Hstrip|]. split; [exact Happend|].
  destruct (init_spec rows stops) as (self' & Hinit' & _ & Hfrom & Hsome & Hsame).
  rewrite Hinit in Hinit'. injection Hinit' as <-.
  (* the three look-ups *)
  assert (¬ writes (base +:+ "N") (base +:+ "S")) as HNS.
  { intros [H|[H|H]].
    - apply snoc_inj in H as [_ H]. done.
    - apply snoc_inj in H as [H _]. by apply append_snoc_neq in H.
    - apply snoc_inj in H as [_ H]. done. }
  assert (complex_id_by_gtfs self !! (base +:+ "S") = None) as HS.
  { destruct (complex_id_by_gtfs self !! (base +:+ "S")) as [c|] eqn:E; [|done].
    destruct (Hfrom _ _ E) as (g & (row & Hrow & _ & Hg) & Hw). exfalso.
    destruct (decide (g = base +:+ "N")) as [->|Hne]; [done|].
    apply (Honly g (base +:+ "S")); [by exists row|done|set_solver|done]. }
  assert (complex_id_by_gtfs self !! base = complex_id_by_gtfs self !! (base +:+ "N"))
    as Heq.
  { apply Hsame. intros g Hg.
    destruct (decide (g = base +:+ "N")) as [->|Hne].
    - split; intros _; [by left|by right; left].
    - split; intros Hw; exfalso.
      + apply (Honly g base); [done|done|set_solver|done].
      + apply (Honly g (base +:+ "N")); [done|done|set_solver|done]. }
  destruct (Hsome (base +:+ "N")) as [c Hc].
  { exists (base +:+ "N"). split; [done|by left]. }
  exists c. split.
  { destruct (Hfrom _ _ Hc) as (g & Hg & Hw).
    destruct (decide (g = base +:+ "N")) as [->|Hne]; [done|].
    exfalso. destruct Hg as (row & Hrow & _ & Hg).
    apply (Honly g (base +:+ "N")); [by exists row|done|set_solver|done]. }
  rewrite Hc in Heq.
  destruct (decide (c = EmptyString)) as [->|Hcne].
  - (* an empty complex id is no match: every form takes its second look-up *)
    split; [|split].
    + rewrite Hbase. rewrite Happend; [|by rewrite <- Hbase, Heq|done|done].
      by rewrite <- Hbase, Hc.
    + rewrite Hstrip; [by rewrite Heq|by rewrite Hc|by left].
    + rewrite Hstrip; [by rewrite Heq|by rewrite HS|by right].
  - split; [by apply Hexact|]. split; [by apply Hexact|].
    rewrite Hstrip; [by rewrite Heq|by rewrite HS|by right].
Qed.

(** Witness of C5: the registry lists only A34N, under complex 611. *)
Lemma resolve_suffix_normalization_witness :
  ∃ self,
    init [{| row_complex_id := "611"; row_num_stations := 1;
             row_gtfs_stop_ids := "A34N" |}] [] = Ok self ∧
    ∃ c, get_complex_id_by_gtfs_stop_id self "A34" = Ok (Some c) ∧
         get_complex_id_by_gtfs_stop_id self "A34N" = Ok (Some c) ∧
         get_complex_id_by_gtfs_stop_id self "A34S" = Ok (Some c).
Proof.
  destruct (init_total [{| row_complex_id := "611"; row_num_stations := 1;
                           row_gtfs_stop_ids := "A34N" |}] []) as [self Hself].
  exists self. split; [exact Hself|].
  destruct (resolve_suffix_normalization _ _ self "A34" Hself)
    as (_ & _ & _ & c & _ & H).
  - exists "A3", "4"%char. by repeat split.
  - split.
    + eexists. split; [by apply list_elem_of_here|]. simpl.
      by apply list_elem_of_here.
    + intros g k (row & Hrow & Hg) Hne _ _.
      apply list_elem_of_singleton in Hrow as ->. simpl in Hg.
      vm_compute in Hg. by apply list_elem_of_singleton in Hg.
  - by exists c.
Defined.



End ResolverFacts.

(** ** Ordered dictionaries *)

Section ODictFacts.
Context {V : Type}.
Implicit Types (d : ODict.t V) (k : string) (v : V).

Lemma odict_get_set d k k' v :
  ODict.get (ODict.set d k v) k' = if String.eqb k k' then Some v else ODict.get d k'.
Proof.
  induction d as [|[k0 v0] d IH]; simpl.
  - done.
  - destruct (String.eqb_spec k0 k) as [->|Hne]; simpl.
    + by destruct (String.eqb_spec k k').
    + rewrite IH. destruct (String.eqb_spec k0 k') as [->|?]; [|done].
      by destruct (String.eqb_spec k k').
Qed.

Lemma odict_get_set_eq d k v : ODict.get (ODict.set d k v) k = Some v.
Proof. by rewrite odict_get_set, String.eqb_refl. Qed.

Lemma odict_get_set_ne d k k' v :
  k ≠ k' → ODict.get (ODict.set d k v) k' = ODict.get d k'.
Proof. intros. rewrite odict_get_set. by destruct (String.eqb_spec k k'). Qed.

Lemma odict_mem_keys d k : ODict.mem d k = true ↔ k ∈ ODict.keys d.
Proof.
  unfold ODict.mem, ODict.keys.
  induction d as [|[k0 v0] d IH]; simpl.
  - split; [done|]. by intros ?%elem_of_nil.
  - rewrite elem_of_cons. destruct (String.eqb_spec k0 k) as [->|Hne].
    + naive_solver.
    + rewrite IH. naive_solver.
Qed.

Lemma odict_get_None_keys d k : ODict.get d k = None ↔ k ∉ ODict.keys d.
Proof.
  rewrite <- odict_mem_keys. unfold ODict.mem.
  destruct (ODict.get d k); naive_solver.
Qed.

Lemma odict_get_Some_keys d k v : ODict.get d k = Some v → k ∈ ODict.keys d.
Proof. intros H. apply odict_mem_keys. unfold ODict.mem. by rewrite H. Qed.

Lemma odict_keys_set d k v :
  ODict.keys (ODict.set d k v)
  = if ODict.mem d k then ODict.keys d else ODict.keys d ++ [k].
Proof.
  unfold ODict.mem, ODict.keys.
  induction d as [|[k0 v0] d IH]; simpl; [done|].
  destruct (String.eqb_spec k0 k) as [->|Hne]; simpl; [done|].
  rewrite IH. by destruct (ODict.get d k).
Qed.

Lemma odict_get_in d k v : ODict.get d k = Some v → (k, v) ∈ d.
Proof.
  induction d as [|[k0 v0] d IH]; simpl; [done|].
  destruct (String.eqb_spec k0 k) as [->|Hne].
  - intros [= ->]. apply list_elem_of_here.
  - intros H. apply list_elem_of_further. by apply IH.
Qed.

Lemma odict_get_map_values {W : Type} (f : V → W) d k :
  ODict.get (ODict.map_values f d) k = f <$> ODict.get d k.
Proof.
  induction d as [|[k0 v0] d IH]; simpl; [done|].
  by destruct (String.eqb k0 k).
Qed.

Lemma odict_keys_map_values {W : Type} (f : V → W) d :
  ODict.keys (ODict.map_values f d) = ODict.keys d.
Proof. unfold ODict.keys, ODict.map_values. by rewrite map_map. Qed.

End ODictFacts.

(** ** Graph updates *)

Section NxFacts.
Implicit Types (g : nx.graph) (u v a b n : string) (l : list string).

Lemma has_node_get g n :
  nx.has_node g n = true ↔ is_Some (ODict.get (nx.entries g) n).
Proof.
  unfold nx.has_node, ODict.mem.
  destruct (ODict.get (nx.entries g) n); split; done.
Qed.

Lemma edge_lines_has_node g u v l :
  nx.edge_lines g u v = Some l → nx.has_node g u = true.
Proof.
  unfold nx.edge_lines. intros H. apply has_node_get.
  destruct (ODict.get (nx.entries g) u); [by eexists|done].
Qed.

Lemma ensure_node_directed g n : nx.directed (nx.ensure_node g n) = nx.directed g.
Proof. unfold nx.ensure_node. by destruct (nx.has_node g n). Qed.

Lemma ensure_node_has_node g n m :
  nx.has_node (nx.ensure_node g n) m = nx.has_node g m || String.eqb n m.
Proof.
  unfold nx.ensure_node. destruct (nx.has_node g n) eqn:E.
  - destruct (String.eqb_spec n m) as [<-|?]; [by rewrite E|by rewrite orb_false_r].
  - unfold nx.has_node, ODict.mem. simpl. rewrite odict_get_set.
    destruct (String.eqb n m); [by rewrite orb_true_r|by rewrite orb_false_r].
Qed.

Lemma ensure_node_edge_lines g n a b :
  nx.edge_lines (nx.ensure_node g n) a b = nx.edge_lines g a b.
Proof.
  unfold nx.ensure_node. destruct (nx.has_node g n) eqn:E; [done|].
  unfold nx.edge_lines. simpl. rewrite odict_get_set.
  destruct (String.eqb_spec n a) as [<-|?]; [|done]. simpl.
  unfold nx.has_node, ODict.mem in E.
  by destruct (ODict.get (nx.entries g) n).
Qed.

Lemma add_node_directed g n x : nx.directed (nx.add_node g n x) = nx.directed g.
Proof. done. Qed.

Lemma add_node_edge_lines g n x a b :
  nx.edge_lines (nx.add_node g n x) a b = nx.edge_lines g a b.
Proof.
  unfold nx.add_node, nx.edge_lines. simpl. rewrite odict_get_set.
  destruct (String.eqb_spec n a) as [<-|?]; [|done]. simpl.
  by destruct (ODict.get (nx.entries g) n).
Qed.

Lemma set_adj_directed g u v l : nx.directed (nx.set_adj g u v l) = nx.directed g.
Proof. unfold nx.set_adj. by destruct (ODict.get (nx.entries g) u). Qed.

Lemma set_adj_has_node g u v l n :
  nx.has_node (nx.set_adj g u v l) n = nx.has_node g n.
Proof.
  unfold nx.set_adj. destruct (ODict.get (nx.entries g) u) eqn:E; [|done].
  unfold nx.has_node, ODict.mem. simpl. rewrite odict_get_set.
  destruct (String.eqb_spec u n) as [<-|?]; [by rewrite E|done].
Qed.

Lemma set_adj_edge_lines g u v l a b :
  nx.has_node g u = true →
  nx.edge_lines (nx.set_adj g u v l) a b
  = if bool_decide (a = u ∧ b = v) then Some l else nx.edge_lines g a b.
Proof.
  intros [e He]%has_node_get. unfold nx.set_adj, nx.edge_lines. rewrite He.
  simpl. rewrite odict_get_set.
  destruct (String.eqb_spec u a) as [<-|Hne]; simpl.
  - rewrite He. simpl. rewrite odict_get_set.
    destruct (String.eqb_spec v b) as [<-|Hne]; case_bool_decide; naive_solver.
  - case_bool_decide; naive_solver.
Qed.

Lemma set_lines_directed g u v l : nx.directed (nx.set_lines g u v l) = nx.directed g.
Proof.
  unfold nx.set_lines. rewrite set_adj_directed.
  destruct (nx.directed g) eqn:E; by rewrite ?set_adj_directed.
Qed.

Lemma set_lines_has_node g u v l n :
  nx.has_node (nx.set_lines g u v l) n = nx.has_node g n.
Proof.
  unfold nx.set_lines. rewrite set_adj_directed.
  destruct (nx.directed g); by rewrite ?set_adj_has_node.
Qed.

Lemma set_lines_edge_lines g u v l a b :
  nx.has_node g u = true → (nx.directed g = false → nx.has_node g v = true) →
  nx.edge_lines (nx.set_lines g u v l) a b
  = if bool_decide (same_edge (nx.directed g) u v a b) then Some l
    else nx.edge_lines g a b.
Proof.
  intros Hu Hv. unfold nx.set_lines, same_edge. rewrite set_adj_directed.
  destruct (nx.directed g).
  - rewrite set_adj_edge_lines by done.
    repeat case_bool_decide; naive_solver.
  - rewrite set_adj_edge_lines by (rewrite set_adj_has_node; by apply Hv).
    rewrite set_adj_edge_lines by done.
    repeat case_bool_decide; naive_solver.
Qed.

Lemma add_edge_directed g u v l : nx.directed (nx.add_edge g u v l) = nx.directed g.
Proof. unfold nx.add_edge. by rewrite set_lines_directed, !ensure_node_directed. Qed.

Lemma add_edge_has_node g u v l n :
  nx.has_node (nx.add_edge g u v l) n
  = nx.has_node g n || String.eqb u n || String.eqb v n.
Proof.
  unfold nx.add_edge. by rewrite set_lines_has_node, !ensure_node_has_node.
Qed.

Lemma add_edge_edge_lines g u v l a b :
  nx.edge_lines (nx.add_edge g u v l) a b
  = if bool_decide (same_edge (nx.directed g) u v a b) then Some l
    else nx.edge_lines g a b.
Proof.
  unfold nx.add_edge. rewrite set_lines_edge_lines.
  - by rewrite !ensure_node_directed, !ensure_node_edge_lines.
  - rewrite !ensure_node_has_node, String.eqb_refl. by rewrite orb_true_r.
  - intros _. rewrite !ensure_node_has_node, String.eqb_refl. by rewrite orb_true_r.
Qed.

Lemma map_lines_edge_lines (f : list string → list string) g a b :
  nx.edge_lines (nx.map_lines f g) a b = f <$> nx.edge_lines g a b.
Proof.
  unfold nx.map_lines, nx.edge_lines. simpl. rewrite odict_get_map_values.
  destruct (ODict.get (nx.entries g) a) as [e|]; simpl; [|done].
  by rewrite odict_get_map_values.
Qed.

Lemma map_lines_has_node (f : list string → list string) g n :
  nx.has_node (nx.map_lines f g) n = nx.has_node g n.
Proof.
  unfold nx.has_node, ODict.mem, nx.map_lines. simpl.
  rewrite odict_get_map_values. by destruct (ODict.get (nx.entries g) n).
Qed.

Lemma map_lines_neighbors (f : list string → list string) g u :
  nx.neighbors (nx.map_lines f g) u = nx.neighbors g u.
Proof.
  unfold nx.neighbors, nx.map_lines. simpl. rewrite odict_get_map_values.
  destruct (ODict.get (nx.entries g) u); simpl; [|done].
  by rewrite odict_keys_map_values.
Qed.

End NxFacts.

(** ** Sorting keeps the elements *)

Lemma elem_of_insert_sorted (x y : string) (l : list string) :
  y ∈ PyStr.insert_sorted x l ↔ y = x ∨ y ∈ l.
Proof.
  induction l as [|z l IH]; simpl.
  - rewrite list_elem_of_singleton, elem_of_nil. naive_solver.
  - destruct (x <? z)%string; rewrite !elem_of_cons, ?IH; naive_solver.
Qed.

Lemma elem_of_sorted (y : string) (l : list string) :
  y ∈ PyStr.sorted l ↔ y ∈ l.
Proof.
  unfold PyStr.sorted. rewrite <- (elem_of_reverse y l).
  induction (reverse l) as [|x l' IH]; simpl; [done|].
  rewrite elem_of_insert_sorted, IH, elem_of_cons. done.
Qed.

(** ** One edge step *)

Section EdgeStep.
Implicit Types (g : nx.graph) (u v a b r route : string).

Lemma same_edge_swap (d : bool) u v a b :
  d = false → same_edge d u v a b ↔ same_edge d u v b a.
Proof. unfold same_edge. naive_solver. Qed.

(** The step adds [route] to the edge it names, and to nothing else. *)
Lemma add_or_update_edge_spec route g u v :
  edge_invariant g →
  nx.directed (add_or_update_edge route g u v) = nx.directed g ∧
  edge_invariant (add_or_update_edge route g u v) ∧
  ∀ a b r, lines_on (add_or_update_edge route g u v) a b r
           ↔ lines_on g a b r ∨ (r = route ∧ same_edge (nx.directed g) u v a b).
Proof.
  intros [Hsym Hne]. unfold add_or_update_edge, edge_invariant.
  assert (∀ a b, same_edge (nx.directed g) u v a b →
                 nx.edge_lines g a b = nx.edge_lines g u v) as Hse.
  { intros a b [[-> ->]|(Hd & -> & ->)]; [done|]. by apply Hsym. }
  destruct (nx.edge_lines g u v) as [l|] eqn:E.
  - case_bool_decide as Hin.
    + split; [done|]. split; [done|]. intros a b r. split; [by left|].
      intros [H|[-> H]]; [done|]. exists l. by rewrite (Hse a b H).
    + assert (nx.has_node g u = true) as Hu by by eapply edge_lines_has_node.
      assert (nx.directed g = false → nx.has_node g v = true) as Hv.
      { intros Hd. apply (edge_lines_has_node g v u l). by rewrite <- (Hsym Hd u v). }
      split; [by rewrite set_lines_directed|]. split; [split|].
      * intros Hd a b. rewrite set_lines_directed in Hd.
        rewrite !set_lines_edge_lines by done.
        pose proof (same_edge_swap _ u v a b Hd).
        repeat case_bool_decide; try tauto. by apply Hsym.
      * intros a b l'. rewrite set_lines_edge_lines by done.
        case_bool_decide; [|by apply Hne]. intros [= <-]. by destruct l.
      * intros a b r. unfold lines_on. rewrite set_lines_edge_lines by done.
        case_bool_decide as Hab.
        -- rewrite (Hse a b Hab). split.
           ++ intros (l' & [= <-] & [Hr|Hr]%elem_of_app); [left; by exists l|].
              apply list_elem_of_singleton in Hr. by right.
           ++ intros [(l' & [= <-] & Hr)|[-> _]]; eexists; (split; [done|]);
                set_solver.
        -- naive_solver.
  - split; [by rewrite add_edge_directed|]. split; [split|].
    + intros Hd a b. rewrite add_edge_directed in Hd.
      rewrite !add_edge_edge_lines.
      pose proof (same_edge_swap _ u v a b Hd).
      repeat case_bool_decide; try tauto. by apply Hsym.
    + intros a b l'. rewrite add_edge_edge_lines.
      case_bool_decide; [|by apply Hne]. by intros [= <-].
    + intros a b r. unfold lines_on. rewrite add_edge_edge_lines.
      case_bool_decide as Hab.
      * rewrite (Hse a b Hab). split.
        -- intros (l' & [= <-] & Hr). apply list_elem_of_singleton in Hr. by right.
        -- intros [(l' & ? & _)|[-> _]]; [done|]. exists [route].
           split; [done|]. by apply list_elem_of_singleton.
      * naive_solver.
Qed.

(** A loop of steps that each add lines as [R] says adds the union. *)
Lemma foldl_lines_on {X : Type} (dflag : bool) (f : nx.graph → X → nx.graph)
    (R : X → string → string → string → Prop) (xs : list X) g :
  (∀ g x, x ∈ xs → edge_invariant g → nx.directed g = dflag →
          nx.directed (f g x) = dflag ∧ edge_invariant (f g x) ∧
          ∀ a b r, lines_on (f g x) a b r ↔ lines_on g a b r ∨ R x a b r) →
  edge_invariant g → nx.directed g = dflag →
  nx.directed (foldl f g xs) = dflag ∧ edge_invariant (foldl f g xs) ∧
  ∀ a b r, lines_on (foldl f g xs) a b r
           ↔ lines_on g a b r ∨ ∃ x, x ∈ xs ∧ R x a b r.
Proof.
  revert g. induction xs as [|x xs IH]; intros g Hstep Hsym Hd; simpl.
  - split; [done|]. split; [done|]. intros a b r. split; [by left|].
    intros [H|(x & Hx & _)]; [done|]. by apply elem_of_nil in Hx.
  - destruct (Hstep g x) as (Hd1 & Hsym1 & H1); [by left|done|done|].
    destruct (IH (f g x)) as (Hd2 & Hsym2 & H2); [|done|done|].
    { intros g' x' Hx'. apply Hstep. by right. }
    split; [done|]. split; [done|]. intros a b r.
    rewrite H2, H1. setoid_rewrite elem_of_cons. naive_solver.
Qed.

Lemma add_nodes_edge_lines (cx : complexes.ComplexesData) g (ids : list string) a b :
  nx.edge_lines (add_nodes cx g ids) a b = nx.edge_lines g a b.
Proof.
  unfold add_nodes. revert g. induction ids as [|c ids IH]; intros g; simpl; [done|].
  rewrite IH. destruct (nx.has_node g c); [done|apply add_node_edge_lines].
Qed.

Lemma add_nodes_directed (cx : complexes.ComplexesData) g (ids : list string) :
  nx.directed (add_nodes cx g ids) = nx.directed g.
Proof.
  unfold add_nodes. revert g. induction ids as [|c ids IH]; intros g; simpl; [done|].
  rewrite IH. by destruct (nx.has_node g c).
Qed.

Lemma add_nodes_edge_invariant (cx : complexes.ComplexesData) g (ids : list string) :
  edge_invariant g → edge_invariant (add_nodes cx g ids).
Proof.
  intros [Hsym Hne]. split.
  - intros Hd a b. rewrite add_nodes_directed in Hd.
    rewrite !add_nodes_edge_lines. by apply Hsym.
  - intros a b l. rewrite add_nodes_edge_lines. apply Hne.
Qed.

Lemma add_nodes_lines_on (cx : complexes.ComplexesData) g (ids : list string) a b r :
  lines_on (add_nodes cx g ids) a b r ↔ lines_on g a b r.
Proof. unfold lines_on. by rewrite add_nodes_edge_lines. Qed.

End EdgeStep.

(** ** The edges of one route *)

Section RouteEdges.
Implicit Types (g : nx.graph) (a b r route : string) (ids : list string).

Lemma lookup_total_Some ids (i : nat) a :
  (i < length ids)%nat → (ids !!! i = a ↔ ids !! i = Some a).
Proof.
  intros Hi. destruct (lookup_lt_is_Some_2 ids i Hi) as [x Hx].
  rewrite (list_lookup_total_correct ids i x Hx), Hx. naive_solver.
Qed.

(** All-pairs-forward: [route] is added from every position to every later
    one. *)
Lemma subway_add_edges_spec route g ids :
  edge_invariant g →
  nx.directed (SubwayGraph.add_edges route g ids) = nx.directed g ∧
  edge_invariant (SubwayGraph.add_edges route g ids) ∧
  ∀ a b r, lines_on (SubwayGraph.add_edges route g ids) a b r
           ↔ lines_on g a b r
             ∨ (r = route ∧ ∃ i j, (i < j < length ids)%nat ∧
                  same_edge (nx.directed g) (ids !!! i) (ids !!! j) a b).
Proof.
  intros Hsym. unfold SubwayGraph.add_edges.
  destruct (foldl_lines_on (nx.directed g)
    (λ g i, foldl (λ g j, add_or_update_edge route g (ids !!! i) (ids !!! j)) g
                  (seq (i + 1) (length ids - (i + 1))))
    (λ i a b r, r = route ∧ ∃ j, (i < j < length ids)%nat ∧
                  same_edge (nx.directed g) (ids !!! i) (ids !!! j) a b)
    (seq 0 (length ids)) g) as (Hd & Hs & H); [|done|done|].
  - intros g1 i Hi Hsym1 Hd1.
    destruct (foldl_lines_on (nx.directed g)
      (λ g j, add_or_update_edge route g (ids !!! i) (ids !!! j))
      (λ j a b r, r = route ∧
                  same_edge (nx.directed g) (ids !!! i) (ids !!! j) a b)
      (seq (i + 1) (length ids - (i + 1))) g1) as (Hd2 & Hs2 & H2); [|done|done|].
    + intros g2 j Hj Hsym2 Hd2.
      destruct (add_or_update_edge_spec route g2 (ids !!! i) (ids !!! j) Hsym2)
        as (Hd3 & Hs3 & H3).
      split; [congruence|]. split; [done|]. intros a b r.
      rewrite H3, Hd2. done.
    + split; [done|]. split; [done|]. intros a b r. rewrite H2.
      setoid_rewrite elem_of_seq. apply elem_of_seq in Hi.
      split; (intros [?|Hr]; [by left|right]).
      * destruct Hr as (j & Hj & -> & Hse). split; [done|]. exists j.
        split; [lia|done].
      * destruct Hr as (-> & j & Hj & Hse). exists j. split; [lia|done].
  - split; [done|]. split; [done|]. intros a b r. rewrite H.
    setoid_rewrite elem_of_seq.
    split; (intros [?|Hr]; [by left|right]).
    + destruct Hr as (i & Hi & -> & j & Hj & Hse). split; [done|]. by exists i, j.
    + destruct Hr as (-> & i & j & Hij & Hse). exists i. split; [lia|].
      split; [done|]. by exists j.
Qed.

(** Adjacency: [route] is added between every position and the next. *)
Lemma complex_add_edges_spec route g ids :
  edge_invariant g →
  nx.directed (MTAComplexGraph.add_edges route g ids) = nx.directed g ∧
  edge_invariant (MTAComplexGraph.add_edges route g ids) ∧
  ∀ a b r, lines_on (MTAComplexGraph.add_edges route g ids) a b r
           ↔ lines_on g a b r
             ∨ (r = route ∧ ∃ i, (S i < length ids)%nat ∧
                  same_edge (nx.directed g) (ids !!! i) (ids !!! S i) a b).
Proof.
  intros Hsym. unfold MTAComplexGraph.add_edges.
  destruct (foldl_lines_on (nx.directed g)
    (λ g i, add_or_update_edge route g (ids !!! i) (ids !!! (i + 1)%nat))
    (λ i a b r, r = route ∧
                same_edge (nx.directed g) (ids !!! i) (ids !!! S i) a b)
    (seq 0 (length ids - 1)) g) as (Hd & Hs & H); [|done|done|].
  - intros g1 i Hi Hsym1 Hd1.
    destruct (add_or_update_edge_spec route g1 (ids !!! i) (ids !!! (i + 1)%nat) Hsym1)
      as (Hd3 & Hs3 & H3).
    split; [congruence|]. split; [done|]. intros a b r.
    rewrite H3, Hd1. by replace (i + 1)%nat with (S i) by lia.
  - split; [done|]. split; [done|]. intros a b r. rewrite H.
    setoid_rewrite elem_of_seq.
    split; (intros [?|Hr]; [by left|right]).
    + destruct Hr as (i & Hi & -> & Hse). split; [done|]. exists i.
      split; [lia|done].
    + destruct Hr as (-> & i & Hi & Hse). exists i. split; [lia|]. by split.
Qed.

Lemma same_edge_before ids a b :
  (∃ i j, (i < j < length ids)%nat ∧ same_edge true (ids !!! i) (ids !!! j) a b)
  ↔ before ids a b.
Proof.
  unfold before, same_edge. split.
  - intros (i & j & Hij & [[Ha Hb]|[? _]]); [|done]. exists i, j.
    split; [lia|]. split; apply lookup_total_Some; (lia || done).
  - intros (i & j & Hij & Ha & Hb).
    pose proof (lookup_lt_Some _ _ _ Ha). pose proof (lookup_lt_Some _ _ _ Hb).
    exists i, j. split; [lia|]. left.
    split; symmetry; apply lookup_total_Some; (lia || done).
Qed.

Lemma same_edge_consecutive ids a b :
  (∃ i, (S i < length ids)%nat ∧ same_edge false (ids !!! i) (ids !!! S i) a b)
  ↔ consecutive ids a b ∨ consecutive ids b a.
Proof.
  unfold consecutive, same_edge. split.
  - intros (i & Hi & [[Ha Hb]|(_ & Ha & Hb)]); [left|right]; exists i;
      split; apply lookup_total_Some; (lia || done).
  - intros [(i & Ha & Hb)|(i & Hb & Ha)];
      pose proof (lookup_lt_Some _ _ _ Ha); pose proof (lookup_lt_Some _ _ _ Hb);
      exists i; (split; [lia|]); [left|right; split; [done|]];
      split; symmetry; apply lookup_total_Some; (lia || done).
Qed.

End RouteEdges.

(** ** The build loop *)

Section BuildLoop.
Implicit Types (g : nx.graph) (a b r route : string) (cls : cls_state).

Lemma for_routes_lines_on (dflag : bool)
    (body : nx.graph → string → Z → result nx.graph)
    (R : string → Z → string → string → string → Prop)
    (routes : list string) g :
  (∀ g route direction, edge_invariant g → nx.directed g = dflag →
     match body g route direction with
     | Ok g' => nx.directed g' = dflag ∧ edge_invariant g' ∧
                ∀ a b r, lines_on g' a b r
                         ↔ lines_on g a b r ∨ R route direction a b r
     | Raise _ => ∀ a b r, ¬ R route direction a b r
     end) →
  edge_invariant g → nx.directed g = dflag →
  nx.directed (for_routes body routes g) = dflag ∧
  edge_invariant (for_routes body routes g) ∧
  ∀ a b r, lines_on (for_routes body routes g) a b r
           ↔ lines_on g a b r
             ∨ ∃ route direction, route ∈ routes ∧ direction ∈ [0; 1]
                                  ∧ R route direction a b r.
Proof.
  intros Hbody Hsym Hd. unfold for_routes.
  destruct (foldl_lines_on dflag
    (λ g route, foldl (λ g direction,
                         match body g route direction with
                         | Ok g' => g'
                         | Raise _ => g
                         end) g [0; 1])
    (λ route a b r, ∃ direction, direction ∈ [0; 1] ∧ R route direction a b r)
    routes g) as (Hd1 & Hs1 & H1); [|done|done|].
  - intros g1 route _ Hsym1 Hd1.
    apply (foldl_lines_on dflag
      (λ g direction, match body g route direction with
                      | Ok g' => g'
                      | Raise _ => g
                      end)
      (λ direction a b r, R route direction a b r)); [|done|done].
    intros g2 direction _ Hsym2 Hd2.
    specialize (Hbody g2 route direction Hsym2 Hd2).
    destruct (body g2 route direction) as [g3|e]; [done|].
    split; [done|]. split; [done|]. intros a b r. split; [by left|].
    intros [?|HR]; [done|]. by apply Hbody in HR.
  - split; [done|]. split; [done|]. intros a b r. rewrite H1. naive_solver.
Qed.

Lemma subway_process_spec cls g route direction :
  match SubwayGraph.complex_ids_of cls route direction with
  | Ok ids => ∃ cx, SubwayGraph.process cls g route direction
                    = Ok (SubwayGraph.add_edges route (add_nodes cx g ids) ids)
  | Raise e => SubwayGraph.process cls g route direction = Raise e
  end.
Proof.
  unfold SubwayGraph.complex_ids_of, SubwayGraph.process.
  destruct (SubwayGraph.ordered_stops cls route direction) as [stops|e]; [|done].
  simpl. destruct (_complexes cls) as [cx|]; [|done]. simpl.
  destruct (to_complex_ids cx stops) as [ids|e]; [|done]. simpl. by exists cx.
Qed.

Lemma complex_process_spec cls g route direction :
  match MTAComplexGraph.complex_ids_of cls route direction with
  | Ok ids => ∃ cx, MTAComplexGraph.process cls g route direction
                    = Ok (MTAComplexGraph.add_edges route (add_nodes cx g ids) ids)
  | Raise e => MTAComplexGraph.process cls g route direction = Raise e
  end.
Proof.
  unfold MTAComplexGraph.complex_ids_of, MTAComplexGraph.process.
  destruct (MTAComplexGraph.ordered_stops cls route direction) as [stops|e]; [|done].
  simpl. destruct (_complexes cls) as [cx|]; [|done]. simpl.
  destruct (to_complex_ids cx stops) as [ids|e]; [|done]. simpl. by exists cx.
Qed.

Lemma load_total (src : sources) cls :
  ∃ cx, load src cls
        = Ok {| G := G cls; _stops := Some (stops_txt src);
                _trips := Some (trips_txt src);
                _stop_times := Some (stop_times_txt src);
                _complexes := Some cx |}.
Proof.
  unfold load.
  destruct (init_total (complexes_csv src) (complexes_stops_txt src)) as [cx ->].
  by exists cx.
Qed.

Lemma edge_invariant_Graph : edge_invariant nx.Graph.
Proof. split; [by intros _ a b|by intros a b l]. Qed.

Lemma edge_invariant_DiGraph : edge_invariant nx.DiGraph.
Proof. split; [by intros ?|by intros a b l]. Qed.

Lemma lines_on_empty (d : bool) a b r :
  ¬ lines_on {| nx.directed := d; nx.entries := [] |} a b r.
Proof. by intros (l & ? & _). Qed.

Lemma lines_on_sorted g a b r :
  lines_on (nx.map_lines PyStr.sorted g) a b r ↔ lines_on g a b r.
Proof.
  unfold lines_on. rewrite map_lines_edge_lines.
  destruct (nx.edge_lines g a b) as [l|]; simpl; [|naive_solver].
  split; intros (l' & [= <-] & Hr); eexists; (split; [done|]);
    by apply elem_of_sorted.
Qed.

Lemma default_lines_on g a b r :
  r ∈ default [] (nx.edge_lines g a b) ↔ lines_on g a b r.
Proof.
  unfold lines_on. destruct (nx.edge_lines g a b) as [l|]; simpl.
  - naive_solver.
  - split; [by intros ?%elem_of_nil|naive_solver].
Qed.

Lemma has_edge_lines_on g a b :
  lines_nonempty g → (nx.has_edge g a b = true ↔ ∃ r, lines_on g a b r).
Proof.
  intros Hne. unfold nx.has_edge, lines_on.
  destruct (nx.edge_lines g a b) as [l|] eqn:E; [|naive_solver].
  split; [intros _|done]. destruct l as [|r l]; [by apply Hne in E|].
  exists r, (r :: l). split; [done|]. apply list_elem_of_here.
Qed.

Lemma has_edge_map_lines (f : list string → list string) g a b :
  nx.has_edge (nx.map_lines f g) a b = nx.has_edge g a b.
Proof.
  unfold nx.has_edge. rewrite map_lines_edge_lines.
  by destruct (nx.edge_lines g a b).
Qed.

(** The lines of the directed graph that [SubwayGraph.build_graph] leaves
    in [cls.G]. *)
Lemma subway_build_lines (src : sources) cls0 :
  ∃ cls g, SubwayGraph.build_graph src cls0 = Ok cls ∧ G cls = Some g ∧
    nx.directed g = true ∧
    (∀ a b, nx.has_edge g a b = true ↔ ∃ r, lines_on g a b r) ∧
    ∀ a b r, lines_on g a b r
             ↔ ∃ direction ids, in_build_loop src r direction ∧
                 SubwayGraph.complex_ids_of cls r direction = Ok ids ∧
                 before ids a b.
Proof.
  unfold SubwayGraph.build_graph.
  destruct (load_total src cls0) as [cx ->]. simpl.
  set (cls1 := {| G := G cls0; _stops := Some (stops_txt src);
                  _trips := Some (trips_txt src);
                  _stop_times := Some (stop_times_txt src);
                  _complexes := Some cx |}).
  set (routes := gtfs.unique (map gtfs.route_id (trips_txt src))).
  eexists _, _. split; [done|]. split; [done|].
  destruct (for_routes_lines_on true (SubwayGraph.process cls1)
    (λ route direction a b r,
       r = route ∧ ∃ ids, SubwayGraph.complex_ids_of cls1 route direction = Ok ids
                          ∧ before ids a b)
    routes nx.DiGraph) as (Hd & [_ Hne] & H); [|apply edge_invariant_DiGraph|done|].
  - intros g route direction Hsym Hdg.
    pose proof (subway_process_spec cls1 g route direction) as Hp.
    destruct (SubwayGraph.complex_ids_of cls1 route direction) as [ids|e].
    + destruct Hp as [cx' ->].
      destruct (subway_add_edges_spec route (add_nodes cx' g ids) ids)
        as (Hd1 & Hs1 & H1); [by apply add_nodes_edge_invariant|].
      rewrite add_nodes_directed in Hd1, H1.
      split; [congruence|]. split; [done|]. intros a b r.
      rewrite H1, add_nodes_lines_on, Hdg, same_edge_before. naive_solver.
    + rewrite Hp. intros a b r (_ & ids & ? & _). done.
  - split; [done|]. split.
    { intros a b. rewrite has_edge_map_lines, (has_edge_lines_on _ a b Hne).
      by setoid_rewrite lines_on_sorted. }
    intros a b r. rewrite lines_on_sorted, H.
    unfold in_build_loop. fold routes.
    change (SubwayGraph.complex_ids_of (set_G cls1 _) r)
      with (SubwayGraph.complex_ids_of cls1 r).
    split.
    + intros [Hl|(route & direction & Hr & Hdir & -> & ids & Hids & Hb)].
      * by apply lines_on_empty in Hl.
      * by exists direction, ids.
    + intros (direction & ids & [Hr Hdir] & Hids & Hb). right.
      exists r, direction. repeat split; try done. by exists ids.
Qed.

(** The lines of the undirected graph that [MTAComplexGraph.build_graph]
    leaves in [cls.G]; the complex ids are those of the class as it is
    when the loop runs, [cls.G] not yet assigned. *)
Lemma complex_build_lines (src : sources) cls0 :
  ∃ cls1 cls g, load src cls0 = Ok cls1 ∧
    MTAComplexGraph.build_graph src cls0 = Ok cls ∧ G cls = Some g ∧
    nx.directed g = false ∧
    (∀ a b, nx.has_edge g a b = true ↔ ∃ r, lines_on g a b r) ∧
    ∀ a b r, lines_on g a b r
             ↔ ∃ direction ids, in_build_loop src r direction ∧
                 MTAComplexGraph.complex_ids_of cls1 r direction = Ok ids ∧
                 (consecutive ids a b ∨ consecutive ids b a).
Proof.
  unfold MTAComplexGraph.build_graph.
  destruct (load_total src cls0) as [cx ->]. simpl.
  set (cls1 := {| G := G cls0; _stops := Some (stops_txt src);
                  _trips := Some (trips_txt src);
                  _stop_times := Some (stop_times_txt src);
                  _complexes := Some cx |}).
  set (routes := gtfs.unique (map gtfs.route_id (trips_txt src))).
  eexists _, _, _. split; [done|]. split; [done|]. split; [done|].
  destruct (for_routes_lines_on false (MTAComplexGraph.process cls1)
    (λ route direction a b r,
       r = route ∧ ∃ ids, MTAComplexGraph.complex_ids_of cls1 route direction = Ok ids
                          ∧ (consecutive ids a b ∨ consecutive ids b a))
    routes nx.Graph) as (Hd & [_ Hne] & H); [|apply edge_invariant_Graph|done|].
  - intros g route direction Hsym Hdg.
    pose proof (complex_process_spec cls1 g route direction) as Hp.
    destruct (MTAComplexGraph.complex_ids_of cls1 route direction) as [ids|e].
    + destruct Hp as [cx' ->].
      destruct (complex_add_edges_spec route (add_nodes cx' g ids) ids)
        as (Hd1 & Hs1 & H1); [by apply add_nodes_edge_invariant|].
      rewrite add_nodes_directed in Hd1, H1.
      split; [congruence|]. split; [done|]. intros a b r.
      rewrite H1, add_nodes_lines_on, Hdg, same_edge_consecutive. naive_solver.
    + rewrite Hp. intros a b r (_ & ids & ? & _). done.
  - split; [done|]. split.
    { intros a b. rewrite has_edge_map_lines, (has_edge_lines_on _ a b Hne).
      by setoid_rewrite lines_on_sorted. }
    intros a b r. rewrite lines_on_sorted, H.
    unfold in_build_loop. fold routes.
    split.
    + intros [Hl|(route & direction & Hr & Hdir & -> & ids & Hids & Hb)].
      * by apply lines_on_empty in Hl.
      * by exists direction, ids.
    + intros (direction & ids & [Hr Hdir] & Hids & Hb). right.
      exists r, direction. repeat split; try done. by exists ids.
Qed.

(** The lines of the graph a build leaves, by the sequences the build
    itself computes: a route is on the edge from [a] to [b] exactly when
    the complex ids computed for one of its processed directions have [a]
    before [b] (all-pairs-forward, directed, [SubwayGraph]) or [a] and [b]
    next to each other (adjacency, undirected, [MTAComplexGraph]). *)
Theorem line_membership (src : sources) (cls0 : cls_state) :
  (∃ cls, SubwayGraph.build_graph src cls0 = Ok cls ∧
     ∀ a b r,
       (∃ l, SubwayGraph.connecting_lines cls a b = Ok l ∧ r ∈ l)
       ↔ ∃ direction ids, in_build_loop src r direction ∧
           SubwayGraph.complex_ids_of cls r direction = Ok ids ∧
           before ids a b) ∧
  (∃ cls1 cls, load src cls0 = Ok cls1 ∧
     MTAComplexGraph.build_graph src cls0 = Ok cls ∧
     ∀ a b r,
       (∃ l, MTAComplexGraph.connecting_lines cls a b = Ok l ∧ r ∈ l)
       ↔ ∃ direction ids, in_build_loop src r direction ∧
           MTAComplexGraph.complex_ids_of cls1 r direction = Ok ids ∧
           (consecutive ids a b ∨ consecutive ids b a)).
Proof.
  split.
  - destruct (subway_build_lines src cls0) as (cls & g & Hb & Hg & _ & _ & H).
    exists cls. split; [done|]. intros a b r. rewrite <- H.
    unfold SubwayGraph.connecting_lines, SubwayGraph._assert_built.
    rewrite Hg. simpl. rewrite <- default_lines_on. naive_solver.
  - destruct (complex_build_lines src cls0) as (cls1 & cls & g & Hl & Hb & Hg & _ & _ & H).
    exists cls1, cls. split; [done|]. split; [done|]. intros a b r. rewrite <- H.
    unfold MTAComplexGraph.connecting_lines, MTAComplexGraph._assert_built.
    rewrite Hg. simpl. rewrite <- default_lines_on. naive_solver.
Qed.

End BuildLoop.

(** ** The sequence of complex ids of a route *)

Section Sequence.
Import complexes.
Implicit Types (cx : ComplexesData) (stops ids : list string) (cls : cls_state).

Lemma to_complex_ids_from cx stops acc ids :
  for_each (λ complex_ids stop,
              complex_id ← get_complex_id_by_gtfs_stop_id cx stop;
              match complex_id with
              | Some c => if PyStr.truthy c then Ok (complex_ids ++ [c])
                          else Ok complex_ids
              | None => Ok complex_ids
              end) stops acc = Ok ids →
  ∃ ids', ids = acc ++ ids' ∧ kept_resolved cx stops ids'.
Proof.
  revert acc. induction stops as [|stop stops IH]; intros acc; simpl.
  - intros [= <-]. exists []. split; [by rewrite app_nil_r|constructor].
  - destruct (get_complex_id_by_gtfs_stop_id cx stop) as [[c|]|e] eqn:E;
      simpl; [|intros H|done].
    + destruct (PyStr.truthy c) eqn:Hc; intros H.
      * destruct (IH _ H) as (ids' & -> & Hk). exists (c :: ids').
        split; [by rewrite <- app_assoc|].
        apply kept_keep; [done|by apply truthy_true|done].
      * destruct (IH _ H) as (ids' & -> & Hk). exists ids'. split; [done|].
        apply truthy_false in Hc as ->. apply kept_drop; [by right|done].
    + destruct (IH _ H) as (ids' & -> & Hk). exists ids'. split; [done|].
      apply kept_drop; [by left|done].
Qed.

Lemma to_complex_ids_spec cx stops ids :
  to_complex_ids cx stops = Ok ids → kept_resolved cx stops ids.
Proof.
  intros H. by destruct (to_complex_ids_from cx stops [] ids H) as (ids' & -> & Hk).
Qed.

Lemma subway_complex_ids_of_spec cls route direction ids :
  SubwayGraph.complex_ids_of cls route direction = Ok ids →
  ∃ stops cx, SubwayGraph.ordered_stops cls route direction = Ok stops ∧
              _complexes cls = Some cx ∧ kept_resolved cx stops ids.
Proof.
  unfold SubwayGraph.complex_ids_of.
  destruct (SubwayGraph.ordered_stops cls route direction) as [stops|]; [|done].
  simpl. destruct (_complexes cls) as [cx|]; [|done]. simpl. intros H.
  exists stops, cx. by split; [|split; [|apply to_complex_ids_spec]].
Qed.

Lemma complex_complex_ids_of_spec cls route direction ids :
  MTAComplexGraph.complex_ids_of cls route direction = Ok ids →
  ∃ stops cx, MTAComplexGraph.ordered_stops cls route direction = Ok stops ∧
              _complexes cls = Some cx ∧ kept_resolved cx stops ids.
Proof.
  unfold MTAComplexGraph.complex_ids_of.
  destruct (MTAComplexGraph.ordered_stops cls route direction) as [stops|]; [|done].
  simpl. destruct (_complexes cls) as [cx|]; [|done]. simpl. intros H.
  exists stops, cx. by split; [|split; [|apply to_complex_ids_spec]].
Qed.

Lemma first_occurrences_NoDup cx (gtfs_stops acc stops : list string) :
  NoDup acc →
  for_each (λ complex_ids stop,
              complex_id ← get_complex_id_by_gtfs_stop_id cx stop;
              match complex_id with
              | Some c =>
                  if PyStr.truthy c && negb (bool_decide (c ∈ complex_ids))
                  then Ok (complex_ids ++ [c])
                  else Ok complex_ids
              | None => Ok complex_ids
              end) gtfs_stops acc = Ok stops →
  NoDup stops.
Proof.
  revert acc. induction gtfs_stops as [|stop gtfs_stops IH]; intros acc Hacc; simpl.
  - by intros [= <-].
  - destruct (get_complex_id_by_gtfs_stop_id cx stop) as [[c|]|e]; simpl;
      [|by apply IH|done].
    destruct (PyStr.truthy c); simpl; [|by apply IH].
    case_bool_decide as Hin; simpl; [by apply IH|].
    apply IH. apply NoDup_app. split; [done|]. split; [|apply NoDup_singleton].
    intros x Hx ->%list_elem_of_singleton. done.
Qed.

(** [MTAComplexGraph.ordered_stops] keeps the first occurrence of a
    complex id only. *)
Lemma complex_ordered_stops_NoDup cls route direction stops :
  MTAComplexGraph.ordered_stops cls route direction = Ok stops → NoDup stops.
Proof.
  unfold MTAComplexGraph.ordered_stops.
  destruct (MTAComplexGraph._assert_built cls); [|done]. simpl.
  destruct (_trips cls) as [trips|]; [|done]. simpl.
  destruct (gtfs.iloc0 _) as [trip|]; [|done]. simpl.
  destruct (_stop_times cls) as [stop_times|]; [|done]. simpl.
  destruct (_complexes cls) as [cx|]; [|done]. simpl.
  apply first_occurrences_NoDup. constructor.
Qed.

(** C3 (the code departs from it): the sequence a build uses is not the
    one the specification asks for.  Route L of [two_platforms] calls at
    two platforms of complex 611 in a row: [SubwayGraph.build_graph] uses
    611, 611, 10 where the specification collapses to 611, 10, and gives
    complex 611 an edge to itself.  Route L of [there_and_back] visits X
    twice: [MTAComplexGraph.build_graph], once a graph is there, uses X, Y,
    Z, the second visit dropped, where the specification keeps X, Y, X, Z.
    And on [two_platforms], whose complex ids are no stop ids,
    [MTAComplexGraph.build_graph] resolves the complex ids of
    [ordered_stops] a second time and uses the empty sequence: its graph
    has no node. *)
Theorem consecutive_repeats_kept :
  (cls ← SubwayGraph.build_graph two_platforms cls_initial;
   stops ← SubwayGraph.ordered_stops cls "L" 0;
   ids ← SubwayGraph.complex_ids_of cls "L" 0;
   expected ← spec_sequence cls "L" 0;
   lines ← SubwayGraph.connecting_lines cls "611" "611";
   Ok (stops, ids, expected, lines))
  = Ok (["127"; "725"; "R16"], ["611"; "611"; "10"], ["611"; "10"], ["L"]) ∧
  (cls1 ← MTAComplexGraph.build_graph there_and_back cls_initial;
   cls ← MTAComplexGraph.build_graph there_and_back cls1;
   ids ← MTAComplexGraph.complex_ids_of cls1 "L" 0;
   expected ← spec_sequence cls1 "L" 0;
   Ok (ids, expected, nodes_of cls))
  = Ok (["X"; "Y"; "Z"], ["X"; "Y"; "X"; "Z"], Some ["X"; "Y"; "Z"]) ∧
  (cls1 ← MTAComplexGraph.build_graph two_platforms cls_initial;
   cls ← MTAComplexGraph.build_graph two_platforms cls1;
   stops ← MTAComplexGraph.ordered_stops cls1 "L" 0;
   ids ← MTAComplexGraph.complex_ids_of cls1 "L" 0;
   expected ← spec_sequence cls1 "L" 0;
   Ok (stops, ids, expected, nodes_of cls))
  = Ok (["611"; "10"], [], ["611"; "10"], Some []).
Proof. repeat split; vm_compute; reflexivity. Qed.

(** C6 (the code departs from it): a route is on an edge that its trip
    does not traverse.  In the graph [SubwayGraph.build_graph] makes of
    [two_platforms], route L is on the edge from 611 to 611, and 611 is not
    before 611 in the sequence 611, 10 of its only trip.  In the graph
    [MTAComplexGraph.build_graph] makes of [there_and_back], once a graph
    is there, route L is on the edge between Y and Z, which its only trip
    X, Y, X, Z never takes, and is not on the edge between X and Z, which
    it takes. *)
Theorem line_without_traversal :
  (∃ cls seq,
     SubwayGraph.build_graph two_platforms cls_initial = Ok cls ∧
     spec_sequence cls "L" 0 = Ok seq ∧
     SubwayGraph.connecting_lines cls "611" "611" = Ok ["L"] ∧
     ¬ before seq "611" "611") ∧
  (∃ cls1 cls seq,
     MTAComplexGraph.build_graph there_and_back cls_initial = Ok cls1 ∧
     MTAComplexGraph.build_graph there_and_back cls1 = Ok cls ∧
     spec_sequence cls "L" 0 = Ok seq ∧
     MTAComplexGraph.connecting_lines cls "Y" "Z" = Ok ["L"] ∧
     ¬ consecutive seq "Y" "Z" ∧ ¬ consecutive seq "Z" "Y" ∧
     MTAComplexGraph.connecting_lines cls "X" "Z" = Ok [] ∧
     consecutive seq "X" "Z").
Proof.
  split.
  - eexists _, _. split; [vm_compute; reflexivity|].
    split; [vm_compute; reflexivity|]. split; [vm_compute; reflexivity|].
    intros (i & j & Hij & Hi & Hj).
    destruct i as [|[|i]]; destruct j as [|[|j]]; cbn in Hi, Hj;
      try lia; discriminate.
  - eexists _, _, _. split; [vm_compute; reflexivity|].
    split; [vm_compute; reflexivity|]. split; [vm_compute; reflexivity|].
    split; [vm_compute; reflexivity|]. split; [|split; [|split]].
    + intros (i & Hi & Hj).
      destruct i as [|[|[|[|i]]]]; cbn in Hi, Hj; discriminate.
    + intros (i & Hi & Hj).
      destruct i as [|[|[|[|i]]]]; cbn in Hi, Hj; discriminate.
    + vm_compute. reflexivity.
    + exists 2%nat. split; reflexivity.
Qed.

(** What the builds compute instead: the sequence of complex ids a build
    uses for a route and direction is what [ordered_stops] returns for it
    with the stops that do not resolve dropped, in order, repeats
    included (the list [MTAComplexGraph.ordered_stops] returns has no
    repeat at all), and an edge joins a complex to itself exactly when the
    sequence of a processed route and direction has the complex twice
    ([SubwayGraph]) or twice in a row ([MTAComplexGraph]). *)
Theorem complex_id_sequence (src : sources) (cls0 : cls_state) :
  (∃ cls g, SubwayGraph.build_graph src cls0 = Ok cls ∧ G cls = Some g ∧
     (∀ route direction ids,
        SubwayGraph.complex_ids_of cls route direction = Ok ids →
        ∃ stops cx, SubwayGraph.ordered_stops cls route direction = Ok stops ∧
                    _complexes cls = Some cx ∧ kept_resolved cx stops ids) ∧
     (∀ c, nx.has_edge g c c = true
           ↔ ∃ route direction ids, in_build_loop src route direction ∧
               SubwayGraph.complex_ids_of cls route direction = Ok ids ∧
               before ids c c)) ∧
  (∃ cls1 cls g, load src cls0 = Ok cls1 ∧
     MTAComplexGraph.build_graph src cls0 = Ok cls ∧ G cls = Some g ∧
     (∀ route direction stops,
        MTAComplexGraph.ordered_stops cls1 route direction = Ok stops →
        NoDup stops) ∧
     (∀ route direction ids,
        MTAComplexGraph.complex_ids_of cls1 route direction = Ok ids →
        ∃ stops cx, MTAComplexGraph.ordered_stops cls1 route direction = Ok stops ∧
                    _complexes cls1 = Some cx ∧ kept_resolved cx stops ids) ∧
     (∀ c, nx.has_edge g c c = true
           ↔ ∃ route direction ids, in_build_loop src route direction ∧
               MTAComplexGraph.complex_ids_of cls1 route direction = Ok ids ∧
               consecutive ids c c)).
Proof.
  split.
  - destruct (subway_build_lines src cls0) as (cls & g & Hb & Hg & _ & He & H).
    exists cls, g. split; [done|]. split; [done|]. split.
    + intros route direction ids. apply subway_complex_ids_of_spec.
    + intros c. rewrite He. setoid_rewrite H. naive_solver.
  - destruct (complex_build_lines src cls0)
      as (cls1 & cls & g & Hl & Hb & Hg & _ & He & H).
    exists cls1, cls, g. split; [done|]. split; [done|]. split; [done|].
    split; [|split].
    + intros route direction stops. apply complex_ordered_stops_NoDup.
    + intros route direction ids. apply complex_complex_ids_of_spec.
    + intros c. rewrite He. setoid_rewrite H. naive_solver.
Qed.

End Sequence.

(** ** Every node of a built graph has a name *)

Section Named.
Implicit Types (g : nx.graph) (u v n route : string) (ids : list string).

Lemma foldl_invariant {X S : Type} (P : S → Prop) (f : S → X → S)
    (l : list X) (s : S) :
  (∀ s x, x ∈ l → P s → P (f s x)) → P s → P (foldl f s l).
Proof.
  revert s. induction l as [|x l IH]; intros s Hstep Hs; simpl; [done|].
  apply IH.
  - intros s' x' Hx'. apply Hstep. by right.
  - apply Hstep; [by left|done].
Qed.

Lemma forallb_odict_set {V : Type} (Q : V → bool) (d : ODict.t V) (k : string) (x : V) :
  forallb (λ kv, Q kv.2) d = true → Q x = true →
  forallb (λ kv, Q kv.2) (ODict.set d k x) = true.
Proof.
  intros Hd Hx. induction d as [|[k0 v0] d IH]; simpl in *.
  - by rewrite Hx.
  - apply andb_true_iff in Hd as [H0 Hd].
    destruct (String.eqb k0 k); simpl; [by rewrite Hx|].
    by rewrite H0, IH.
Qed.

Lemma all_named_get g n e :
  all_named g = true → ODict.get (nx.entries g) n = Some e →
  ∃ a, nx.attrs e = Some a.
Proof.
  unfold all_named. rewrite forallb_forall. intros Hall He.
  apply odict_get_in, list_elem_of_In in He. specialize (Hall _ He). simpl in Hall.
  destruct (nx.attrs e) as [a|]; [by exists a|done].
Qed.

Lemma all_named_add_node g n a :
  all_named g = true → all_named (nx.add_node g n a) = true.
Proof.
  intros Hg. unfold all_named, nx.add_node. simpl.
  apply (forallb_odict_set
           (λ e, match nx.attrs e with Some _ => true | None => false end)); [done|].
  by destruct (ODict.get (nx.entries g) n).
Qed.

Lemma all_named_set_adj g u v l :
  all_named g = true → all_named (nx.set_adj g u v l) = true.
Proof.
  intros Hg. unfold nx.set_adj.
  destruct (ODict.get (nx.entries g) u) as [e|] eqn:E; [|done].
  destruct (all_named_get g u e Hg E) as [a Ha].
  unfold all_named. simpl.
  apply (forallb_odict_set
           (λ e, match nx.attrs e with Some _ => true | None => false end)); [done|].
  simpl. by rewrite Ha.
Qed.

Lemma all_named_set_lines g u v l :
  all_named g = true → all_named (nx.set_lines g u v l) = true.
Proof.
  intros Hg. unfold nx.set_lines.
  destruct (nx.directed _); by repeat apply all_named_set_adj.
Qed.

Lemma ensure_node_present g n : nx.has_node g n = true → nx.ensure_node g n = g.
Proof. unfold nx.ensure_node. by intros ->. Qed.

(** An edge step between two nodes keeps the names, and the nodes. *)
Lemma add_or_update_edge_named route g u v :
  nx.has_node g u = true → nx.has_node g v = true →
  all_named g = true →
  all_named (add_or_update_edge route g u v) = true ∧
  ∀ n, nx.has_node g n = true →
       nx.has_node (add_or_update_edge route g u v) n = true.
Proof.
  intros Hu Hv Hg. unfold add_or_update_edge.
  destruct (nx.edge_lines g u v) as [l|].
  - case_bool_decide; [done|]. split; [by apply all_named_set_lines|].
    intros n. by rewrite set_lines_has_node.
  - unfold nx.add_edge. rewrite (ensure_node_present g u Hu).
    rewrite (ensure_node_present g v Hv). split; [by apply all_named_set_lines|].
    intros n. by rewrite set_lines_has_node.
Qed.

Lemma add_nodes_named (cx : complexes.ComplexesData) g ids :
  all_named g = true →
  all_named (add_nodes cx g ids) = true ∧
  ∀ c, c ∈ ids → nx.has_node (add_nodes cx g ids) c = true.
Proof.
  intros Hg. unfold add_nodes.
  cut (∀ done rest g0, done ++ rest = ids →
         all_named g0 = true ∧ (∀ c, c ∈ done → nx.has_node g0 c = true) →
         let g1 := foldl (λ g complex_id,
                     if nx.has_node g complex_id then g
                     else nx.add_node g complex_id
                            {| nx.stop_name := complexes.get_station_name cx complex_id;
                               nx.gtfs_ids :=
                                 complexes.get_gtfs_stop_ids_by_complex_id cx complex_id |})
                   g0 rest in
         all_named g1 = true ∧ (∀ c, c ∈ ids → nx.has_node g1 c = true)).
  { intros Hc. apply (Hc [] ids g); [done|]. split; [done|].
    by intros c ?%elem_of_nil. }
  intros done rest. revert done.
  induction rest as [|c rest IH]; intros done g0 Hids [Hn Hdone]; simpl.
  - rewrite app_nil_r in Hids. by subst.
  - apply (IH (done ++ [c])); [by rewrite <- app_assoc|].
    destruct (nx.has_node g0 c) eqn:Hc.
    + split; [done|]. intros x [Hx|Hx%list_elem_of_singleton]%elem_of_app;
        [by apply Hdone|by subst].
    + split; [by apply all_named_add_node|].
      intros x Hx. unfold nx.has_node, ODict.mem, nx.add_node. simpl.
      rewrite odict_get_set. destruct (String.eqb_spec c x) as [->|Hne]; [done|].
      apply elem_of_app in Hx as [Hx|Hx%list_elem_of_singleton]; [|done].
      by apply Hdone.
Qed.

Lemma subway_add_edges_named route g ids :
  all_named g = true → (∀ c, c ∈ ids → nx.has_node g c = true) →
  all_named (SubwayGraph.add_edges route g ids) = true.
Proof.
  intros Hg Hids. unfold SubwayGraph.add_edges.
  apply (foldl_invariant
    (λ g, all_named g = true ∧ ∀ c, c ∈ ids → nx.has_node g c = true));
    [|done].
  intros g1 i Hi%elem_of_seq H1.
  apply (foldl_invariant
    (λ g, all_named g = true ∧ ∀ c, c ∈ ids → nx.has_node g c = true));
    [|done].
  intros g2 j Hj%elem_of_seq [H2 Hn2].
  destruct (add_or_update_edge_named route g2 (ids !!! i) (ids !!! j))
    as [H3 Hn3]; [| |done|].
  - apply Hn2, list_elem_of_lookup_total_2. lia.
  - apply Hn2, list_elem_of_lookup_total_2. lia.
  - split; [done|]. intros c Hc. by apply Hn3, Hn2.
Qed.

Lemma all_named_map_lines (f : list string → list string) g :
  all_named (nx.map_lines f g) = all_named g.
Proof.
  unfold all_named, nx.map_lines, ODict.map_values. simpl.
  induction (nx.entries g) as [|[k e] d IH]; simpl; [done|]. by rewrite IH.
Qed.

(** The graph [SubwayGraph.build_graph] leaves has a [stop_name] on every
    node. *)
Lemma subway_build_all_named (src : sources) (cls0 cls : cls_state) g :
  SubwayGraph.build_graph src cls0 = Ok cls → G cls = Some g →
  all_named g = true.
Proof.
  unfold SubwayGraph.build_graph.
  destruct (load_total src cls0) as [cx ->]. simpl. intros [= <-] [= <-].
  rewrite all_named_map_lines. unfold for_routes.
  apply (foldl_invariant (λ g, all_named g = true)); [|done].
  intros g1 route _ H1.
  apply (foldl_invariant (λ g, all_named g = true)); [|done].
  intros g2 direction _ H2.
  match goal with |- context [SubwayGraph.process ?c g2 route direction] =>
    pose proof (subway_process_spec c g2 route direction) as Hp;
    destruct (SubwayGraph.complex_ids_of c route direction) as [ids|e]
  end.
  - destruct Hp as [cx' ->].
    destruct (add_nodes_named cx' g2 ids H2) as [H3 Hn3].
    by apply subway_add_edges_named.
  - by rewrite Hp.
Qed.

End Named.

(** ** Builds and the class state *)

Section States.
Implicit Types (cls : cls_state) (src : sources).

(** [SubwayGraph.build_graph] does not read [cls.G]: a second build from
    the same files leaves the state of the first. *)
Lemma subway_build_idempotent src cls0 cls1 :
  SubwayGraph.build_graph src cls0 = Ok cls1 →
  SubwayGraph.build_graph src cls1 = Ok cls1.
Proof.
  unfold SubwayGraph.build_graph.
  destruct (load_total src cls0) as [cx H0]. rewrite H0. simpl.
  intros [= <-]. unfold load in *. simpl.
  destruct (complexes.init _ _) as [cx'|]; [|done]. simpl in *.
  injection H0 as ->. reflexivity.
Qed.

(** Before any build, every step of [MTAComplexGraph.build_graph] fails in
    [ordered_stops], which asserts that the graph is built: the first build
    leaves the empty graph. *)
Lemma complex_first_build_empty src cls0 :
  G cls0 = None →
  ∃ cls, MTAComplexGraph.build_graph src cls0 = Ok cls ∧ G cls = Some nx.Graph.
Proof.
  intros HG. unfold MTAComplexGraph.build_graph.
  destruct (load_total src cls0) as [cx ->]. simpl.
  eexists. split; [done|]. simpl. f_equal.
  assert (∀ routes g, for_routes (MTAComplexGraph.process
            {| G := G cls0; _stops := Some (stops_txt src);
               _trips := Some (trips_txt src);
               _stop_times := Some (stop_times_txt src);
               _complexes := Some cx |}) routes g = g) as ->; [|done].
  intros routes. unfold for_routes, MTAComplexGraph.process,
    MTAComplexGraph.ordered_stops, MTAComplexGraph._assert_built. simpl.
  rewrite HG. simpl. induction routes as [|r routes IH]; intros g; simpl; done.
Qed.

(** C1 (the code departs from it): built twice from the same files, the
    graph of [MTAComplexGraph] differs.  The first build leaves no node,
    whatever the files; on [self_named] the second leaves two. *)
Theorem complex_build_not_idempotent :
  (∀ src, ∃ cls, MTAComplexGraph.build_graph src cls_initial = Ok cls
                 ∧ nodes_of cls = Some []) ∧
  (cls1 ← MTAComplexGraph.build_graph self_named cls_initial;
   cls2 ← MTAComplexGraph.build_graph self_named cls1;
   lines ← MTAComplexGraph.connecting_lines cls2 "A1" "B1";
   Ok (nodes_of cls1, nodes_of cls2, lines))
  = Ok (Some [], Some ["A1"; "B1"], ["L"]).
Proof.
  split.
  - intros src. destruct (complex_first_build_empty src cls_initial) as (cls & H & HG);
      [done|].
    exists cls. split; [done|]. unfold nodes_of. by rewrite HG.
  - vm_compute. reflexivity.
Qed.

(** C2 (the code departs from it): on the graph built from
    [two_platforms], which has no complex 999, [successors] and the path
    searches raise; the other queries return an empty value. *)
Theorem unknown_identifier_raises :
  (cls ← SubwayGraph.build_graph two_platforms cls_initial;
   Ok (SubwayGraph.successors cls "999",
       SubwayGraph.shortest_path cls "999" "611",
       SubwayGraph.shortest_path cls "611" "999",
       SubwayGraph.all_shortest_paths cls "999" "611",
       SubwayGraph.get_directions cls "611" "999",
       SubwayGraph.connecting_lines cls "999" "611",
       SubwayGraph.lines_at_complex_id cls "999",
       SubwayGraph.complex_id_to_name cls "999",
       SubwayGraph.stop_name_to_complex_id cls "Nowhere"))
  = Ok (Raise NetworkXError, Raise NodeNotFound, Raise NodeNotFound,
        Raise NodeNotFound, Raise NodeNotFound, Ok [], Ok [], Ok None, Ok None).
Proof. vm_compute. reflexivity. Qed.

(** What every query does with a complex id that is not a node, on any
    graph. *)
Lemma unknown_identifier_queries cls g (n m : string) :
  G cls = Some g → nx.has_node g n = false →
  SubwayGraph.successors cls n = Raise NetworkXError ∧
  SubwayGraph.shortest_path cls n m = Raise NodeNotFound ∧
  SubwayGraph.shortest_path cls m n = Raise NodeNotFound ∧
  SubwayGraph.all_shortest_paths cls n m = Raise NodeNotFound ∧
  SubwayGraph.connecting_lines cls n m = Ok [] ∧
  SubwayGraph.lines_at_complex_id cls n = Ok [] ∧
  SubwayGraph.complex_id_to_name cls n = Ok None.
Proof.
  intros HG Hn.
  unfold SubwayGraph.successors, SubwayGraph.shortest_path,
    SubwayGraph.all_shortest_paths, SubwayGraph.connecting_lines,
    SubwayGraph.lines_at_complex_id, SubwayGraph.complex_id_to_name,
    SubwayGraph._assert_built, nx.successors, nx.shortest_path,
    nx.all_shortest_paths, nx.edge_lines.
  rewrite HG. simpl. rewrite Hn. rewrite orb_true_r. simpl.
  unfold nx.has_node, ODict.mem in Hn.
  destruct (ODict.get (nx.entries g) n); [done|].
  by destruct (PyStr.truthy n).
Qed.

(** C4 (the code departs from it): the trips of [two_platforms] have no
    trip of route L in direction 1 and no trip of route A; after a build,
    [ordered_stops] raises for the first and returns the empty list for the
    second, a route with its own branch.  [MTAComplexGraph.ordered_stops]
    raises as well. *)
Theorem ordered_stops_without_trip :
  (cls ← SubwayGraph.build_graph two_platforms cls_initial;
   Ok (SubwayGraph.ordered_stops cls "L" 1,
       SubwayGraph.ordered_stops cls "A" 1))
  = Ok (Raise IndexError, Ok []) ∧
  (cls ← MTAComplexGraph.build_graph two_platforms cls_initial;
   MTAComplexGraph.ordered_stops cls "L" 1)
  = Raise IndexError.
Proof. split; vm_compute; reflexivity. Qed.

(** The two branches of [SubwayGraph.ordered_stops] on a route and
    direction without a trip. *)
Lemma subway_ordered_stops_no_trip cls trips stop_times route direction :
  _trips cls = Some trips → _stop_times cls = Some stop_times →
  gtfs.query_trips trips route direction = [] →
  SubwayGraph.ordered_stops cls route direction
  = if String.eqb route "A" || String.eqb route "4" then Ok []
    else Raise IndexError.
Proof.
  intros Ht Hs Hq. unfold SubwayGraph.ordered_stops. rewrite Ht, Hs. simpl.
  rewrite Hq. simpl.
  destruct (String.eqb route "A" || String.eqb route "4"); [|done].
  assert (List.filter (λ _ : gtfs.stop_time_row, false) stop_times = [])
    as ->; [|done].
  clear Hs. induction stop_times as [|r l IH]; [done|exact IH].
Qed.

(** C8: before a build, every query of [SubwayGraph], and of
    [MTAComplexGraph], raises the error of [_assert_built]. *)
Theorem query_before_build cls (a b : string) :
  G cls = None →
  let not_built {A} : result A :=
    Raise (RuntimeError "Call SubwayGraph.build_graph() first.") in
  let complex_not_built {A} : result A :=
    Raise (RuntimeError "Call MTAComplexGraph.build_graph() first.") in
  SubwayGraph.successors cls a = not_built ∧
  SubwayGraph.connecting_lines cls a b = not_built ∧
  SubwayGraph.lines_at_complex_id cls a = not_built ∧
  SubwayGraph.lines_at_gtfs_stop_id cls a = not_built ∧
  SubwayGraph.shortest_path cls a b = not_built ∧
  SubwayGraph.shortest_path_with_lines cls a b = not_built ∧
  SubwayGraph.all_shortest_paths cls a b = not_built ∧
  SubwayGraph.get_directions cls a b = not_built ∧
  SubwayGraph.get_all_directions cls a b = not_built ∧
  SubwayGraph.stop_name_to_complex_id cls a = not_built ∧
  SubwayGraph.complex_id_to_name cls a = not_built ∧
  MTAComplexGraph.connecting_lines cls a b = complex_not_built ∧
  MTAComplexGraph.shortest_path cls a b = complex_not_built ∧
  MTAComplexGraph.ordered_stops cls a 0 = complex_not_built.
Proof.
  intros HG. simpl.
  unfold SubwayGraph.get_directions, SubwayGraph.get_all_directions,
    SubwayGraph.shortest_path_with_lines,
    SubwayGraph.successors, SubwayGraph.connecting_lines,
    SubwayGraph.lines_at_complex_id, SubwayGraph.lines_at_gtfs_stop_id,
    SubwayGraph.shortest_path, SubwayGraph.all_shortest_paths,
    SubwayGraph.stop_name_to_complex_id, SubwayGraph.complex_id_to_name,
    MTAComplexGraph.connecting_lines, MTAComplexGraph.shortest_path,
    MTAComplexGraph.ordered_stops,
    SubwayGraph._assert_built, MTAComplexGraph._assert_built.
  rewrite HG. simpl. repeat split.
Qed.

(** Witness of C8: the class as imported. *)
Lemma query_before_build_witness :
  G cls_initial = None ∧
  SubwayGraph.get_directions cls_initial "611" "10"
  = Raise (RuntimeError "Call SubwayGraph.build_graph() first.").
Proof.
  split; [reflexivity|].
  exact (proj1 (proj2 (proj2 (proj2 (proj2 (proj2 (proj2 (proj2
           (query_before_build cls_initial "611" "10" eq_refl))))))))).
Defined.

(** [get_directions_for_path] asks the graph only for a path of two nodes
    or more. *)
Lemma directions_for_path_before_build cls (path : list string) :
  G cls = None →
  SubwayGraph.get_directions_for_path cls path
  = if (2 <=? length path)%nat
    then Raise (RuntimeError "Call SubwayGraph.build_graph() first.")
    else Ok [].
Proof.
  intros HG. unfold SubwayGraph.get_directions_for_path.
  destruct path as [|x [|y path]]; [done|done|]. simpl.
  replace (length path - 0)%nat with (length path) by lia. simpl.
  unfold SubwayGraph.complex_id_to_name, SubwayGraph._assert_built.
  by rewrite HG.
Qed.

End States.

(** ** Breadth-first search *)

Section LevelsFacts.
Context {A : Type}.
Variable fresh : nat → ODict.t A → string → string → A.
Variable again : nat → A → string → A.
Variable g : nx.graph.
Implicit Types (d : ODict.t A) (acc : ODict.t A * list string)
  (v w k : string) (level fuel : nat) (es : list (string * string)).

Local Abbreviation pairs := (level_pairs g).
Local Abbreviation visit_pair level :=
  (λ acc (vw : string * string), nx.visit_nbr fresh again level (fst vw) acc (snd vw)).

Lemma elem_of_level_pairs vs v w :
  (v, w) ∈ pairs vs ↔ v ∈ vs ∧ edge g v w.
Proof.
  unfold level_pairs, edge. rewrite list_elem_of_bind. split.
  - intros (v' & Hvw & Hv). apply list_elem_of_fmap in Hvw as (w' & [= -> ->] & Hw).
    done.
  - intros [Hv Hw]. exists v. split; [|done]. apply list_elem_of_fmap. by exists w.
Qed.

Lemma visit_level_pairs level acc vs :
  foldl (nx.visit_node fresh again g level) acc vs
  = foldl (visit_pair level) acc (pairs vs).
Proof.
  unfold level_pairs. revert acc. induction vs as [|v vs IH]; intros acc; [done|].
  simpl. rewrite foldl_app, <- IH. f_equal. unfold nx.visit_node.
  generalize (nx.neighbors g v). clear. intros ws. revert acc.
  induction ws as [|w ws IH]; intros acc; simpl; [done|]. by rewrite IH.
Qed.

(** The keys a pass adds are the nodes it appends to the next level. *)
Lemma visit_pairs_keys level es acc :
  ∃ new, ODict.keys (fst (foldl (visit_pair level) acc es)) = ODict.keys acc.1 ++ new ∧
         snd (foldl (visit_pair level) acc es) = acc.2 ++ new ∧
         NoDup new ∧
         (∀ w, w ∈ new → (w ∉ ODict.keys acc.1) ∧ (∃ v, (v, w) ∈ es)) ∧
         (∀ v w, (v, w) ∈ es → w ∈ ODict.keys (fst (foldl (visit_pair level) acc es))).
Proof.
  revert acc. induction es as [|[v w] es IH]; intros acc; simpl.
  - exists []. rewrite !app_nil_r. split; [done|]. split; [done|].
    split; [constructor|]. split.
    + by intros w ?%elem_of_nil.
    + by intros v w ?%elem_of_nil.
  - destruct (IH (visit_pair level acc (v, w))) as (new2 & Hk & Hn & Hnd & Hnew & Hall).
    unfold nx.visit_nbr in *. simpl in *.
    destruct (ODict.get acc.1 w) as [a|] eqn:Hw; simpl in *.
    + rewrite odict_keys_set in Hk, Hnew. unfold ODict.mem in Hk, Hnew.
      rewrite Hw in Hk, Hnew.
      exists new2. split; [done|]. split; [done|]. split; [done|]. split.
      * intros x Hx. destruct (Hnew x Hx) as (? & v' & ?). split; [done|].
        exists v'. by right.
      * intros v' w' [[= -> ->]|Hin]%elem_of_cons; [|by eapply Hall].
        rewrite Hk. apply elem_of_app. left. by eapply odict_get_Some_keys.
    + rewrite odict_keys_set in Hk, Hnew. unfold ODict.mem in Hk, Hnew.
      rewrite Hw in Hk, Hnew. apply odict_get_None_keys in Hw.
      exists (w :: new2). split; [by rewrite Hk, <- app_assoc|].
      split; [by rewrite Hn, <- app_assoc|]. split; [|split].
      * constructor; [|done]. intros Hx. destruct (Hnew w Hx) as [Hx' _].
        apply Hx'. set_solver.
      * intros x [->|Hx]%elem_of_cons.
        -- split; [done|]. exists v. by left.
        -- destruct (Hnew x Hx) as (Hx' & v' & ?). split; [set_solver|].
           exists v'. by right.
      * intros v' w' [[= -> ->]|Hin]%elem_of_cons; [|by eapply Hall].
        rewrite Hk. set_solver.
Qed.

(** A property of the dictionary that the two updates keep is kept by a
    pass. *)
Lemma visit_pairs_invariant (I : ODict.t A → Prop)
    (E : string → string → Prop) level es acc :
  (∀ d v w, I d → v ∈ ODict.keys d → E v w → ODict.get d w = None →
            I (ODict.set d w (fresh level d v w))) →
  (∀ d v w a, I d → v ∈ ODict.keys d → E v w → ODict.get d w = Some a →
              I (ODict.set d w (again level a v))) →
  I acc.1 →
  (∀ v w, (v, w) ∈ es → v ∈ ODict.keys acc.1 ∧ E v w) →
  I (fst (foldl (visit_pair level) acc es)).
Proof.
  intros Hfresh Hagain. revert acc.
  induction es as [|[v w] es IH]; intros acc HI Hes; simpl; [done|].
  destruct (Hes v w) as [Hv Hvw]; [by left|].
  apply IH.
  - unfold nx.visit_nbr. simpl.
    destruct (ODict.get acc.1 w) as [a|] eqn:Hw; simpl.
    + by apply Hagain.
    + by apply Hfresh.
  - intros v' w' Hin. destruct (Hes v' w') as [Hv' ?]; [by right|]. split; [|done].
    destruct (visit_pairs_keys level [(v, w)] acc) as (new & Hk & _).
    simpl in Hk. rewrite Hk. set_solver.
Qed.

Lemma edge_universe v w : edge g v w → w ∈ nx.universe g.
Proof.
  unfold edge, nx.neighbors, nx.universe. intros Hw.
  destruct (ODict.get (nx.entries g) v) as [e|] eqn:E; [|by apply elem_of_nil in Hw].
  apply elem_of_app. right. apply list_elem_of_In, in_concat.
  exists (ODict.keys (nx.adj e)). split; [|by apply list_elem_of_In].
  apply in_map_iff. exists (v, e). split; [done|].
  by apply list_elem_of_In, odict_get_in.
Qed.

(** The search ends within its fuel; what the two updates keep holds of
    its result, whose keys are closed under the edges of the graph. *)
Lemma levels_spec (I : ODict.t A → Prop) fuel level d next :
  (∀ level d v w, I d → v ∈ ODict.keys d → edge g v w → ODict.get d w = None →
                  I (ODict.set d w (fresh level d v w))) →
  (∀ level d v w a, I d → v ∈ ODict.keys d → edge g v w → ODict.get d w = Some a →
                    I (ODict.set d w (again level a v))) →
  I d →
  NoDup (ODict.keys d) →
  ODict.keys d ⊆ nx.universe g →
  next ⊆ ODict.keys d →
  (∀ u, u ∈ ODict.keys d → u ∈ next ∨ ∀ w, edge g u w → w ∈ ODict.keys d) →
  (length (nx.universe g) < length (ODict.keys d) + fuel)%nat →
  ∃ d', nx.levels fresh again fuel g level d next = Some d' ∧ I d' ∧
        ODict.keys d ⊆ ODict.keys d' ∧
        ∀ u w, u ∈ ODict.keys d' → edge g u w → w ∈ ODict.keys d'.
Proof.
  intros Hfresh Hagain. revert level d next.
  induction fuel as [|fuel IH]; intros level d next HI Hnd Hu Hnext Hcl Hfuel.
  - exfalso. apply NoDup_submseteq in Hu; [|done].
    apply submseteq_length in Hu. lia.
  - destruct next as [|n next].
    { exists d. simpl. split; [done|]. split; [done|]. split; [done|].
      intros u w Hin Hw. destruct (Hcl u Hin) as [?%elem_of_nil|H]; [done|].
      by apply H. }
    cbn [nx.levels]. rewrite visit_level_pairs.
    set (acc := foldl (visit_pair (S level)) (d, []) (pairs (n :: next))).
    destruct (visit_pairs_keys (S level) (pairs (n :: next)) (d, []))
      as (new & Hk & Hn & Hnew_nd & Hnew & Hall).
    fold acc in Hk, Hn, Hall. cbn [fst snd app] in Hk, Hn, Hnew.
    assert (I acc.1) as HI'.
    { apply (visit_pairs_invariant I (edge g)); [apply Hfresh|apply Hagain|done|].
      intros v w [Hv Hvw]%elem_of_level_pairs. split; [by apply Hnext|done]. }
    assert (NoDup (ODict.keys acc.1)) as Hnd'.
    { rewrite Hk. apply NoDup_app. split; [done|]. split; [|done].
      intros x Hx Hx'. by destruct (Hnew x Hx'). }
    assert (ODict.keys acc.1 ⊆ nx.universe g) as Hu'.
    { rewrite Hk. intros x [Hx|Hx]%elem_of_app; [by apply Hu|].
      destruct (Hnew x Hx) as (_ & v & [_ Hvx]%elem_of_level_pairs).
      by eapply edge_universe. }
    assert (∀ u, u ∈ ODict.keys acc.1 →
                 u ∈ acc.2 ∨ ∀ w, edge g u w → w ∈ ODict.keys acc.1) as Hcl'.
    { intros u. rewrite Hk at 1. rewrite Hn.
      intros [Hx|Hx]%elem_of_app; [|by left]. right. intros w Hw.
      destruct (Hcl u Hx) as [Hun|Hdone].
      - apply (Hall u w). by apply elem_of_level_pairs.
      - rewrite Hk. apply elem_of_app. left. by apply Hdone. }
    destruct new as [|x new].
    + rewrite Hn. exists acc.1. simpl. split; [by destruct fuel|].
      split; [done|]. split; [rewrite Hk; set_solver|].
      intros u w Hin Hw. destruct (Hcl' u Hin) as [Hx|H]; [|by apply H].
      rewrite Hn in Hx. by apply elem_of_nil in Hx.
    + destruct (IH (S level) acc.1 acc.2) as (d' & Hd' & HI'' & Hsub & Hclosed);
        try done.
      * rewrite Hn, Hk. set_solver.
      * rewrite Hk, length_app. simpl. simpl in Hfuel. lia.
      * exists d'. split; [done|]. split; [done|]. split; [|done].
        rewrite Hk in Hsub. set_solver.
Qed.

(** What a pass keeps, from level to level, holds when the search ends. *)
Lemma levels_ind (J : nat → ODict.t A → list string → Prop) fuel level d next d' :
  (∀ level d n next,
     J level d (n :: next) →
     J (S level)
       (fst (foldl (nx.visit_node fresh again g (S level)) (d, []) (n :: next)))
       (snd (foldl (nx.visit_node fresh again g (S level)) (d, []) (n :: next)))) →
  J level d next →
  nx.levels fresh again fuel g level d next = Some d' →
  ∃ level', J level' d' [].
Proof.
  intros Hpass. revert level d next.
  induction fuel as [|fuel IH]; intros level d next HJ; simpl.
  - destruct next; [|done]. intros [= <-]. by exists level.
  - destruct next as [|n next]; [intros [= <-]; by exists level|].
    apply IH. by apply Hpass.
Qed.

End LevelsFacts.

(** ** The two searches of networkx *)

Section Searches.
Implicit Types (g : nx.graph) (s t k : string) (p : list string).

Lemma is_path_nonempty g s t p : is_path g s t p → p ≠ [].
Proof. intros [|a b c q _ _]; [done|by destruct q]. Qed.

Lemma has_node_universe g s : nx.has_node g s = true → s ∈ nx.universe g.
Proof.
  intros H. apply elem_of_app. left. by apply odict_mem_keys.
Qed.

Lemma is_path_last_hop g s k q n :
  is_path g s k q → length q = S (S n) →
  ∃ b q', q = q' ++ [k] ∧ is_path g s b q' ∧ edge g b k.
Proof.
  intros [a|a b c q' Hq' Hbc] Hlen; [done|]. by exists b, q'.
Qed.

(** No path from the source is shorter than the entry of its end. *)
Lemma single_source_shortest_path_shortest g s paths :
  nx.single_source_shortest_path g s = Some paths →
  ∀ k p q, ODict.get paths k = Some p → is_path g s k q → (length p ≤ length q)%nat.
Proof.
  unfold nx.single_source_shortest_path. intros Hlevels.
  set (J := λ (level : nat) (d : ODict.t (list string)) (next : list string),
    (∀ k p, ODict.get d k = Some p → is_path g s k p ∧ (length p ≤ S level)%nat) ∧
    (∀ k, k ∈ next ↔ ∃ p, ODict.get d k = Some p ∧ length p = S level) ∧
    (∀ k q, is_path g s k q → (length q ≤ S level)%nat → k ∈ ODict.keys d) ∧
    (∀ k p q, ODict.get d k = Some p → is_path g s k q → (length p ≤ length q)%nat)).
  cut (∃ level', J level' paths []).
  { intros (level' & _ & _ & _ & Hmin). exact Hmin. }
  eapply (levels_ind _ _ g J); [| |exact Hlevels].
  - (* one pass *)
    clear Hlevels paths. intros level d n next (J1 & J2 & J3 & J4).
    rewrite visit_level_pairs.
    set (T := n :: next) in *.
    set (acc := foldl _ (d, []) (level_pairs g T)).
    destruct (visit_pairs_keys
      (λ _ paths v w, default [] (ODict.get paths v) ++ [w]) (λ _ p _, p)
      (S level) (level_pairs g T) (d, []))
      as (new & Hk & Hn & _ & Hnew & Hall).
    fold acc in Hk, Hn, Hall. cbn [fst snd app] in Hk, Hn, Hnew.
    assert ((∀ k p, ODict.get d k = Some p → ODict.get acc.1 k = Some p) ∧
            (∀ k p, ODict.get acc.1 k = Some p →
               ODict.get d k = Some p ∨
               (ODict.get d k = None ∧
                ∃ v pv, v ∈ T ∧ edge g v k ∧ ODict.get d v = Some pv
                        ∧ p = pv ++ [k]))) as [Hold Hentry].
    { apply (visit_pairs_invariant
        (λ _ paths v w, default [] (ODict.get paths v) ++ [w]) (λ _ p _, p)
        (λ dd, (∀ k p, ODict.get d k = Some p → ODict.get dd k = Some p) ∧
               (∀ k p, ODict.get dd k = Some p →
                  ODict.get d k = Some p ∨
                  (ODict.get d k = None ∧
                   ∃ v pv, v ∈ T ∧ edge g v k ∧ ODict.get d v = Some pv
                           ∧ p = pv ++ [k])))
        (λ v w, v ∈ T ∧ edge g v w)).
      - intros dd v w [I1 I2] Hv [HvT Hvw] Hnone. split.
        + intros k p Hkp. rewrite odict_get_set.
          destruct (String.eqb_spec w k) as [<-|?]; [|by apply I1].
          apply I1 in Hkp. congruence.
        + intros k p. rewrite odict_get_set.
          destruct (String.eqb_spec w k) as [<-|?]; [|by apply I2].
          intros [= <-]. right. split.
          * destruct (ODict.get d w) as [x|] eqn:Hx; [|done].
            apply I1 in Hx. congruence.
          * destruct (proj1 (J2 v) HvT) as (pv & Hpv & _). exists v, pv.
            by rewrite (I1 _ _ Hpv).
      - intros dd v w a [I1 I2] Hv _ Ha. split.
        + intros k p Hkp. rewrite odict_get_set.
          destruct (String.eqb_spec w k) as [<-|?]; [|by apply I1].
          apply I1 in Hkp. congruence.
        + intros k p. rewrite odict_get_set.
          destruct (String.eqb_spec w k) as [<-|?]; [|by apply I2].
          intros [= <-]. by apply I2.
      - simpl. split; [done|]. intros k p. by left.
      - intros v w [Hv Hvw]%elem_of_level_pairs. split; [|done]. simpl.
        apply J2 in Hv as (pv & Hpv & _). by eapply odict_get_Some_keys. }
    assert (∀ k p, ODict.get acc.1 k = Some p → ODict.get d k = None →
                   is_path g s k p ∧ length p = S (S level)) as Hfresh.
    { intros k p Hkp Hdk. destruct (Hentry k p Hkp) as [?|(_ & v & pv & Hv & Hvk & Hpv & ->)];
        [congruence|].
      apply J2 in Hv as (pv' & Hpv' & Hlen). rewrite Hpv in Hpv'. injection Hpv' as <-.
      split; [apply is_path_snoc with v; [by apply J1|done]|].
      rewrite length_app. simpl. lia. }
    split; [|split; [|split]].
    + intros k p Hkp. destruct (ODict.get d k) as [p'|] eqn:Hdk.
      * rewrite (Hold _ _ Hdk) in Hkp. injection Hkp as <-.
        destruct (J1 _ _ Hdk). split; [done|lia].
      * destruct (Hfresh k p Hkp Hdk). split; [done|lia].
    + intros k. rewrite Hn. split.
      * intros Hknew. destruct (Hnew k Hknew) as [Hnk _].
        assert (k ∈ ODict.keys acc.1) as Hin by (rewrite Hk; set_solver).
        apply odict_mem_keys in Hin. unfold ODict.mem in Hin.
        destruct (ODict.get acc.1 k) as [p|] eqn:Hkp; [|done].
        exists p. split; [done|]. apply (Hfresh k p Hkp).
        by apply odict_get_None_keys.
      * intros (p & Hkp & Hlen). destruct (ODict.get d k) as [p'|] eqn:Hdk.
        -- rewrite (Hold _ _ Hdk) in Hkp. injection Hkp as <-.
           destruct (J1 _ _ Hdk). lia.
        -- apply odict_get_Some_keys in Hkp. rewrite Hk in Hkp.
           apply odict_get_None_keys in Hdk. set_solver.
    + intros k q Hq Hlen.
      destruct (decide (length q ≤ S level)%nat) as [Hle|Hgt].
      { rewrite Hk. apply elem_of_app. left. by apply (J3 k q). }
      destruct (is_path_last_hop g s k q level Hq) as (b & q' & -> & Hq' & Hbk);
        [lia|].
      rewrite length_app in Hlen, Hgt. simpl in Hlen, Hgt.
      assert (b ∈ ODict.keys d) as Hb by (apply (J3 b q'); [done|lia]).
      apply odict_mem_keys in Hb. unfold ODict.mem in Hb.
      destruct (ODict.get d b) as [pb|] eqn:Hpb; [|done].
      destruct (J1 _ _ Hpb) as [Hpathb Hlenb].
      destruct (decide (length pb = S level)%nat) as [Heq|Hlt].
      * apply (Hall b k). apply elem_of_level_pairs. split; [|done].
        apply J2. by exists pb.
      * rewrite Hk. apply elem_of_app. left. apply (J3 k (pb ++ [k])).
        -- by apply is_path_snoc with b.
        -- rewrite length_app. simpl. lia.
    + intros k p q Hkp Hq. destruct (ODict.get d k) as [p'|] eqn:Hdk.
      * rewrite (Hold _ _ Hdk) in Hkp. injection Hkp as <-. by apply (J4 k).
      * destruct (Hfresh k p Hkp Hdk) as [_ Hlen].
        destruct (decide (length q ≤ S level)%nat) as [Hle|Hgt]; [|lia].
        apply (J3 k q Hq) in Hle. by apply odict_get_None_keys in Hdk.
  - (* the first level *)
    assert (∀ k q, is_path g s k q → (length q ≤ 1)%nat → k = s) as Hone.
    { intros k q [a|a b c q' Hq' Hbc]; [done|]. rewrite length_app. simpl.
      apply is_path_nonempty in Hq'. destruct q'; [done|]. simpl. lia. }
    split; [|split; [|split]].
    + intros k p. simpl. destruct (String.eqb_spec s k) as [<-|?]; [|done].
      intros [= <-]. split; [constructor|done].
    + intros k. rewrite list_elem_of_singleton. simpl.
      destruct (String.eqb_spec s k) as [<-|?]; [|naive_solver].
      split; [intros _; by exists [s]|done].
    + intros k q Hq Hlen. rewrite (Hone k q Hq Hlen). simpl. by left.
    + intros k p q. simpl. destruct (String.eqb_spec s k) as [<-|?]; [|done].
      intros [= <-] Hq. apply is_path_nonempty in Hq. destruct q; [done|].
      simpl. lia.
Qed.

(** [single_source_shortest_path] ends, every entry of its result is a
    path from the source, and every node within reach has an entry. *)
Lemma single_source_shortest_path_spec g s :
  nx.has_node g s = true →
  ∃ paths, nx.single_source_shortest_path g s = Some paths ∧
    (∀ k p, ODict.get paths k = Some p → is_path g s k p) ∧
    (∀ k, reachable g s k → k ∈ ODict.keys paths).
Proof.
  intros Hs. unfold nx.single_source_shortest_path, nx.enough.
  destruct (levels_spec
    (λ _ paths v w, default [] (ODict.get paths v) ++ [w]) (λ _ p _, p) g
    (λ paths, ∀ k p, ODict.get paths k = Some p → is_path g s k p)
    (S (length (nx.universe g))) 0 [(s, [s])] [s])
    as (paths & Hp & Hvalid & Hsub & Hclosed).
  - intros _ d v w Hd Hv Hvw Hnone k p. rewrite odict_get_set.
    destruct (String.eqb_spec w k) as [<-|Hne]; [|by apply Hd].
    intros [= <-]. apply odict_mem_keys in Hv. unfold ODict.mem in Hv.
    destruct (ODict.get d v) as [pv|] eqn:Hpv; [|done]. simpl.
    apply is_path_snoc with v; [by apply Hd|done].
  - intros _ d v w a Hd Hv Hvw Ha k p. rewrite odict_get_set.
    destruct (String.eqb_spec w k) as [<-|Hne]; [|by apply Hd].
    intros [= <-]. by apply Hd.
  - intros k p. simpl. destruct (String.eqb_spec s k) as [<-|?]; [|done].
    intros [= <-]. constructor.
  - simpl. apply NoDup_singleton.
  - simpl. intros x ->%list_elem_of_singleton. by apply has_node_universe.
  - done.
  - simpl. intros u Hu. by left.
  - simpl. lia.
  - exists paths. split; [done|]. split; [done|].
    assert (∀ a k p, is_path g a k p → a ∈ ODict.keys paths →
                     k ∈ ODict.keys paths) as Hreach.
    { intros a k p Hpath. induction Hpath as [|a b c q Hq IH Hbc]; [done|].
      intros Ha. apply (Hclosed b c); [by apply IH|done]. }
    intros k (p & Hpath). apply (Hreach s k p Hpath), Hsub. simpl. by left.
Qed.

(** [predecessor] ends, and every node it has seen is within reach. *)
Lemma predecessor_spec g s :
  nx.has_node g s = true →
  ∃ pred, nx.predecessor g s = Some pred ∧
    (∀ k, k ∈ ODict.keys pred → reachable g s k).
Proof.
  intros Hs. unfold nx.predecessor, nx.enough.
  destruct (levels_spec
    (λ level _ v _, (level, [v]))
    (λ level (a : nat * list string) v,
       if Nat.eqb a.1 level then (a.1, a.2 ++ [v]) else a) g
    (λ pred, ∀ k, k ∈ ODict.keys pred → reachable g s k)
    (S (length (nx.universe g))) 0 [(s, (O, []))] [s])
    as (pred & Hp & Hvalid & _ & _).
  - intros level d v w Hd Hv Hvw Hnone k. rewrite odict_keys_set.
    destruct (ODict.mem d w); [by apply Hd|].
    intros [Hk|Hk]%elem_of_app; [by apply Hd|].
    apply list_elem_of_singleton in Hk as ->.
    destruct (Hd v Hv) as [p Hp]. exists (p ++ [w]). by apply is_path_snoc with v.
  - intros level d v w a Hd Hv Hvw Ha k. rewrite odict_keys_set.
    unfold ODict.mem. rewrite Ha. by apply Hd.
  - simpl. intros k Hk. apply list_elem_of_singleton in Hk as ->.
    exists [s]. constructor.
  - simpl. apply NoDup_singleton.
  - simpl. intros x ->%list_elem_of_singleton. by apply has_node_universe.
  - done.
  - simpl. intros u Hu. by left.
  - simpl. lia.
  - by exists pred.
Qed.

(** The contract of [nx.shortest_path] between two nodes of the graph. *)
Lemma nx_shortest_path_spec g s t :
  nx.has_node g s = true → nx.has_node g t = true →
  (reachable g s t →
   ∃ p, nx.shortest_path g s t = Ok p ∧ is_path g s t p ∧
        ∀ q, is_path g s t q → (length p ≤ length q)%nat) ∧
  (¬ reachable g s t → nx.shortest_path g s t = Raise NetworkXNoPath).
Proof.
  intros Hs Ht. unfold nx.shortest_path. rewrite Hs, Ht. simpl.
  destruct (single_source_shortest_path_spec g s Hs) as (paths & Hpaths & Hvalid & Hall).
  pose proof (single_source_shortest_path_shortest g s paths Hpaths) as Hmin.
  rewrite Hpaths.
  destruct (ODict.get paths t) as [p|] eqn:Hp.
  - split.
    { intros _. exists p. split; [done|]. split; [by apply Hvalid|].
      intros q. by apply (Hmin t). }
    intros Hno. exfalso. apply Hno. exists p. by apply Hvalid.
  - split; [|done]. intros Hr. apply Hall in Hr.
    by apply odict_get_None_keys in Hp.
Qed.

(** [nx.all_shortest_paths] from a node of the graph to a node out of
    reach. *)
Lemma nx_all_shortest_paths_no_path g s t :
  nx.has_node g s = true → ¬ reachable g s t →
  nx.all_shortest_paths g s t = Raise NetworkXNoPath.
Proof.
  intros Hs Hno. unfold nx.all_shortest_paths. rewrite Hs. simpl.
  destruct (predecessor_spec g s Hs) as (pred & -> & Hvalid).
  destruct (ODict.mem pred t) eqn:Ht; [|done].
  exfalso. apply Hno, Hvalid. by apply odict_mem_keys.
Qed.

End Searches.

(** ** Path queries *)

Section PathQueries.
Implicit Types (g : nx.graph) (cls : cls_state) (a b : string) (p : list string).

(** C7: between two nodes of the graph with no path from the first to the
    second, [shortest_path] returns [None] ([([], [])] in
    [MTAComplexGraph]) and [all_shortest_paths] returns the empty list;
    none of them raises. *)
Theorem disconnected_pair cls g a b :
  G cls = Some g →
  nx.has_node g a = true → nx.has_node g b = true →
  ¬ reachable g a b →
  SubwayGraph.shortest_path cls a b = Ok None ∧
  SubwayGraph.all_shortest_paths cls a b = Ok [] ∧
  MTAComplexGraph.shortest_path cls a b = Ok ([], []) ∧
  SubwayGraph.get_directions cls a b = Ok None.
Proof.
  intros HG Ha Hb Hno.
  destruct (nx_shortest_path_spec g a b Ha Hb) as [_ Hsp].
  specialize (Hsp Hno).
  pose proof (nx_all_shortest_paths_no_path g a b Ha Hno) as Hall.
  unfold SubwayGraph.get_directions, SubwayGraph.shortest_path_with_lines,
    SubwayGraph.shortest_path, SubwayGraph.all_shortest_paths,
    MTAComplexGraph.shortest_path,
    SubwayGraph._assert_built, MTAComplexGraph._assert_built.
  rewrite HG. simpl. rewrite Hsp, Hall. done.
Qed.

(** From C nothing can be reached in [abc_graph] but C. *)
Lemma abc_from_C a p : is_path abc_graph "idC" a p → a = "idC".
Proof.
  intros H. remember "idC" as c eqn:Hc.
  induction H as [|s b t q Hq IH Hbt]; [done|].
  rewrite (IH Hc), Hc in Hbt. by apply elem_of_nil in Hbt.
Qed.

(** Witness of C7: there is no way back from C to A in [abc_graph]. *)
Lemma disconnected_pair_witness :
  SubwayGraph.shortest_path abc_cls "idC" "idA" = Ok None ∧
  SubwayGraph.all_shortest_paths abc_cls "idC" "idA" = Ok [] ∧
  MTAComplexGraph.shortest_path abc_cls "idC" "idA" = Ok ([], []) ∧
  SubwayGraph.get_directions abc_cls "idC" "idA" = Ok None.
Proof.
  apply (disconnected_pair abc_cls abc_graph "idC" "idA");
    [reflexivity|reflexivity|reflexivity|].
  intros [p Hp]. apply abc_from_C in Hp. discriminate Hp.
Defined.

End PathQueries.

(** ** Directions *)

Section Directions.
Implicit Types (g : nx.graph) (cls : cls_state) (a b u v : string)
  (p : list string).

(** A loop that appends one computed element per step is a [map]. *)
Lemma for_each_map {X B : Type} (body : list B → X → result (list B))
    (h : X → B) (l : list X) (acc : list B) :
  (∀ acc x, x ∈ l → body acc x = Ok (acc ++ [h x])) →
  for_each body l acc = Ok (acc ++ map h l).
Proof.
  revert acc. induction l as [|x l IH]; intros acc Hbody; simpl.
  - by rewrite app_nil_r.
  - rewrite Hbody by by left. simpl. rewrite IH.
    + by rewrite <- app_assoc.
    + intros acc' x' Hx'. apply Hbody. by right.
Qed.

(** The loops over [range(len(l) - 1)] that read [l[i]] and [l[i + 1]]. *)
Lemma index_hop_map {X B : Type} `{Inhabited X} (F : X → X → B) (l : list X) :
  map (λ i, F (l !!! i) (l !!! (i + 1)%nat)) (seq 0 (length l - 1))
  = hop_map F l.
Proof.
  induction l as [|x l IH]; [done|]. destruct l as [|y l]; [done|].
  change (hop_map F (x :: y :: l)) with (F x y :: hop_map F (y :: l)).
  cbn [length Nat.sub]. rewrite ?Nat.sub_0_r.
  cbn [length Nat.sub] in IH. rewrite ?Nat.sub_0_r in IH.
  cbn [seq map]. f_equal. rewrite <- IH, <- fmap_S_seq.
  change (map ?f (S <$> ?l)) with (f <$> (S <$> l)).
  rewrite <- list_fmap_compose. done.
Qed.

Lemma is_path_head g a b p : is_path g a b p → ∃ rest, p = a :: rest.
Proof.
  induction 1 as [a|a b c q Hq [rest ->] Hbc]; [by exists []|].
  by exists (rest ++ [c]).
Qed.

Lemma hop_map_with_lines g p x :
  last p = Some x →
  hop_map (λ u v, (u, lines_of g u v)) p ++ [(x, [])] = with_lines g p.
Proof.
  induction p as [|u p IH]; [done|]. destruct p as [|v p].
  - by intros [= ->].
  - intros Hlast.
    change (hop_map ?F (u :: v :: p)) with (F u v :: hop_map F (v :: p)).
    change (with_lines g (u :: v :: p))
      with ((u, lines_of g u v) :: with_lines g (v :: p)).
    rewrite <- IH; done.
Qed.

Lemma hop_map_hop_line g p :
  hop_map (λ (cl nl : string * list string), hop_text g cl.2 nl.1) (with_lines g p)
  = hop_map (hop_line g) p.
Proof.
  induction p as [|u p IH]; [done|]. destruct p as [|v p]; [done|].
  change (hop_map ?F (u :: v :: p)) with (F u v :: hop_map F (v :: p)).
  change (with_lines g (u :: v :: p))
    with ((u, lines_of g u v) :: with_lines g (v :: p)).
  rewrite <- IH. by destruct p.
Qed.

Lemma complex_id_to_name_named cls g n :
  G cls = Some g → all_named g = true →
  SubwayGraph.complex_id_to_name cls n = Ok (name_opt g n).
Proof.
  intros HG Hnamed. unfold SubwayGraph.complex_id_to_name,
    SubwayGraph._assert_built, name_opt. rewrite HG. simpl.
  destruct (ODict.get (nx.entries g) n) as [e|] eqn:E; [|done]. simpl.
  apply odict_get_in in E. unfold all_named in Hnamed.
  rewrite forallb_forall in Hnamed. apply list_elem_of_In in E.
  specialize (Hnamed _ E). simpl in Hnamed. unfold SubwayGraph.stop_name_of.
  by destruct (nx.attrs e).
Qed.

Lemma hops_with_lines_spec cls g p :
  G cls = Some g →
  SubwayGraph.hops_with_lines cls p
  = Ok (hop_map (λ u v, (u, lines_of g u v)) p).
Proof.
  intros HG. unfold SubwayGraph.hops_with_lines.
  rewrite (for_each_map _ (λ i, (p !!! i, lines_of g (p !!! i) (p !!! (i + 1)%nat)))).
  - simpl. f_equal. apply (index_hop_map (λ u v, (u, lines_of g u v))).
  - intros acc i _. unfold SubwayGraph.connecting_lines,
      SubwayGraph._assert_built. by rewrite HG.
Qed.

Lemma shortest_path_with_lines_spec cls g a b p :
  G cls = Some g →
  SubwayGraph.shortest_path cls a b = Ok (Some p) → p ≠ [] →
  SubwayGraph.shortest_path_with_lines cls a b = Ok (Some (with_lines g p)).
Proof.
  intros HG Hsp Hne. unfold SubwayGraph.shortest_path_with_lines.
  rewrite Hsp. cbn [mbind result_bind]. destruct p as [|u p]; [done|].
  rewrite (hops_with_lines_spec cls g _ HG). cbn [mbind result_bind].
  destruct (last (u :: p)) as [x|] eqn:Hlast.
  - cbn [mbind result_bind]. by rewrite (hop_map_with_lines g (u :: p) x Hlast).
  - by apply last_None in Hlast.
Qed.

(** [get_directions] on the path [shortest_path] returns. *)
Lemma get_directions_spec cls g a b p :
  G cls = Some g → all_named g = true →
  SubwayGraph.shortest_path cls a b = Ok (Some p) → p ≠ [] →
  SubwayGraph.get_directions cls a b = Ok (render_directions g p).
Proof.
  intros HG Hnamed Hsp Hne. unfold SubwayGraph.get_directions.
  rewrite (shortest_path_with_lines_spec cls g a b p HG Hsp Hne).
  cbn [mbind result_bind]. destruct p as [|u p]; [done|].
  assert (∃ lines rest, with_lines g (u :: p) = (u, lines) :: rest)
    as (lines & rest & Hwl).
  { destruct p; by eexists _, _. }
  rewrite Hwl. rewrite (complex_id_to_name_named cls g u HG Hnamed).
  cbn [mbind result_bind]. rewrite <- Hwl.
  rewrite (for_each_map _
    (λ i, hop_text g (with_lines g (u :: p) !!! i).2
                     (with_lines g (u :: p) !!! (i + 1)%nat).1)).
  - cbn [mbind result_bind]. unfold render_directions. do 3 f_equal.
    rewrite <- hop_map_hop_line. cbn [app]. unfold start_line. f_equal.
    apply (index_hop_map (λ (cl nl : string * list string), hop_text g cl.2 nl.1)).
  - intros acc i _.
    destruct (with_lines g (u :: p) !!! i) as [cur ls].
    destruct (with_lines g (u :: p) !!! (i + 1)%nat) as [nxt ls'].
    rewrite (complex_id_to_name_named cls g nxt HG Hnamed).
    cbn [mbind result_bind fst snd]. by destruct ls.
Qed.

(** C9: between two nodes joined by a path, [get_directions] is the text
    of the specification on the path [shortest_path] returns: a line for
    the start, then for every hop a line naming its lines, or a transfer
    when it has none.  On the hand-made graph A, B, C the text is the one
    the specification gives. *)
Theorem directions_format cls g a b :
  G cls = Some g →
  nx.has_node g a = true → nx.has_node g b = true →
  reachable g a b →
  all_named g = true →
  (∃ p, SubwayGraph.shortest_path cls a b = Ok (Some p) ∧ is_path g a b p ∧
        (∀ q, is_path g a b q → (length p ≤ length q)%nat) ∧
        SubwayGraph.get_directions cls a b
        = Ok (Some (PyStr.join (String "010"%char EmptyString)
                      (("Start at " +:+ SubwayGraph.fmt (name_opt g a)
                        +:+ " (" +:+ a +:+ ")")
                       :: hop_map (hop_line g) p)))) ∧
  SubwayGraph.shortest_path abc_cls "idA" "idC" = Ok (Some ["idA"; "idB"; "idC"]) ∧
  SubwayGraph.get_directions abc_cls "idA" "idC"
  = Ok (Some "Start at A (idA)
Take the N, Q trains to B (idB)
Transfer at C (idC)").
Proof.
  intros HG Ha Hb Hreach Hnamed. split; [|split; vm_compute; reflexivity].
  destruct (nx_shortest_path_spec g a b Ha Hb) as [Hsp _].
  destruct (Hsp Hreach) as (p & Hp & Hpath & Hmin).
  assert (SubwayGraph.shortest_path cls a b = Ok (Some p)) as Hsp'.
  { unfold SubwayGraph.shortest_path, SubwayGraph._assert_built.
    rewrite HG. simpl. by rewrite Hp. }
  exists p. split; [done|]. split; [done|]. split; [done|].
  destruct (is_path_head g a b p Hpath) as [rest ->].
  by rewrite (get_directions_spec cls g a b _ HG Hnamed Hsp').
Qed.

(** Witness of C9: from A to B in the hand-made graph. *)
Lemma directions_format_witness :
  ∃ p, SubwayGraph.shortest_path abc_cls "idA" "idB" = Ok (Some p) ∧
       SubwayGraph.get_directions abc_cls "idA" "idB"
       = Ok (Some (PyStr.join (String "010"%char EmptyString)
                     ("Start at A (idA)" :: hop_map (hop_line abc_graph) p))).
Proof.
  destruct (directions_format abc_cls abc_graph "idA" "idB")
    as [(p & Hp & _ & _ & Hd) _]; [reflexivity|reflexivity|reflexivity| |reflexivity|].
  - exists ["idA"; "idB"].
    apply (is_path_snoc abc_graph "idA" "idA" "idB" ["idA"]); [constructor|].
    apply list_elem_of_here.
  - exists p. split; [exact Hp|exact Hd].
Defined.

End Directions.

(** * Further properties *)

(** ** The registry tables *)

Section RegistryTables.
Import PyStr complexes.

Lemma load_row_info (self self' : ComplexesData) (row : complex_row) :
  load_row self row = Ok self' →
  complex_info self'
  = <[row_complex_id row :=
        {| num_stations := row_num_stations row;
           gtfs_stop_ids := gtfs_list_of (row_gtfs_stop_ids row) |}]>
      (complex_info self).
Proof.
  unfold load_row. destruct (for_each _ _ _) as [m|]; [|done]. simpl.
  by intros [= <-].
Qed.

Lemma rows_of_snoc (rows : list complex_row) (row : complex_row) (c : string) :
  last (rows_of (rows ++ [row]) c)
  = if String.eqb (row_complex_id row) c then Some row else last (rows_of rows c).
Proof.
  unfold rows_of. rewrite List.filter_app. simpl.
  destruct (String.eqb (row_complex_id row) c).
  - apply last_snoc.
  - by rewrite app_nil_r.
Qed.

(** What [__init__] leaves in [complex_info]. *)
Lemma init_info (rows : list complex_row) (stops : list stop_row) :
  ∃ self, init rows stops = Ok self ∧
    ∀ c, complex_info self !! c
         = (λ row, {| num_stations := row_num_stations row;
                      gtfs_stop_ids := gtfs_list_of (row_gtfs_stop_ids row) |})
             <$> last (rows_of rows c).
Proof.
  unfold init.
  apply (for_each_invariant load_row
    (λ done self, ∀ c, complex_info self !! c
         = (λ row, {| num_stations := row_num_stations row;
                      gtfs_stop_ids := gtfs_list_of (row_gtfs_stop_ids row) |})
             <$> last (rows_of done c))).
  - intros c. simpl. by rewrite lookup_empty.
  - intros done row self Hself _.
    destruct (load_row_spec self row) as (self' & Hload & _).
    exists self'. split; [done|]. intros c.
    rewrite (load_row_info self self' row Hload), rows_of_snoc.
    destruct (String.eqb_spec (row_complex_id row) c) as [->|Hne].
    + by rewrite lookup_insert_eq.
    + by rewrite lookup_insert_ne.
Qed.

Lemma name_map_of_from (stops : list stop_row) (m : gmap string string) (s : string) :
  foldl (λ m r, <[stop_id r := stop_name r]> m) m stops !! s
  = match last (stop_rows_of stops s) with
    | Some r => Some (stop_name r)
    | None => m !! s
    end.
Proof.
  revert m. induction stops as [|r stops IH]; intros m; simpl; [done|].
  rewrite IH. unfold stop_rows_of. simpl.
  destruct (String.eqb_spec (stop_id r) s) as [<-|Hne].
  - rewrite last_cons. destruct (last _); [done|]. by rewrite lookup_insert_eq.
  - destruct (last _); [done|]. by rewrite lookup_insert_ne.
Qed.

(** [stop_name_map] gives a stop id the name of its last row. *)
Lemma name_map_of_lookup (stops : list stop_row) (s : string) :
  name_map_of stops !! s = table_name stops s.
Proof.
  unfold name_map_of, table_name. rewrite name_map_of_from.
  destruct (last _); [done|]. by rewrite lookup_empty.
Qed.

Lemma init_name_map rows stops self :
  init rows stops = Ok self → stop_name_map self = name_map_of stops.
Proof.
  intros H. destruct (init_spec rows stops) as (self' & H' & Hn & _). congruence.
Qed.

(** The names of the members, as the loop of [get_names_of_stations]
    collects them. *)
Lemma names_loop (self : ComplexesData) (ids acc : list string) :
  foldl (λ station_names stop_id,
           match stop_name_map self !! stop_id with
           | Some name =>
               if truthy name then station_names ++ [name] else station_names
           | None => station_names
           end) acc ids
  = acc ++ omap (listed_name self) ids.
Proof.
  revert acc. induction ids as [|s ids IH]; intros acc; simpl.
  - by rewrite app_nil_r.
  - rewrite IH. unfold listed_name at 2.
    destruct (stop_name_map self !! s) as [name|]; [|done].
    destruct (truthy name); [|done]. by rewrite <- app_assoc.
Qed.

Lemma listed_name_nonempty (self : ComplexesData) (ids : list string) (n : string) :
  n ∈ omap (listed_name self) ids → n ≠ EmptyString.
Proof.
  rewrite list_elem_of_omap. intros (s & _ & H). unfold listed_name in H.
  destruct (stop_name_map self !! s) as [name|]; [|done].
  destruct (truthy name) eqn:E; [|done]. injection H as <-. by apply truthy_true.
Qed.

(** The two fall-backs of a look-up by stop id, on any table. *)
Lemma suffix_lookup_branches (m : gmap string string) (s : string) :
  (true_text (m !! s) →
   (if truthy_opt (m !! s) then Ok (m !! s)
    else c ← index_last s;
         if in_NS c then Ok (m !! drop_last s) else Ok (m !! (s +:+ "N")))
   = Ok (m !! s)) ∧
  (¬ true_text (m !! s) →
   (if truthy_opt (m !! s) then Ok (m !! s)
    else c ← index_last s;
         if in_NS c then Ok (m !! drop_last s) else Ok (m !! (s +:+ "N")))
   = match index_last s with
     | Ok c => if in_NS c then Ok (m !! drop_last s) else Ok (m !! (s +:+ "N"))
     | Raise e => Raise e
     end).
Proof.
  unfold true_text. split.
  - intros (name & -> & Hne). simpl. by apply truthy_true in Hne as ->.
  - intros Hno. destruct (m !! s) as [name|] eqn:E; simpl.
    + destruct name; [done|]. exfalso. apply Hno. by eexists.
    + done.
Qed.

(** X1: once the registry is loaded, a complex id has the station count
    and the member list of the last row of [Complexes.csv] that carries
    it, the members being the pieces between the semicolons with the white
    space around them removed and the empty ones left out; a complex id of
    no row has neither. *)
Theorem complex_info_of_last_row
    (rows : list complex_row) (stops : list stop_row) (self : ComplexesData)
    (c : string) :
  init rows stops = Ok self →
  get_number_of_stations self c
  = row_num_stations <$> last (rows_of rows c) ∧
  get_gtfs_stop_ids_by_complex_id self c
  = (λ row, gtfs_list_of (row_gtfs_stop_ids row)) <$> last (rows_of rows c).
Proof.
  intros Hinit. destruct (init_info rows stops) as (self' & Hinit' & Hinfo).
  rewrite Hinit in Hinit'. injection Hinit' as <-.
  unfold get_number_of_stations, get_gtfs_stop_ids_by_complex_id.
  rewrite Hinfo. by destruct (last (rows_of rows c)).
Qed.

(** Witness of X1: complex 611 of the two-platform example. *)
Lemma complex_info_of_last_row_witness :
  ∃ self,
    init (complexes_csv two_platforms) (complexes_stops_txt two_platforms)
    = Ok self ∧
    get_number_of_stations self "611" = Some 2 ∧
    get_gtfs_stop_ids_by_complex_id self "611" = Some ["127"; "725"].
Proof.
  destruct (init_total (complexes_csv two_platforms)
                       (complexes_stops_txt two_platforms)) as [self Hself].
  exists self. split; [exact Hself|].
  destruct (complex_info_of_last_row _ _ self "611" Hself) as [H1 H2].
  split; [rewrite H1|rewrite H2]; vm_compute; reflexivity.
Defined.

(** A key with a writer, all of whose writers are listed under [c], holds
    [c]. *)
Lemma listed_key_lookup
    (rows : list complex_row) (stops : list stop_row) (self : ComplexesData)
    (k c : string) :
  init rows stops = Ok self →
  (∃ g, registered rows g ∧ writes g k) →
  (∀ g c', registered_in rows g c' → writes g k → c' = c) →
  complex_id_by_gtfs self !! k = Some c.
Proof.
  intros Hinit Hreg Honly.
  destruct (init_spec rows stops) as (self' & Hinit' & _ & Hfrom & Hsome & _).
  rewrite Hinit in Hinit'. injection Hinit' as <-.
  destruct (Hsome k Hreg) as [c' Hc']. rewrite Hc'. f_equal.
  destruct (Hfrom _ _ Hc') as (g & Hg & Hw). by apply (Honly g).
Qed.

(** X2: a key that a listed stop id writes (the id itself, or its stem
    when it ends in N or S), all of whose writers are listed under the one
    complex [c], resolves to [c]; and so does the key with an N or S
    appended, when no listed stop id writes that longer key. *)
Theorem resolve_listed_key
    (rows : list complex_row) (stops : list stop_row) (self : ComplexesData)
    (k c : string) :
  init rows stops = Ok self →
  (∃ g, registered rows g ∧ writes g k) →
  (∀ g c', registered_in rows g c' → writes g k → c' = c) →
  c ≠ EmptyString →
  get_complex_id_by_gtfs_stop_id self k = Ok (Some c) ∧
  ∀ ch, ch = "N"%char ∨ ch = "S"%char →
        (∀ g, registered rows g → ¬ writes g (k +:+ String ch EmptyString)) →
        get_complex_id_by_gtfs_stop_id self (k +:+ String ch EmptyString)
        = Ok (Some c).
Proof.
  intros Hinit Hreg Honly Hc.
  destruct (init_spec rows stops) as (self' & Hinit' & _ & Hfrom & Hsome & _).
  rewrite Hinit in Hinit'. injection Hinit' as <-.
  destruct (resolve_branches self) as (Hexact & Hstrip & _).
  pose proof (listed_key_lookup rows stops self k c Hinit Hreg Honly) as Hk.
  split; [by apply Hexact|]. intros ch Hch Hno.
  rewrite Hstrip; [by rewrite Hk| |done].
  destruct (complex_id_by_gtfs self !! (k +:+ String ch EmptyString))
    as [c'|] eqn:E; [|done].
  destruct (Hfrom _ _ E) as (g & (row & Hrow & _ & Hg) & Hw).
  exfalso. apply (Hno g); [by exists row|done].
Qed.

(** Witness of X2: stop 127 is listed under complex 611 only, and 127N is
    not listed. *)
Lemma resolve_listed_key_witness :
  ∃ self,
    init (complexes_csv two_platforms) (complexes_stops_txt two_platforms)
    = Ok self ∧
    get_complex_id_by_gtfs_stop_id self "127" = Ok (Some "611") ∧
    get_complex_id_by_gtfs_stop_id self "127N" = Ok (Some "611").
Proof.
  destruct (init_total (complexes_csv two_platforms)
                       (complexes_stops_txt two_platforms)) as [self Hself].
  exists self. split; [exact Hself|].
  assert (∀ g, registered (complexes_csv two_platforms) g →
               g ∈ ["127"; "725"; "R16"]) as Hmembers.
  { intros g (row & Hrow & Hg). simpl in Hrow.
    apply elem_of_cons in Hrow as [->|Hrow];
      [|apply list_elem_of_singleton in Hrow as ->];
      vm_compute in Hg; set_solver. }
  destruct (resolve_listed_key _ _ self "127" "611" Hself) as [H1 H2].
  - exists "127". split; [|by left].
    eexists. split; [by apply list_elem_of_here|]. vm_compute.
    by apply list_elem_of_here.
  - intros g c' (row & Hrow & <- & Hg) Hw. simpl in Hrow.
    apply elem_of_cons in Hrow as [->|Hrow]; [done|].
    apply list_elem_of_singleton in Hrow as ->. vm_compute in Hg.
    apply list_elem_of_singleton in Hg as ->.
    by destruct Hw as [?|[?|?]].
  - done.
  - split; [exact H1|]. apply (H2 "N"%char); [by left|].
    intros g Hg%Hmembers Hw.
    repeat (apply elem_of_cons in Hg as [->|Hg]);
      [by destruct Hw as [?|[?|?]]..|by apply elem_of_nil in Hg].
Defined.

Lemma table_name_nonempty (stops : list stop_row) (s n : string) :
  names_present stops → table_name stops s = Some n → n ≠ EmptyString.
Proof.
  unfold names_present, table_name, stop_rows_of. rewrite Forall_forall.
  intros Hall Hn.
  destruct (last _) as [r|] eqn:Hlast; [|done]. injection Hn as <-.
  apply Hall. apply last_Some_elem_of in Hlast.
  by apply list_elem_of_In, filter_In in Hlast as [?%list_elem_of_In _].
Qed.

(** With a name in every row of [stops.txt], the names that count are the
    names of the table. *)
Lemma listed_name_table rows stops self (s : string) :
  init rows stops = Ok self → names_present stops →
  listed_name self s = table_name stops s.
Proof.
  intros Hinit Hnames. unfold listed_name.
  rewrite (init_name_map rows stops self Hinit), name_map_of_lookup.
  destruct (table_name stops s) as [n|] eqn:Hn; [|done].
  apply (table_name_nonempty stops s n Hnames) in Hn.
  by apply truthy_true in Hn as ->.
Qed.

Lemma init_members rows stops self (c : string) :
  init rows stops = Ok self →
  default [] (get_gtfs_stop_ids_by_complex_id self c) = members_of rows c ∧
  (get_gtfs_stop_ids_by_complex_id self c = None → members_of rows c = []).
Proof.
  intros Hinit. destruct (init_info rows stops) as (self' & Hinit' & Hinfo).
  rewrite Hinit in Hinit'. injection Hinit' as <-.
  unfold get_gtfs_stop_ids_by_complex_id, members_of. rewrite Hinfo.
  by destruct (last (rows_of rows c)).
Qed.

(** X3: with a name in every row of [stops.txt], the names of a complex
    are the names [stops.txt] gives the members the registry file lists for
    it, in the order of the member list, a member that [stops.txt] does not
    list left out; they are [None] for a complex without a member.  The
    station name is the first of them, and [Unknown] when there is none; it
    is never the empty text. *)
Theorem station_name_first_listed
    (rows : list complex_row) (stops : list stop_row) (self : ComplexesData)
    (c : string) :
  init rows stops = Ok self →
  names_present stops →
  get_names_of_stations self c
  = match members_of rows c with
    | [] => None
    | _ :: _ => Some (omap (table_name stops) (members_of rows c))
    end ∧
  get_station_name self c
  = default "Unknown" (head (omap (table_name stops) (members_of rows c))) ∧
  get_station_name self c ≠ EmptyString.
Proof.
  intros Hinit Hnames.
  destruct (init_members rows stops self c Hinit) as [Hmembers Hnone].
  assert (∀ ids : list string,
            omap (listed_name self) ids = omap (table_name stops) ids)
    as Homap.
  { intros ids. induction ids as [|s ids IH]; [done|].
    cbn [omap list_omap].
    by rewrite (listed_name_table rows stops self s Hinit Hnames), IH. }
  assert (get_names_of_stations self c
          = match members_of rows c with
            | [] => None
            | _ :: _ => Some (omap (table_name stops) (members_of rows c))
            end) as Hlist.
  { unfold get_names_of_stations. rewrite <- Hmembers.
    destruct (get_gtfs_stop_ids_by_complex_id self c) as [[|s ids]|];
      [done| |done].
    cbn [default]. by rewrite names_loop, Homap. }
  assert (get_station_name self c
          = default "Unknown"
              (head (omap (table_name stops) (members_of rows c)))) as Hname.
  { unfold get_station_name. rewrite Hlist.
    destruct (members_of rows c) as [|s ids]; [done|].
    by destruct (omap (table_name stops) (s :: ids)). }
  split; [done|]. split; [done|]. rewrite Hname.
  destruct (omap (table_name stops) (members_of rows c)) as [|n names] eqn:E;
    [done|]. simpl.
  assert (n ∈ omap (table_name stops) (members_of rows c)) as Hin
    by (rewrite E; apply list_elem_of_here).
  apply list_elem_of_omap in Hin as (s & _ & Hs).
  by apply (table_name_nonempty stops s n Hnames).
Qed.

(** Witness of X3: complex 611 of the two-platform example; [stops.txt]
    names its member 127 and not its member 725. *)
Lemma station_name_first_listed_witness :
  ∃ self,
    init (complexes_csv two_platforms) (complexes_stops_txt two_platforms)
    = Ok self ∧
    get_names_of_stations self "611" = Some ["Times Sq-42 St"] ∧
    get_station_name self "611" = "Times Sq-42 St".
Proof.
  destruct (init_total (complexes_csv two_platforms)
                       (complexes_stops_txt two_platforms)) as [self Hself].
  exists self. split; [exact Hself|].
  destruct (station_name_first_listed _ _ self "611" Hself) as (H1 & H2 & _).
  - unfold names_present. repeat constructor; discriminate.
  - split; [rewrite H1|rewrite H2]; vm_compute; reflexivity.
Defined.

(** X4: with a name in every row of [stops.txt], the name of a stop id
    that [stops.txt] lists is the name of its last row.  For a stop id it
    does not list, an id that ends in N or S gets what [stops.txt] has for
    the id without this letter, any other non-empty id what it has for the
    id with an N appended, and the empty id raises [IndexError]. *)
Theorem station_name_by_stop_id
    (rows : list complex_row) (stops : list stop_row) (self : ComplexesData)
    (s : string) :
  init rows stops = Ok self →
  names_present stops →
  (∀ n, table_name stops s = Some n →
        get_station_name_by_gtfs_id self s = Ok (Some n)) ∧
  (table_name stops s = None →
   (∀ stem ch, s = stem +:+ String ch EmptyString →
               ch = "N"%char ∨ ch = "S"%char →
               get_station_name_by_gtfs_id self s = Ok (table_name stops stem)) ∧
   (∀ stem ch, s = stem +:+ String ch EmptyString →
               ch ≠ "N"%char → ch ≠ "S"%char →
               get_station_name_by_gtfs_id self s
               = Ok (table_name stops (s +:+ "N"))) ∧
   (s = EmptyString → get_station_name_by_gtfs_id self s = Raise IndexError)).
Proof.
  intros Hinit Hnames. unfold get_station_name_by_gtfs_id.
  rewrite (init_name_map rows stops self Hinit).
  destruct (suffix_lookup_branches (name_map_of stops) s) as [Hyes Hno].
  rewrite !name_map_of_lookup in *. split.
  - intros n Hn. rewrite Hyes, Hn; [done|]. exists n. split; [done|].
    by apply (table_name_nonempty stops s n Hnames).
  - intros Hs. rewrite Hno by (rewrite Hs; by intros (n & ? & _)).
    split; [|split].
    + intros stem ch -> Hch. rewrite index_last_snoc.
      apply in_NS_true in Hch as ->. by rewrite drop_last_snoc.
    + intros stem ch -> HN HS. rewrite index_last_snoc.
      destruct (in_NS ch) eqn:E.
      * apply in_NS_true in E as [?|?]; done.
      * done.
    + by intros ->.
Qed.

(** Witness of X4: [stops.txt] names 127, and not 127N. *)
Lemma station_name_by_stop_id_witness :
  ∃ self,
    init (complexes_csv two_platforms) (complexes_stops_txt two_platforms)
    = Ok self ∧
    get_station_name_by_gtfs_id self "127" = Ok (Some "Times Sq-42 St") ∧
    get_station_name_by_gtfs_id self "127N" = Ok (Some "Times Sq-42 St").
Proof.
  destruct (init_total (complexes_csv two_platforms)
                       (complexes_stops_txt two_platforms)) as [self Hself].
  assert (names_present (complexes_stops_txt two_platforms)) as Hnames.
  { unfold names_present. repeat constructor; discriminate. }
  exists self. split; [exact Hself|]. split.
  - destruct (station_name_by_stop_id _ _ self "127" Hself Hnames) as [H _].
    by apply H.
  - destruct (station_name_by_stop_id _ _ self "127N" Hself Hnames) as [_ H].
    destruct H as (H & _ & _); [done|].
    apply (H "127" "N"%char); [done|by left].
Defined.

Lemma writer_rows_snoc (rows : list complex_row) (row : complex_row) (k : string) :
  last (writer_rows (rows ++ [row]) k)
  = if bool_decide (Exists (λ g, writes g k)
                           (gtfs_list_of (row_gtfs_stop_ids row)))
    then Some row else last (writer_rows rows k).
Proof.
  unfold writer_rows. rewrite List.filter_app. simpl.
  case_bool_decide.
  - apply last_snoc.
  - by rewrite app_nil_r.
Qed.

(** What [__init__] leaves in [complex_id_by_gtfs], key by key. *)
Lemma init_table (rows : list complex_row) (stops : list stop_row) :
  ∃ self, init rows stops = Ok self ∧
    ∀ k, complex_id_by_gtfs self !! k
         = row_complex_id <$> last (writer_rows rows k).
Proof.
  unfold init.
  apply (for_each_invariant load_row
    (λ done self, ∀ k, complex_id_by_gtfs self !! k
                       = row_complex_id <$> last (writer_rows done k))).
  - intros k. simpl. by rewrite lookup_empty.
  - intros done row self Hself _.
    destruct (load_row_spec self row) as (self' & Hload & _ & Hk).
    exists self'. split; [done|]. intros k.
    rewrite Hk, writer_rows_snoc, Hself. by case_bool_decide.
Qed.

(** X21: a key written by members of several rows of [Complexes.csv]
    holds the complex id of the last of these rows, and resolves to it
    (when it is not the empty text); a key that no member writes holds
    nothing. *)
Theorem last_listing_wins (rows : list complex_row) (stops : list stop_row) :
  ∃ self, init rows stops = Ok self ∧
    ∀ k, complex_id_by_gtfs self !! k
         = row_complex_id <$> last (writer_rows rows k) ∧
         ∀ row, last (writer_rows rows k) = Some row →
                row_complex_id row ≠ EmptyString →
                get_complex_id_by_gtfs_stop_id self k
                = Ok (Some (row_complex_id row)).
Proof.
  destruct (init_table rows stops) as (self & Hinit & Htable).
  exists self. split; [done|]. intros k. split; [done|]. intros row Hrow Hne.
  destruct (resolve_branches self) as (Hexact & _).
  apply Hexact; [|done]. by rewrite Htable, Hrow.
Qed.

(** Witness of X21: stop 127, listed under 611 and then under 999. *)
Lemma last_listing_wins_witness :
  ∃ self, init listed_twice [] = Ok self ∧
          get_complex_id_by_gtfs_stop_id self "127" = Ok (Some "999") ∧
          get_complex_id_by_gtfs_stop_id self "725" = Ok (Some "611").
Proof.
  destruct (last_listing_wins listed_twice []) as (self & Hinit & H).
  exists self. split; [exact Hinit|]. split.
  - destruct (H "127") as [_ H127].
    apply (H127 {| row_complex_id := "999"; row_num_stations := 1;
                   row_gtfs_stop_ids := "127" |}); [|done].
    vm_compute. reflexivity.
  - destruct (H "725") as [_ H725].
    apply (H725 {| row_complex_id := "611"; row_num_stations := 2;
                   row_gtfs_stop_ids := "127; 725" |}); [|done].
    vm_compute. reflexivity.
Defined.

End RegistryTables.

(** ** Sorting and the GTFS tables *)

Section Sorting.
Import PyStr gtfs.

Lemma insert_sorted_Permutation (x : string) (l : list string) :
  insert_sorted x l ≡ₚ x :: l.
Proof.
  induction l as [|y l IH]; simpl; [done|].
  destruct (x <? y)%string; [done|]. rewrite IH. apply Permutation_swap.
Qed.

Lemma sorted_Permutation (l : list string) : sorted l ≡ₚ l.
Proof.
  unfold sorted. rewrite <- (reverse_Permutation l) at 2.
  induction (reverse l) as [|x l' IH]; simpl; [done|].
  by rewrite insert_sorted_Permutation, IH.
Qed.

Lemma ltb_str_le (x y : string) : (x <? y)%string = true → str_le x y.
Proof. unfold str_le, String.ltb, String.leb. by destruct (x ?= y)%string. Qed.

Lemma not_ltb_str_le (x y : string) : (x <? y)%string = false → str_le y x.
Proof.
  unfold str_le, String.ltb, String.leb. rewrite (String.compare_antisym x y).
  by destruct (y ?= x)%string.
Qed.

Lemma insert_sorted_Sorted (x : string) (l : list string) :
  Sorted str_le l → Sorted str_le (insert_sorted x l).
Proof.
  induction 1 as [|y l Hl IH Hhd]; simpl; [by repeat constructor|].
  destruct (x <? y)%string eqn:E.
  - constructor; [by constructor|]. constructor. by apply ltb_str_le.
  - constructor; [done|]. destruct Hhd as [|z l Hyz]; simpl.
    + constructor. by apply not_ltb_str_le.
    + destruct (x <? z)%string; constructor; [by apply not_ltb_str_le|done].
Qed.

Lemma sorted_Sorted (l : list string) : Sorted str_le (sorted l).
Proof.
  unfold sorted. induction (reverse l) as [|x l' IH]; simpl; [constructor|].
  by apply insert_sorted_Sorted.
Qed.

Lemma insert_by_sequence_Permutation (r : stop_time_row) (l : list stop_time_row) :
  insert_by_sequence r l ≡ₚ r :: l.
Proof.
  induction l as [|r' l IH]; simpl; [done|].
  destruct (stop_sequence r <? stop_sequence r')%Z; [done|].
  rewrite IH. apply Permutation_swap.
Qed.

Lemma sort_values_Permutation (l : list stop_time_row) : sort_values l ≡ₚ l.
Proof.
  unfold sort_values. rewrite <- (reverse_Permutation l) at 2.
  induction (reverse l) as [|x l' IH]; simpl; [done|].
  by rewrite insert_by_sequence_Permutation, IH.
Qed.

Lemma insert_by_sequence_Sorted (r : stop_time_row) (l : list stop_time_row) :
  Sorted by_sequence l → Sorted by_sequence (insert_by_sequence r l).
Proof.
  unfold by_sequence.
  induction 1 as [|y l Hl IH Hhd]; simpl; [by repeat constructor|].
  destruct (Z.ltb_spec (stop_sequence r) (stop_sequence y)).
  - constructor; [by constructor|]. constructor. lia.
  - constructor; [done|]. destruct Hhd as [|z l Hyz]; simpl.
    + constructor. lia.
    + destruct (stop_sequence r <? stop_sequence z)%Z; constructor; [lia|done].
Qed.

Lemma sort_values_Sorted (l : list stop_time_row) :
  Sorted by_sequence (sort_values l).
Proof.
  unfold sort_values. induction (reverse l) as [|x l' IH]; simpl; [constructor|].
  by apply insert_by_sequence_Sorted.
Qed.

Lemma unique_from (l acc : list string) :
  NoDup acc →
  NoDup (foldl (λ acc x, if bool_decide (x ∈ acc) then acc else acc ++ [x]) acc l) ∧
  ∀ x, x ∈ foldl (λ acc x, if bool_decide (x ∈ acc) then acc else acc ++ [x]) acc l
       ↔ x ∈ acc ∨ x ∈ l.
Proof.
  revert acc. induction l as [|y l IH]; intros acc Hacc; simpl.
  - split; [done|]. intros x. rewrite elem_of_nil. naive_solver.
  - case_bool_decide as Hy.
    + destruct (IH acc Hacc) as [Hnd Hin]. split; [done|]. intros x.
      rewrite Hin, elem_of_cons. naive_solver.
    + destruct (IH (acc ++ [y])) as [Hnd Hin].
      { apply NoDup_app. split; [done|]. split; [|apply NoDup_singleton].
        intros x Hx ->%list_elem_of_singleton. done. }
      split; [done|]. intros x.
      rewrite Hin, elem_of_app, list_elem_of_singleton, elem_of_cons. naive_solver.
Qed.

Lemma elem_of_unique (l : list string) (x : string) : x ∈ unique l ↔ x ∈ l.
Proof.
  unfold unique. destruct (unique_from l [] (NoDup_nil_2)) as [_ H].
  rewrite H, elem_of_nil. naive_solver.
Qed.

Lemma NoDup_unique (l : list string) : NoDup (unique l).
Proof. unfold unique. by destruct (unique_from l [] (NoDup_nil_2)) as [H _]. Qed.

(** [idxmax] returns a label of a largest value. *)
Lemma idxmax_spec (best : string * nat) (l : list (string * nat)) :
  ∃ n, (idxmax best l, n) ∈ best :: l ∧
       ∀ kn, kn ∈ best :: l → (kn.2 ≤ n)%nat.
Proof.
  revert best. induction l as [|kn l IH]; intros best; simpl.
  - exists best.2. split; [destruct best; apply list_elem_of_here|].
    intros kn ->%list_elem_of_singleton. done.
  - destruct (IH (if (best.2 <? kn.2)%nat then kn else best)) as (n & Hin & Hmax).
    exists n. split.
    + apply elem_of_cons in Hin as [Hin|Hin].
      * rewrite Hin. destruct (best.2 <? kn.2)%nat; set_solver.
      * set_solver.
    + intros x Hx.
      assert ((if (best.2 <? kn.2)%nat then kn else best).2 ≤ n)%nat as Hb.
      { apply Hmax. apply list_elem_of_here. }
      destruct (Nat.ltb_spec best.2 kn.2);
        apply elem_of_cons in Hx as [->|[->|Hx]%elem_of_cons];
        try lia; apply Hmax; by apply list_elem_of_further.
Qed.

(** Keeping the rows of some trips keeps all the rows of each of them. *)
Lemma query_stop_times_kept (stop_times : list stop_time_row)
    (trip_ids : list string) (t : string) :
  t ∈ trip_ids →
  query_stop_times
    (List.filter (λ r, bool_decide (st_trip_id r ∈ trip_ids)) stop_times) t
  = query_stop_times stop_times t.
Proof.
  intros Ht. unfold query_stop_times.
  induction stop_times as [|r l IH]; simpl; [done|].
  case_bool_decide as Hr; simpl.
  - by rewrite IH.
  - destruct (String.eqb_spec (st_trip_id r) t) as [Heq|Hne]; [|done].
    by rewrite Heq in Hr.
Qed.

Lemma query_stop_times_nil (stop_times : list stop_time_row) (t : string) :
  t ∉ map st_trip_id stop_times → query_stop_times stop_times t = [].
Proof.
  unfold query_stop_times. induction stop_times as [|r l IH]; simpl; [done|].
  rewrite not_elem_of_cons. intros [Hne Hl].
  destruct (String.eqb_spec (st_trip_id r) t); [done|]. by apply IH.
Qed.

(** X5: for a route other than A and 4, [SubwayGraph.ordered_stops] gives
    the stops of the first trip of the route and direction in [trips.txt]:
    all the rows [stop_times.txt] has for this trip, each once, in
    ascending [stop_sequence]. *)
Theorem ordered_stops_first_trip (cls : cls_state)
    (trips : list trip_row) (stop_times : list stop_time_row)
    (route : string) (direction : Z) (t : string) (rest : list string) :
  _trips cls = Some trips → _stop_times cls = Some stop_times →
  route ≠ "A" → route ≠ "4" →
  map trip_id (query_trips trips route direction) = t :: rest →
  ∃ rows, SubwayGraph.ordered_stops cls route direction
          = Ok (map st_stop_id rows) ∧
          rows ≡ₚ query_stop_times stop_times t ∧
          Sorted by_sequence rows.
Proof.
  intros Ht Hs HA H4 Hfirst. unfold SubwayGraph.ordered_stops.
  destruct (String.eqb_spec route "A") as [?|_]; [done|].
  destruct (String.eqb_spec route "4") as [?|_]; [done|].
  cbn [orb]. rewrite Ht. cbn [attr mbind result_bind]. rewrite Hfirst, Hs.
  cbn [iloc0 attr mbind result_bind].
  exists (sort_values (query_stop_times stop_times t)).
  split; [done|]. split; [apply sort_values_Permutation|apply sort_values_Sorted].
Qed.

(** Witness of X5: route L of the two-platform example. *)
Lemma ordered_stops_first_trip_witness :
  ∃ rows, SubwayGraph.ordered_stops (tables_of two_platforms) "L" 0
          = Ok (map st_stop_id rows) ∧
          rows ≡ₚ query_stop_times (stop_times_txt two_platforms) "t1" ∧
          Sorted by_sequence rows.
Proof.
  apply (ordered_stops_first_trip (tables_of two_platforms)
           (trips_txt two_platforms) (stop_times_txt two_platforms)
           "L" 0 "t1" []); reflexivity || discriminate.
Defined.

(** X6: for the routes A and 4, [SubwayGraph.ordered_stops] gives the
    stops of a trip of the route and direction that has the most rows in
    [stop_times.txt]: no trip of the route and direction has more rows
    than the result has stops, and the result, when it is not empty, is
    the rows of one such trip, each once, in ascending [stop_sequence].
    It never raises, also when the route has no trip. *)
Theorem ordered_stops_longest_trip (cls : cls_state)
    (trips : list trip_row) (stop_times : list stop_time_row)
    (route : string) (direction : Z) :
  _trips cls = Some trips → _stop_times cls = Some stop_times →
  route = "A" ∨ route = "4" →
  ∃ stops, SubwayGraph.ordered_stops cls route direction = Ok stops ∧
    (∀ t, t ∈ map trip_id (query_trips trips route direction) →
          (length (query_stop_times stop_times t) ≤ length stops)%nat) ∧
    (stops = [] ∨
     ∃ t rows, t ∈ map trip_id (query_trips trips route direction) ∧
               stops = map st_stop_id rows ∧
               rows ≡ₚ query_stop_times stop_times t ∧
               Sorted by_sequence rows).
Proof.
  intros Ht Hs Hroute. unfold SubwayGraph.ordered_stops.
  assert (String.eqb route "A" || String.eqb route "4" = true) as ->.
  { destruct Hroute as [-> | ->]; reflexivity. }
  rewrite Ht, Hs. simpl.
  set (trip_ids := map trip_id (query_trips trips route direction)).
  set (kept := List.filter (λ r, bool_decide (st_trip_id r ∈ trip_ids)) stop_times).
  assert (∀ t, t ∈ map st_trip_id kept → t ∈ trip_ids) as Hkept.
  { intros t (r & -> & Hr)%list_elem_of_fmap.
    apply list_elem_of_In, filter_In in Hr as [_ Hr].
    by apply bool_decide_eq_true in Hr. }
  assert (∀ t, (t, length (query_stop_times kept t)) ∈ groupby_size kept
               ∨ query_stop_times kept t = []) as Hcount.
  { intros t. destruct (decide (t ∈ map st_trip_id kept)) as [Hin|Hout].
    - left. unfold groupby_size.
      apply (list_elem_of_fmap_2 (λ k, (k, length (query_stop_times kept k)))).
      by apply elem_of_sorted, elem_of_unique.
    - right. by apply query_stop_times_nil. }
  destruct (groupby_size kept) as [|first others] eqn:Hsize.
  - eexists. split; [done|]. split; [|by left]. intros t Hin.
    rewrite <- (query_stop_times_kept stop_times trip_ids t Hin). fold kept.
    destruct (Hcount t) as [H|H]; [by apply elem_of_nil in H|by rewrite H].
  - destruct (idxmax_spec first others) as (n & Hbest & Hmax).
    set (best := idxmax first others) in *.
    assert (n = length (query_stop_times kept best) ∧ best ∈ trip_ids) as [Hn Hb].
    { rewrite <- Hsize in Hbest. unfold groupby_size in Hbest.
      apply list_elem_of_fmap in Hbest as (k & [= Hk ->] & Hin).
      subst k. split; [done|]. by apply Hkept, elem_of_unique, elem_of_sorted. }
    eexists. split; [done|]. split.
    + intros t Hin. rewrite length_map, (Permutation_length (sort_values_Permutation _)).
      rewrite <- Hn, <- (query_stop_times_kept stop_times trip_ids t Hin). fold kept.
      destruct (Hcount t) as [H|H]; [apply (Hmax _ H)|rewrite H; simpl; lia].
    + right. exists best, (sort_values (query_stop_times kept best)).
      split; [done|]. split; [done|]. split; [|apply sort_values_Sorted].
      rewrite sort_values_Permutation. unfold kept.
      by rewrite query_stop_times_kept.
Qed.

(** Witness of X6: route A with a short trip listed before a longer one. *)
Lemma ordered_stops_longest_trip_witness :
  ∃ stops, SubwayGraph.ordered_stops (tables_of short_and_long) "A" 0 = Ok stops ∧
    (length (query_stop_times (stop_times_txt short_and_long) "short")
     ≤ length stops)%nat.
Proof.
  destruct (ordered_stops_longest_trip (tables_of short_and_long)
              (trips_txt short_and_long) (stop_times_txt short_and_long) "A" 0)
    as (stops & Hstops & Hlen & _); [reflexivity|reflexivity|by left|].
  exists stops. split; [exact Hstops|]. apply Hlen. vm_compute.
  apply list_elem_of_here.
Defined.

End Sorting.

(** ** The graphs the build loop goes through *)

Section BuildStates.
Implicit Types (g : nx.graph) (u v a b n c route : string)
  (ids l : list string) (cx : complexes.ComplexesData).

Lemma add_node_has_node g c x n :
  nx.has_node (nx.add_node g c x) n = nx.has_node g n || String.eqb c n.
Proof.
  unfold nx.has_node, ODict.mem, nx.add_node. simpl. rewrite odict_get_set.
  destruct (String.eqb c n); [by rewrite orb_true_r|by rewrite orb_false_r].
Qed.

Lemma add_node_entry g c x n :
  nx.has_node g c = false →
  ODict.get (nx.entries (nx.add_node g c x)) n
  = if String.eqb c n then Some {| nx.attrs := Some x; nx.adj := [] |}
    else ODict.get (nx.entries g) n.
Proof.
  unfold nx.has_node, ODict.mem, nx.add_node. simpl. rewrite odict_get_set.
  by destruct (ODict.get (nx.entries g) c).
Qed.

Lemma add_node_nodes g c x :
  nx.has_node g c = false → nx.nodes (nx.add_node g c x) = nx.nodes g ++ [c].
Proof.
  intros Hc. unfold nx.nodes, nx.add_node. simpl. rewrite odict_keys_set.
  unfold nx.has_node in Hc. by rewrite Hc.
Qed.

Lemma add_nodes_has_node cx g ids n :
  nx.has_node (add_nodes cx g ids) n = true
  ↔ nx.has_node g n = true ∨ n ∈ ids.
Proof.
  unfold add_nodes. revert g. induction ids as [|c ids IH]; intros g; simpl.
  - rewrite elem_of_nil. naive_solver.
  - rewrite IH, elem_of_cons. destruct (nx.has_node g c) eqn:E.
    + split; [naive_solver|]. intros [?|[->|?]]; auto.
    + rewrite add_node_has_node, orb_true_iff.
      destruct (String.eqb_spec c n); naive_solver.
Qed.

Lemma add_nodes_build_state cx empty g ids :
  build_state cx empty g → build_state cx empty (add_nodes cx g ids).
Proof.
  intros Hg. unfold add_nodes.
  apply (foldl_invariant (build_state cx empty)); [|done].
  intros g1 c _ H1. destruct (nx.has_node g1 c) eqn:E; [done|].
  by apply (build_node cx empty g1 c).
Qed.

Lemma add_or_update_edge_has_node route g u v n :
  nx.has_node g u = true → nx.has_node g v = true →
  nx.has_node (add_or_update_edge route g u v) n = nx.has_node g n.
Proof.
  intros Hu Hv. unfold add_or_update_edge.
  destruct (nx.edge_lines g u v).
  - case_bool_decide; [done|apply set_lines_has_node].
  - rewrite add_edge_has_node.
    destruct (String.eqb_spec u n) as [<-|_]; [by rewrite Hu|].
    destruct (String.eqb_spec v n) as [<-|_]; [by rewrite Hv|].
    by rewrite !orb_false_r.
Qed.

(** An edge step between two nodes leaves the graph, or assigns the edge
    a line list that names no route twice. *)
Lemma add_or_update_edge_cases route g u v :
  nx.has_node g u = true → nx.has_node g v = true → lines_once g →
  add_or_update_edge route g u v = g
  ∨ ∃ l, add_or_update_edge route g u v = nx.set_lines g u v l ∧ NoDup l.
Proof.
  intros Hu Hv Honce. unfold add_or_update_edge.
  destruct (nx.edge_lines g u v) as [l|] eqn:E.
  - case_bool_decide as Hin; [by left|]. right. exists (l ++ [route]).
    split; [done|]. apply NoDup_app. split; [by apply (Honce u v)|].
    split; [|apply NoDup_singleton].
    intros x Hx ->%list_elem_of_singleton. done.
  - right. exists [route]. split; [|apply NoDup_singleton].
    unfold nx.add_edge. rewrite (ensure_node_present g u Hu).
    by rewrite (ensure_node_present g v Hv).
Qed.

Lemma subway_add_edges_build_state cx empty route g ids :
  build_state cx empty g → (∀ c, c ∈ ids → nx.has_node g c = true) →
  build_state cx empty (SubwayGraph.add_edges route g ids) ∧
  ∀ n, nx.has_node (SubwayGraph.add_edges route g ids) n = nx.has_node g n.
Proof.
  intros Hg Hids. unfold SubwayGraph.add_edges.
  apply (foldl_invariant
    (λ g', build_state cx empty g' ∧ ∀ n, nx.has_node g' n = nx.has_node g n));
    [|done].
  intros g1 i Hi%elem_of_seq H1.
  apply (foldl_invariant
    (λ g', build_state cx empty g' ∧ ∀ n, nx.has_node g' n = nx.has_node g n));
    [|done].
  intros g2 j Hj%elem_of_seq [H2 Hn2].
  assert (nx.has_node g2 (ids !!! i) = true) as Hu.
  { rewrite Hn2. apply Hids, list_elem_of_lookup_total_2. lia. }
  assert (nx.has_node g2 (ids !!! j) = true) as Hv.
  { rewrite Hn2. apply Hids, list_elem_of_lookup_total_2. lia. }
  split; [by apply build_edge|].
  intros n. by rewrite add_or_update_edge_has_node, Hn2.
Qed.

Lemma complex_add_edges_build_state cx empty route g ids :
  build_state cx empty g → (∀ c, c ∈ ids → nx.has_node g c = true) →
  build_state cx empty (MTAComplexGraph.add_edges route g ids) ∧
  ∀ n, nx.has_node (MTAComplexGraph.add_edges route g ids) n = nx.has_node g n.
Proof.
  intros Hg Hids. unfold MTAComplexGraph.add_edges.
  apply (foldl_invariant
    (λ g', build_state cx empty g' ∧ ∀ n, nx.has_node g' n = nx.has_node g n));
    [|done].
  intros g2 i Hi%elem_of_seq [H2 Hn2].
  assert (nx.has_node g2 (ids !!! i) = true) as Hu.
  { rewrite Hn2. apply Hids, list_elem_of_lookup_total_2. lia. }
  assert (nx.has_node g2 (ids !!! (i + 1)%nat) = true) as Hv.
  { rewrite Hn2. apply Hids, list_elem_of_lookup_total_2. lia. }
  split; [by apply build_edge|].
  intros n. by rewrite add_or_update_edge_has_node, Hn2.
Qed.

Lemma subway_process_steps cls cx g route direction :
  _complexes cls = Some cx →
  SubwayGraph.process cls g route direction
  = (ids ← SubwayGraph.complex_ids_of cls route direction;
     Ok (SubwayGraph.add_edges route (add_nodes cx g ids) ids)).
Proof.
  intros Hcx. unfold SubwayGraph.process, SubwayGraph.complex_ids_of.
  destruct (SubwayGraph.ordered_stops cls route direction); [|done]. simpl.
  rewrite Hcx. simpl. by destruct (to_complex_ids cx _).
Qed.

Lemma complex_process_steps cls cx g route direction :
  _complexes cls = Some cx →
  MTAComplexGraph.process cls g route direction
  = (ids ← MTAComplexGraph.complex_ids_of cls route direction;
     Ok (MTAComplexGraph.add_edges route (add_nodes cx g ids) ids)).
Proof.
  intros Hcx. unfold MTAComplexGraph.process, MTAComplexGraph.complex_ids_of.
  destruct (MTAComplexGraph.ordered_stops cls route direction); [|done]. simpl.
  rewrite Hcx. simpl. by destruct (to_complex_ids cx _).
Qed.

(** A loop whose steps each add what [R] says adds the union. *)
Lemma foldl_union {X S T : Type} (I : S → Prop) (M : S → T → Prop)
    (f : S → X → S) (R : X → T → Prop) (xs : list X) (s : S) :
  (∀ s x, x ∈ xs → I s → I (f s x) ∧ ∀ t, M (f s x) t ↔ M s t ∨ R x t) →
  I s →
  I (foldl f s xs) ∧ ∀ t, M (foldl f s xs) t ↔ M s t ∨ ∃ x, x ∈ xs ∧ R x t.
Proof.
  revert s. induction xs as [|x xs IH]; intros s Hstep Hs; simpl.
  - split; [done|]. intros t. split; [by left|].
    intros [H|(x & Hx & _)]; [done|]. by apply elem_of_nil in Hx.
  - destruct (Hstep s x) as [H1 HM1]; [by left|done|].
    destruct (IH (f s x)) as [H2 HM2]; [|done|].
    { intros s' x' Hx'. apply Hstep. by right. }
    split; [done|]. intros t. rewrite HM2, HM1.
    setoid_rewrite elem_of_cons. naive_solver.
Qed.

Lemma for_routes_union {T : Type} (I : nx.graph → Prop) (M : nx.graph → T → Prop)
    (body : nx.graph → string → Z → result nx.graph)
    (R : string → Z → T → Prop) (routes : list string) g :
  (∀ g route direction, I g →
     match body g route direction with
     | Ok g' => I g' ∧ ∀ t, M g' t ↔ M g t ∨ R route direction t
     | Raise _ => ∀ t, ¬ R route direction t
     end) →
  I g →
  I (for_routes body routes g) ∧
  ∀ t, M (for_routes body routes g) t
       ↔ M g t ∨ ∃ route direction, route ∈ routes ∧ direction ∈ [0; 1]
                                     ∧ R route direction t.
Proof.
  intros Hbody Hg. unfold for_routes.
  destruct (foldl_union I M
    (λ g route, foldl (λ g direction,
                         match body g route direction with
                         | Ok g' => g'
                         | Raise _ => g
                         end) g [0; 1])
    (λ route t, ∃ direction, direction ∈ [0; 1] ∧ R route direction t)
    routes g) as [H HM]; [|done|].
  - intros g1 route _ H1.
    apply (foldl_union I M
      (λ g direction, match body g route direction with
                      | Ok g' => g'
                      | Raise _ => g
                      end)
      (λ direction t, R route direction t)); [|done].
    intros g2 direction _ H2. specialize (Hbody g2 route direction H2).
    destruct (body g2 route direction) as [g3|e]; [done|].
    split; [done|]. intros t. split; [by left|].
    intros [?|HR]; [done|]. by apply Hbody in HR.
  - split; [done|]. intros t. rewrite HM. naive_solver.
Qed.

Section Loop.
Variable cx : complexes.ComplexesData.
Variable empty : nx.graph.
Variable ids_of : string → Z → result (list string).
Variable add_edges : string → nx.graph → list string → nx.graph.
Variable process : nx.graph → string → Z → result nx.graph.
Hypothesis add_edges_build_state : ∀ route g ids,
  build_state cx empty g → (∀ c, c ∈ ids → nx.has_node g c = true) →
  build_state cx empty (add_edges route g ids) ∧
  ∀ n, nx.has_node (add_edges route g ids) n = nx.has_node g n.
Hypothesis process_steps : ∀ g route direction,
  process g route direction
  = (ids ← ids_of route direction;
     Ok (add_edges route (add_nodes cx g ids) ids)).

(** The loop over the routes goes through build states, and its nodes are
    the complex ids of the sequences it processed. *)
Lemma for_routes_build_state (routes : list string) :
  build_state cx empty (for_routes process routes empty) ∧
  ∀ n, nx.has_node (for_routes process routes empty) n = true
       ↔ nx.has_node empty n = true
         ∨ ∃ route direction, route ∈ routes ∧ direction ∈ [0; 1] ∧
             ∃ ids, ids_of route direction = Ok ids ∧ n ∈ ids.
Proof.
  apply (for_routes_union (build_state cx empty)
           (λ g n, nx.has_node g n = true) process
           (λ route direction n, ∃ ids, ids_of route direction = Ok ids ∧ n ∈ ids));
    [|constructor].
  intros g route direction Hg. rewrite process_steps.
  destruct (ids_of route direction) as [ids|e]; simpl.
  - destruct (add_edges_build_state route (add_nodes cx g ids) ids) as [H Hn].
    + by apply add_nodes_build_state.
    + intros c Hc. apply add_nodes_has_node. by right.
    + split; [done|]. intros n. rewrite Hn, add_nodes_has_node.
      split; (intros [?|Hr]; [by left|right]).
      * by exists ids.
      * destruct Hr as (ids' & [= <-] & Hin). done.
  - intros n (ids & ? & _). done.
Qed.
End Loop.

(** *** What the steps keep *)

Lemma set_adj_entry g u v l n :
  ODict.get (nx.entries (nx.set_adj g u v l)) n
  = (λ e, if String.eqb u n
          then {| nx.attrs := nx.attrs e; nx.adj := ODict.set (nx.adj e) v l |}
          else e) <$> ODict.get (nx.entries g) n.
Proof.
  unfold nx.set_adj. destruct (ODict.get (nx.entries g) u) as [e|] eqn:E; simpl.
  - rewrite odict_get_set. destruct (String.eqb_spec u n) as [<-|_].
    + by rewrite E.
    + by destruct (ODict.get (nx.entries g) n).
  - destruct (String.eqb_spec u n) as [<-|_].
    + by rewrite E.
    + by destruct (ODict.get (nx.entries g) n).
Qed.

Lemma set_adj_nodes g u v l : nx.nodes (nx.set_adj g u v l) = nx.nodes g.
Proof.
  unfold nx.set_adj, nx.nodes.
  destruct (ODict.get (nx.entries g) u) as [e|] eqn:E; [|done]. simpl.
  rewrite odict_keys_set. unfold ODict.mem. by rewrite E.
Qed.

Lemma odict_set_NoDup {V : Type} (d : ODict.t V) (k : string) (x : V) :
  NoDup (ODict.keys d) → NoDup (ODict.keys (ODict.set d k x)).
Proof.
  rewrite odict_keys_set. destruct (ODict.mem d k) eqn:E; [done|].
  intros H. apply NoDup_app. split; [done|]. split; [|apply NoDup_singleton].
  intros y Hy ->%list_elem_of_singleton. apply odict_mem_keys in Hy. congruence.
Qed.

Lemma set_adj_keys_once g u v l : keys_once g → keys_once (nx.set_adj g u v l).
Proof.
  intros [Hn Ha]. split; [by rewrite set_adj_nodes|]. intros n e.
  rewrite set_adj_entry.
  destruct (ODict.get (nx.entries g) n) as [e0|] eqn:E; [|done]. simpl.
  intros [= <-]. destruct (String.eqb u n); [simpl; apply odict_set_NoDup|];
    by apply (Ha n).
Qed.

Lemma set_adj_attrs cx g u v l :
  attrs_of_registry cx g → attrs_of_registry cx (nx.set_adj g u v l).
Proof.
  intros Ha n e. rewrite set_adj_entry.
  destruct (ODict.get (nx.entries g) n) as [e0|] eqn:E; [|done]. simpl.
  intros [= <-]. destruct (String.eqb u n); simpl; by apply (Ha n).
Qed.

Lemma set_lines_keys_once g u v l : keys_once g → keys_once (nx.set_lines g u v l).
Proof.
  intros H. unfold nx.set_lines.
  destruct (nx.directed _); by repeat apply set_adj_keys_once.
Qed.

Lemma set_lines_attrs cx g u v l :
  attrs_of_registry cx g → attrs_of_registry cx (nx.set_lines g u v l).
Proof.
  intros H. unfold nx.set_lines.
  destruct (nx.directed _); by repeat apply set_adj_attrs.
Qed.

Lemma set_lines_closed g u v l :
  nx.has_node g u = true → nx.has_node g v = true →
  closed g → closed (nx.set_lines g u v l).
Proof.
  intros Hu Hv Hc a b l'. rewrite set_lines_edge_lines, set_lines_has_node by done.
  case_bool_decide as Hab; [|apply Hc].
  intros _. by destruct Hab as [[_ ->]|(_ & _ & ->)].
Qed.

Lemma set_lines_lines_once g u v l :
  nx.has_node g u = true → nx.has_node g v = true → NoDup l →
  lines_once g → lines_once (nx.set_lines g u v l).
Proof.
  intros Hu Hv Hl Ho a b l'. rewrite set_lines_edge_lines by done.
  case_bool_decide; [by intros [= <-]|apply Ho].
Qed.

Lemma add_node_well_built cx g c :
  nx.has_node g c = false → well_built cx g →
  well_built cx (nx.add_node g c (node_attrs_of cx c)).
Proof.
  intros Hc ([Hsym Hne] & [Hn Ha] & Hcl & Hat & Ho).
  split; [split|split; [split|split; [|split]]].
  - intros Hd a b. rewrite add_node_directed in Hd.
    rewrite !add_node_edge_lines. by apply Hsym.
  - intros a b l. rewrite add_node_edge_lines. apply Hne.
  - rewrite add_node_nodes by done. apply NoDup_app. split; [done|].
    split; [|apply NoDup_singleton].
    intros y Hy ->%list_elem_of_singleton.
    apply odict_mem_keys in Hy. unfold nx.has_node in Hc. congruence.
  - intros n e. rewrite add_node_entry by done.
    destruct (String.eqb c n); [|apply Ha]. intros [= <-]. constructor.
  - intros a b l. rewrite add_node_edge_lines, add_node_has_node.
    intros H. by rewrite (Hcl a b l H).
  - intros n e. rewrite add_node_entry by done.
    destruct (String.eqb_spec c n) as [->|_]; [|apply Hat]. by intros [= <-].
  - intros a b l. rewrite add_node_edge_lines. apply Ho.
Qed.

Lemma add_or_update_edge_well_built cx route g u v :
  nx.has_node g u = true → nx.has_node g v = true → well_built cx g →
  well_built cx (add_or_update_edge route g u v).
Proof.
  intros Hu Hv (Hedge & Hk & Hcl & Hat & Ho).
  destruct (add_or_update_edge_spec route g u v Hedge) as (_ & Hedge' & _).
  split; [done|].
  destruct (add_or_update_edge_cases route g u v Hu Hv Ho) as [->|(l & -> & Hl)];
    [done|].
  split; [by apply set_lines_keys_once|].
  split; [by apply set_lines_closed|].
  split; [by apply set_lines_attrs|by apply set_lines_lines_once].
Qed.

Lemma build_state_well_built cx empty g :
  well_built cx empty → build_state cx empty g →
  well_built cx g ∧ nx.directed g = nx.directed empty.
Proof.
  intros Hempty. induction 1 as [|g c Hg [IH IHd] Hc|route g u v Hg [IH IHd] Hu Hv].
  - done.
  - split; [by apply add_node_well_built|]. by rewrite add_node_directed.
  - split; [by apply add_or_update_edge_well_built|].
    destruct IH as [Hedge _].
    destruct (add_or_update_edge_spec route g u v Hedge) as (Hd & _). congruence.
Qed.

Lemma well_built_empty cx (d : bool) :
  well_built cx {| nx.directed := d; nx.entries := [] |}.
Proof.
  split; [split|split; [split|split; [|split]]]; try done.
  apply NoDup_nil_2.
Qed.

Lemma map_lines_entry (f : list string → list string) g n :
  ODict.get (nx.entries (nx.map_lines f g)) n
  = (λ e, {| nx.attrs := nx.attrs e; nx.adj := ODict.map_values f (nx.adj e) |})
      <$> ODict.get (nx.entries g) n.
Proof. unfold nx.map_lines. simpl. apply odict_get_map_values. Qed.

(** The sorting pass keeps all of it, and leaves every line list sorted. *)
Lemma well_built_sorted cx g :
  well_built cx g →
  well_built cx (nx.map_lines PyStr.sorted g) ∧
  lines_sorted (nx.map_lines PyStr.sorted g).
Proof.
  intros ([Hsym Hne] & [Hn Ha] & Hcl & Hat & Ho).
  split; [split; [split|split; [split|split; [|split]]]|].
  - intros Hd a b. rewrite !map_lines_edge_lines. by rewrite (Hsym Hd a b).
  - intros a b l. rewrite map_lines_edge_lines.
    destruct (nx.edge_lines g a b) as [l0|] eqn:E; [|done]. simpl.
    intros [= <-] Hnil. apply (Hne a b l0 E).
    apply Permutation_nil. by rewrite <- Hnil, sorted_Permutation.
  - unfold nx.nodes, nx.map_lines. simpl. by rewrite odict_keys_map_values.
  - intros n e. rewrite map_lines_entry.
    destruct (ODict.get (nx.entries g) n) as [e0|] eqn:E; [|done]. simpl.
    intros [= <-]. simpl. rewrite odict_keys_map_values. by apply (Ha n).
  - intros a b l. rewrite map_lines_edge_lines, map_lines_has_node.
    destruct (nx.edge_lines g a b) as [l0|] eqn:E; [|done]. intros _.
    by apply (Hcl a b l0).
  - intros n e. rewrite map_lines_entry.
    destruct (ODict.get (nx.entries g) n) as [e0|] eqn:E; [|done]. simpl.
    intros [= <-]. simpl. by apply Hat.
  - intros a b l. rewrite map_lines_edge_lines.
    destruct (nx.edge_lines g a b) as [l0|] eqn:E; [|done]. simpl.
    intros [= <-]. rewrite sorted_Permutation. by apply (Ho a b).
  - intros a b l. rewrite map_lines_edge_lines.
    destruct (nx.edge_lines g a b) as [l0|] eqn:E; [|done]. simpl.
    intros [= <-]. apply sorted_Sorted.
Qed.

(** *** The graph a build leaves *)

Lemma load_registry (src : sources) cls0 cls1 :
  load src cls0 = Ok cls1 →
  ∃ cx, complexes.init (complexes_csv src) (complexes_stops_txt src) = Ok cx ∧
        cls1 = {| G := G cls0; _stops := Some (stops_txt src);
                  _trips := Some (trips_txt src);
                  _stop_times := Some (stop_times_txt src);
                  _complexes := Some cx |}.
Proof.
  unfold load. destruct (complexes.init _ _) as [cx|]; [|done]. simpl.
  intros [= <-]. by exists cx.
Qed.

(** The graph of [SubwayGraph.build_graph]: directed, well built, its line
    lists sorted, its nodes the complex ids of the processed sequences. *)
Lemma subway_built (src : sources) cls0 cls g :
  SubwayGraph.build_graph src cls0 = Ok cls → G cls = Some g →
  ∃ cx, _complexes cls = Some cx ∧
    complexes.init (complexes_csv src) (complexes_stops_txt src) = Ok cx ∧
    nx.directed g = true ∧ well_built cx g ∧ lines_sorted g ∧
    ∀ n, nx.has_node g n = true
         ↔ ∃ route direction ids, in_build_loop src route direction ∧
             SubwayGraph.complex_ids_of cls route direction = Ok ids ∧ n ∈ ids.
Proof.
  unfold SubwayGraph.build_graph.
  destruct (load src cls0) as [cls1|] eqn:Hload; [|done]. simpl.
  destruct (load_registry src cls0 cls1 Hload) as (cx & Hcx & ->).
  set (cls1 := {| G := G cls0; _stops := Some (stops_txt src);
                  _trips := Some (trips_txt src);
                  _stop_times := Some (stop_times_txt src);
                  _complexes := Some cx |}).
  intros [= <-] [= <-]. exists cx. split; [done|]. split; [done|].
  destruct (for_routes_build_state cx nx.DiGraph
              (SubwayGraph.complex_ids_of cls1) SubwayGraph.add_edges
              (SubwayGraph.process cls1)
              (subway_add_edges_build_state cx nx.DiGraph)
              (λ g r d, subway_process_steps cls1 cx g r d eq_refl)
              (gtfs.unique (map gtfs.route_id (trips_txt src))))
    as [Hstate Hnodes].
  destruct (build_state_well_built cx nx.DiGraph _ (well_built_empty cx true) Hstate)
    as [Hwb Hd].
  destruct (well_built_sorted cx _ Hwb) as [Hwb' Hsorted].
  split; [exact Hd|]. split; [done|]. split; [done|].
  intros n. rewrite map_lines_has_node, Hnodes. unfold in_build_loop.
  change (SubwayGraph.complex_ids_of (set_G cls1 _))
    with (SubwayGraph.complex_ids_of cls1).
  split.
  - intros [?|(route & direction & Hr & Hdir & ids & Hids & Hn)]; [done|].
    by exists route, direction, ids.
  - intros (route & direction & ids & [Hr Hdir] & Hids & Hn). right.
    exists route, direction. split; [done|]. split; [done|]. by exists ids.
Qed.

(** The graph of [MTAComplexGraph.build_graph]: undirected, well built,
    its line lists sorted. *)
Lemma complex_built (src : sources) cls0 cls g :
  MTAComplexGraph.build_graph src cls0 = Ok cls → G cls = Some g →
  ∃ cx, _complexes cls = Some cx ∧
    complexes.init (complexes_csv src) (complexes_stops_txt src) = Ok cx ∧
    nx.directed g = false ∧ well_built cx g ∧ lines_sorted g.
Proof.
  unfold MTAComplexGraph.build_graph.
  destruct (load src cls0) as [cls1|] eqn:Hload; [|done]. simpl.
  destruct (load_registry src cls0 cls1 Hload) as (cx & Hcx & ->).
  set (cls1 := {| G := G cls0; _stops := Some (stops_txt src);
                  _trips := Some (trips_txt src);
                  _stop_times := Some (stop_times_txt src);
                  _complexes := Some cx |}).
  intros [= <-] [= <-]. exists cx. split; [done|]. split; [done|].
  destruct (for_routes_build_state cx nx.Graph
              (MTAComplexGraph.complex_ids_of cls1) MTAComplexGraph.add_edges
              (MTAComplexGraph.process cls1)
              (complex_add_edges_build_state cx nx.Graph)
              (λ g r d, complex_process_steps cls1 cx g r d eq_refl)
              (gtfs.unique (map gtfs.route_id (trips_txt src))))
    as [Hstate _].
  destruct (build_state_well_built cx nx.Graph _ (well_built_empty cx false) Hstate)
    as [Hwb Hd].
  destruct (well_built_sorted cx _ Hwb) as [Hwb' Hsorted].
  split; [exact Hd|]. by split.
Qed.

End BuildStates.

(** ** Queries on a built graph *)

Section BuiltQueries.
Implicit Types (g : nx.graph) (cls : cls_state) (src : sources)
  (a b c n r : string) (ids l : list string).

Lemma subway_build_total src cls0 :
  ∃ cls g, SubwayGraph.build_graph src cls0 = Ok cls ∧ G cls = Some g.
Proof.
  destruct (subway_build_lines src cls0) as (cls & g & Hb & Hg & _).
  by exists cls, g.
Qed.

Lemma complex_build_total src cls0 :
  ∃ cls g, MTAComplexGraph.build_graph src cls0 = Ok cls ∧ G cls = Some g.
Proof.
  destruct (complex_build_lines src cls0) as (_ & cls & g & _ & Hb & Hg & _).
  by exists cls, g.
Qed.

Lemma odict_in_get {V : Type} (d : ODict.t V) (k : string) (x : V) :
  NoDup (ODict.keys d) → (k, x) ∈ d → ODict.get d k = Some x.
Proof.
  induction d as [|[k0 v0] d IH]; simpl; [by intros _ ?%elem_of_nil|].
  intros [Hk0 Hd]%NoDup_cons [[= -> ->]|Hin]%elem_of_cons.
  - by rewrite String.eqb_refl.
  - destruct (String.eqb_spec k0 k) as [->|_]; [|by apply IH].
    exfalso. apply Hk0. unfold ODict.keys.
    by apply (list_elem_of_fmap_2 fst d (k, x)).
Qed.

Lemma kept_resolved_nonempty (cx : complexes.ComplexesData) (stops : list string)
    ids c :
  kept_resolved cx stops ids → c ∈ ids → c ≠ EmptyString.
Proof.
  induction 1 as [|stop c0 stops ids Hr Hc0 Hk IH|stop stops ids Hr Hk IH];
    [by intros ?%elem_of_nil| |done].
  intros [->|Hin]%elem_of_cons; [done|by apply IH].
Qed.

(** The lines on the edges that leave [c]. *)
Lemma out_edge_lines_spec g c r :
  keys_once g →
  r ∈ concat (nx.out_edge_lines g c) ↔ ∃ b, lines_on g c b r.
Proof.
  intros [_ Ha]. unfold nx.out_edge_lines, lines_on, nx.edge_lines.
  rewrite list_elem_of_In, in_concat.
  destruct (ODict.get (nx.entries g) c) as [e|] eqn:E; simpl.
  - split.
    + intros (l & Hl & Hr). apply in_map_iff in Hl as ([b l'] & <- & Hbl).
      exists b, l'. split; [|by apply list_elem_of_In].
      apply odict_in_get; [by apply (Ha c)|by apply list_elem_of_In].
    + intros (b & l & Hl & Hr). exists l. split; [|by apply list_elem_of_In].
      apply in_map_iff. exists (b, l). split; [done|].
      by apply list_elem_of_In, odict_get_in.
  - split; [by intros (l & [] & _)|by intros (b & l & ? & _)].
Qed.

(** The lines on the edges that enter [c]. *)
Lemma in_edge_lines_spec g c r :
  keys_once g →
  r ∈ concat (nx.in_edge_lines g c) ↔ ∃ b, lines_on g b c r.
Proof.
  intros [Hn _]. unfold nx.in_edge_lines, lines_on, nx.edge_lines.
  rewrite list_elem_of_In, in_concat. split.
  - intros (l & Hl & Hr). apply list_elem_of_In, list_elem_of_omap in Hl
      as ([u e] & Hue & Hl).
    exists u, l. split; [|by apply list_elem_of_In].
    rewrite (odict_in_get _ u e Hn Hue). done.
  - intros (b & l & Hl & Hr). exists l. split; [|by apply list_elem_of_In].
    apply list_elem_of_In, list_elem_of_omap.
    destruct (ODict.get (nx.entries g) b) as [e|] eqn:E; [|done].
    exists (b, e). split; [by apply odict_get_in|done].
Qed.

Lemma lines_around_spec g c :
  keys_once g →
  NoDup (SubwayGraph.lines_around g c) ∧
  Sorted str_le (SubwayGraph.lines_around g c) ∧
  ∀ r, r ∈ SubwayGraph.lines_around g c
       ↔ ∃ b, lines_on g c b r ∨ lines_on g b c r.
Proof.
  intros Hk. unfold SubwayGraph.lines_around.
  split; [rewrite sorted_Permutation; apply NoDup_unique|].
  split; [apply sorted_Sorted|]. intros r.
  rewrite elem_of_sorted, elem_of_unique, elem_of_app.
  rewrite (out_edge_lines_spec g c r Hk), (in_edge_lines_spec g c r Hk).
  naive_solver.
Qed.

(** Some element is before or after [c] in [ids] exactly when [c] is in
    [ids] and [ids] has two elements. *)
Lemma before_or_after ids c :
  (∃ b, before ids c b ∨ before ids b c) ↔ c ∈ ids ∧ (2 ≤ length ids)%nat.
Proof.
  unfold before. split.
  - intros (b & [(i & j & Hij & Hi & Hj)|(i & j & Hij & Hi & Hj)]).
    + apply lookup_lt_Some in Hj as Hlen.
      split; [by eapply list_elem_of_lookup_2|lia].
    + apply lookup_lt_Some in Hj as Hlen.
      split; [by eapply list_elem_of_lookup_2|lia].
  - intros [(i & Hi)%list_elem_of_lookup_1 Hlen].
    destruct i as [|i].
    + destruct (lookup_lt_is_Some_2 ids 1) as [b Hb]; [lia|].
      exists b. left. exists 0%nat, 1%nat. split; [lia|done].
    + destruct (lookup_lt_is_Some_2 ids 0) as [b Hb]; [lia|].
      exists b. right. exists 0%nat, (S i). split; [lia|done].
Qed.

Lemma first_named_spec (d : ODict.t nx.node_entry) (name : string) :
  NoDup (ODict.keys d) →
  (∀ n e, (n, e) ∈ d → ∃ x, nx.attrs e = Some x) →
  (∃ n e x, SubwayGraph.first_named d name = Ok (Some n) ∧
            ODict.get d n = Some e ∧ nx.attrs e = Some x ∧ nx.stop_name x = name)
  ∨ (SubwayGraph.first_named d name = Ok None ∧
     ∀ n e x, ODict.get d n = Some e → nx.attrs e = Some x →
              nx.stop_name x ≠ name).
Proof.
  induction d as [|[k e0] d IH]; simpl.
  - intros _ _. right. by split.
  - intros [Hk Hd]%NoDup_cons Hattrs.
    destruct (Hattrs k e0) as [x0 Hx0]; [apply list_elem_of_here|].
    unfold SubwayGraph.stop_name_of. rewrite Hx0. simpl.
    destruct (String.eqb_spec (nx.stop_name x0) name) as [Heq|Hne].
    + left. exists k, e0, x0. by rewrite String.eqb_refl.
    + destruct (IH Hd) as [(n & e & x & Hf & Hg & Hx & Hn)|[Hf Hnone]].
      { intros n e Hin. apply (Hattrs n e). by right. }
      * left. exists n, e, x. split; [done|]. split; [|done].
        destruct (String.eqb_spec k n) as [->|_]; [|done].
        exfalso. apply Hk. by eapply odict_get_Some_keys.
      * right. split; [done|]. intros n e x.
        destruct (String.eqb_spec k n) as [->|_]; [|apply Hnone].
        intros [= <-] Hx. congruence.
Qed.

(** X7: in the graph a build has left, of [SubwayGraph] or of
    [MTAComplexGraph], the lines between any two complexes are in
    ascending order and name no route twice. *)
Theorem connecting_lines_sorted src cls0 cls a b :
  (SubwayGraph.build_graph src cls0 = Ok cls →
   ∃ l, SubwayGraph.connecting_lines cls a b = Ok l ∧
        NoDup l ∧ Sorted str_le l) ∧
  (MTAComplexGraph.build_graph src cls0 = Ok cls →
   ∃ l, MTAComplexGraph.connecting_lines cls a b = Ok l ∧
        NoDup l ∧ Sorted str_le l).
Proof.
  split; intros Hb.
  - destruct (subway_build_total src cls0) as (cls' & g & Hb' & HG).
    rewrite Hb in Hb'. injection Hb' as <-.
    destruct (subway_built src cls0 cls g Hb HG)
      as (cx & _ & _ & _ & (_ & _ & _ & _ & Ho) & Hs & _).
    unfold SubwayGraph.connecting_lines, SubwayGraph._assert_built.
    rewrite HG. simpl. eexists. split; [done|].
    destruct (nx.edge_lines g a b) as [l|] eqn:E; simpl.
    + split; [by apply (Ho a b)|by apply (Hs a b)].
    + split; [apply NoDup_nil_2|constructor].
  - destruct (complex_build_total src cls0) as (cls' & g & Hb' & HG).
    rewrite Hb in Hb'. injection Hb' as <-.
    destruct (complex_built src cls0 cls g Hb HG)
      as (cx & _ & _ & _ & (_ & _ & _ & _ & Ho) & Hs).
    unfold MTAComplexGraph.connecting_lines, MTAComplexGraph._assert_built.
    rewrite HG. simpl. eexists. split; [done|].
    destruct (nx.edge_lines g a b) as [l|] eqn:E; simpl.
    + split; [by apply (Ho a b)|by apply (Hs a b)].
    + split; [apply NoDup_nil_2|constructor].
Qed.

(** Witness of X7: the routes Q and N, in this order in [trips.txt], both
    run from A1 to B1. *)
Lemma connecting_lines_sorted_witness :
  ∃ cls l, SubwayGraph.build_graph two_routes cls_initial = Ok cls ∧
           SubwayGraph.connecting_lines cls "A1" "B1" = Ok l ∧
           l = ["N"; "Q"] ∧ NoDup l ∧ Sorted str_le l.
Proof.
  destruct (SubwayGraph.build_graph two_routes cls_initial) as [cls|e] eqn:Hb;
    [|vm_compute in Hb; discriminate].
  destruct (connecting_lines_sorted two_routes cls_initial cls "A1" "B1")
    as [H _].
  destruct (H Hb) as (l & Hl & Hnd & Hs).
  exists cls, l. split; [reflexivity|]. split; [exact Hl|].
  split; [|split; [exact Hnd|exact Hs]].
  vm_compute in Hb. injection Hb as <-. vm_compute in Hl. by injection Hl as <-.
Defined.

(** X8: the graph of [MTAComplexGraph] is undirected: the lines from [a]
    to [b] are the lines from [b] to [a]. *)
Theorem complex_lines_symmetric src cls0 :
  ∃ cls, MTAComplexGraph.build_graph src cls0 = Ok cls ∧
    ∀ a b, MTAComplexGraph.connecting_lines cls a b
           = MTAComplexGraph.connecting_lines cls b a.
Proof.
  destruct (complex_build_total src cls0) as (cls & g & Hb & HG).
  destruct (complex_built src cls0 cls g Hb HG)
    as (cx & _ & _ & Hd & ([Hsym _] & _) & _).
  exists cls. split; [done|]. intros a b.
  unfold MTAComplexGraph.connecting_lines, MTAComplexGraph._assert_built.
  rewrite HG. simpl. by rewrite (Hsym Hd a b).
Qed.

(** X9: the nodes of the graph [SubwayGraph.build_graph] leaves are the
    complex ids of the sequences it processed, each once, and the name of
    a node is the station name the registry gives its complex;
    [complex_id_to_name] is [None] for any other id. *)
Theorem node_names_from_registry src cls0 :
  ∃ cls cx g, SubwayGraph.build_graph src cls0 = Ok cls ∧
    _complexes cls = Some cx ∧ G cls = Some g ∧
    NoDup (nx.nodes g) ∧
    (∀ n, n ∈ nx.nodes g
          ↔ ∃ route direction ids, in_build_loop src route direction ∧
              SubwayGraph.complex_ids_of cls route direction = Ok ids ∧ n ∈ ids) ∧
    ∀ n, SubwayGraph.complex_id_to_name cls n
         = Ok (if bool_decide (n ∈ nx.nodes g)
               then Some (complexes.get_station_name cx n) else None).
Proof.
  destruct (subway_build_total src cls0) as (cls & g & Hb & HG).
  destruct (subway_built src cls0 cls g Hb HG)
    as (cx & Hcx & _ & _ & (_ & [Hnd _] & _ & Hat & _) & _ & Hnodes).
  exists cls, cx, g. split; [done|]. split; [done|]. split; [done|].
  split; [done|]. split.
  - intros n. rewrite <- Hnodes. unfold nx.has_node, nx.nodes.
    by rewrite odict_mem_keys.
  - intros n. unfold SubwayGraph.complex_id_to_name, SubwayGraph._assert_built.
    rewrite HG. simpl.
    destruct (ODict.get (nx.entries g) n) as [e|] eqn:E.
    + rewrite bool_decide_eq_true_2 by by eapply odict_get_Some_keys.
      unfold SubwayGraph.stop_name_of. by rewrite (Hat n e E).
    + rewrite bool_decide_eq_false_2; [done|]. by apply odict_get_None_keys.
Qed.

(** X10: in the graph [SubwayGraph.build_graph] leaves, the successors of
    a node [a] are the complexes that come after [a] in a sequence the
    build processed, each once; for an id that is no node [successors]
    raises. *)
Theorem successors_are_later_stops src cls0 :
  ∃ cls g, SubwayGraph.build_graph src cls0 = Ok cls ∧ G cls = Some g ∧
    ∀ a, SubwayGraph.successors cls a
         = (if bool_decide (a ∈ nx.nodes g) then Ok (nx.neighbors g a)
            else Raise NetworkXError) ∧
         NoDup (nx.neighbors g a) ∧
         ∀ b, b ∈ nx.neighbors g a
              ↔ ∃ route direction ids, in_build_loop src route direction ∧
                  SubwayGraph.complex_ids_of cls route direction = Ok ids ∧
                  before ids a b.
Proof.
  destruct (subway_build_lines src cls0) as (cls & g & Hb & HG & _ & Hedge & Hlines).
  destruct (subway_built src cls0 cls g Hb HG)
    as (cx & _ & _ & _ & (_ & [_ Hadj] & _) & _).
  exists cls, g. split; [done|]. split; [done|]. intros a.
  unfold SubwayGraph.successors, SubwayGraph._assert_built, nx.successors,
    nx.neighbors. rewrite HG. simpl.
  split; [|split].
  - destruct (ODict.get (nx.entries g) a) as [e|] eqn:E.
    + by rewrite bool_decide_eq_true_2 by by eapply odict_get_Some_keys.
    + rewrite bool_decide_eq_false_2; [done|]. by apply odict_get_None_keys.
  - destruct (ODict.get (nx.entries g) a) as [e|] eqn:E; [|apply NoDup_nil_2].
    by apply (Hadj a).
  - intros b.
    assert (b ∈ match ODict.get (nx.entries g) a with
                | Some e => ODict.keys (nx.adj e)
                | None => []
                end ↔ nx.has_edge g a b = true) as ->.
    { unfold nx.has_edge, nx.edge_lines.
      destruct (ODict.get (nx.entries g) a) as [e|]; simpl.
      - rewrite <- odict_mem_keys. unfold ODict.mem.
        by destruct (ODict.get (nx.adj e) b).
      - split; [by intros ?%elem_of_nil|done]. }
    rewrite Hedge. setoid_rewrite Hlines. naive_solver.
Qed.

(** X11: in the graph [SubwayGraph.build_graph] leaves, a name maps to a
    node that carries this name, and to [None] only when no node carries
    it; [stop_name_to_complex_id] does not raise. *)
Theorem name_round_trip src cls0 :
  ∃ cls, SubwayGraph.build_graph src cls0 = Ok cls ∧
    ∀ name,
      (∃ n, SubwayGraph.stop_name_to_complex_id cls name = Ok (Some n) ∧
            SubwayGraph.complex_id_to_name cls n = Ok (Some name))
      ∨ (SubwayGraph.stop_name_to_complex_id cls name = Ok None ∧
         ∀ n, SubwayGraph.complex_id_to_name cls n ≠ Ok (Some name)).
Proof.
  destruct (subway_build_total src cls0) as (cls & g & Hb & HG).
  destruct (subway_built src cls0 cls g Hb HG)
    as (cx & _ & _ & _ & (_ & [Hnd _] & _ & Hat & _) & _).
  exists cls. split; [done|]. intros name.
  unfold SubwayGraph.stop_name_to_complex_id, SubwayGraph.complex_id_to_name,
    SubwayGraph._assert_built. rewrite HG. simpl.
  destruct (first_named_spec (nx.entries g) name Hnd)
    as [(n & e & x & Hf & He & Hx & Hn)|[Hf Hnone]].
  - intros n e Hin. eexists. apply (Hat n e). by apply odict_in_get.
  - left. exists n. split; [done|]. rewrite He.
    unfold SubwayGraph.stop_name_of. rewrite Hx. simpl. by rewrite Hn.
  - right. split; [done|]. intros n.
    destruct (ODict.get (nx.entries g) n) as [e|] eqn:E; [|done].
    unfold SubwayGraph.stop_name_of.
    destruct (nx.attrs e) as [x|] eqn:Hx; [|done]. simpl.
    intros [= Heq]. by apply (Hnone n e x).
Qed.

(** X12: in the graph [SubwayGraph.build_graph] leaves, the lines at a
    complex are the routes with a processed sequence of two or more
    complexes that contains it; they come in ascending order, each
    once. *)
Theorem lines_at_complex_id_spec src cls0 :
  ∃ cls, SubwayGraph.build_graph src cls0 = Ok cls ∧
    ∀ c, ∃ l, SubwayGraph.lines_at_complex_id cls c = Ok l ∧
      NoDup l ∧ Sorted str_le l ∧
      ∀ r, r ∈ l
           ↔ ∃ direction ids, in_build_loop src r direction ∧
               SubwayGraph.complex_ids_of cls r direction = Ok ids ∧
               c ∈ ids ∧ (2 ≤ length ids)%nat.
Proof.
  destruct (subway_build_lines src cls0) as (cls & g & Hb & HG & _ & _ & Hlines).
  destruct (subway_built src cls0 cls g Hb HG)
    as (cx & Hcx & _ & _ & (_ & Hk & _) & _ & Hnodes).
  exists cls. split; [done|]. intros c.
  unfold SubwayGraph.lines_at_complex_id, SubwayGraph._assert_built.
  rewrite HG. simpl.
  destruct (negb (PyStr.truthy c) || negb (nx.has_node g c)) eqn:Hc.
  - exists []. split; [done|]. split; [apply NoDup_nil_2|]. split; [constructor|].
    intros r. split; [by intros ?%elem_of_nil|].
    intros (direction & ids & Hloop & Hids & Hin & _). exfalso.
    apply orb_true_iff in Hc as [Hc|Hc]; apply negb_true_iff in Hc.
    + destruct (subway_complex_ids_of_spec cls r direction ids Hids)
        as (stops & cx' & _ & _ & Hkept).
      apply (kept_resolved_nonempty cx' stops ids c Hkept Hin).
      by apply truthy_false.
    + assert (nx.has_node g c = true) as Hn; [|congruence].
      apply Hnodes. by exists r, direction, ids.
  - destruct (lines_around_spec g c Hk) as (Hnd & Hs & Hr).
    eexists. split; [done|]. split; [done|]. split; [done|].
    intros r. rewrite Hr. split.
    + intros (b & [H|H]); apply Hlines in H as (direction & ids & Hl & Hids & Hbf);
        exists direction, ids; (split; [done|]); (split; [done|]);
        apply before_or_after; exists b; auto.
    + intros (direction & ids & Hl & Hids & Hbf).
      apply before_or_after in Hbf as (b & [H|H]); exists b; [left|right];
        apply Hlines; by exists direction, ids.
Qed.

End BuiltQueries.

(** ** All shortest paths *)

Section Passes.
Context {A : Type}.
Variable fresh : nat → ODict.t A → string → string → A.
Variable again : nat → A → string → A.

(** What the two updates keep of the pairs gone through so far holds of
    all the pairs when the pass ends. *)
Lemma visit_pairs_prefix (I : list (string * string) → ODict.t A → Prop)
    (level : nat) (es : list (string * string)) (acc : ODict.t A * list string) :
  (∀ done d v w, I done d → (v, w) ∈ es → ODict.get d w = None →
                 I (done ++ [(v, w)]) (ODict.set d w (fresh level d v w))) →
  (∀ done d v w a, I done d → (v, w) ∈ es → ODict.get d w = Some a →
                   I (done ++ [(v, w)]) (ODict.set d w (again level a v))) →
  I [] acc.1 →
  I es (fst (foldl (λ acc (vw : string * string),
                      nx.visit_nbr fresh again level vw.1 acc vw.2) acc es)).
Proof.
  intros Hfresh Hagain H0.
  cut (∀ done rest acc, done ++ rest = es → I done acc.1 →
         I es (fst (foldl (λ acc (vw : string * string),
                             nx.visit_nbr fresh again level vw.1 acc vw.2)
                          acc rest))).
  { intros Hc. by apply (Hc [] es acc). }
  clear acc H0. intros done rest. revert done.
  induction rest as [|[v w] rest IH]; intros done acc Hes HI; simpl.
  - rewrite app_nil_r in Hes. by subst.
  - apply (IH (done ++ [(v, w)])); [by rewrite <- app_assoc|].
    assert ((v, w) ∈ es) as Hin by (rewrite <- Hes; set_solver).
    unfold nx.visit_nbr. simpl.
    destruct (ODict.get acc.1 w) as [a|] eqn:Hw; simpl.
    + by apply Hagain.
    + by apply Hfresh.
Qed.

End Passes.

Section AllPaths.
Implicit Types (g : nx.graph) (s t k v w : string) (p q : list string)
  (d : ODict.t (nat * list string)).

Lemma odict_keys_set_elem {V : Type} (d : ODict.t V) (k k' : string) (x : V) :
  k ∈ ODict.keys (ODict.set d k' x) ↔ k ∈ ODict.keys d ∨ k = k'.
Proof.
  rewrite odict_keys_set. destruct (ODict.mem d k') eqn:E.
  - apply odict_mem_keys in E. naive_solver.
  - rewrite elem_of_app, list_elem_of_singleton. done.
Qed.

(** One pass of [predecessor] over the pairs [es], from the dictionary
    [d0] whose levels are below [level]: the old entries stay, and a new
    entry has the level of the pass and, as predecessors, the first
    components of the pairs that reach it. *)
Lemma predecessor_pass (level : nat) (es : list (string * string)) d0 :
  (∀ k lv ps, ODict.get d0 k = Some (lv, ps) → (lv < level)%nat) →
  let dd := fst (foldl (λ acc (vw : string * string),
                   nx.visit_nbr (λ level _ v _, (level, [v]))
                     (λ level (a : nat * list string) v,
                        if Nat.eqb a.1 level then (a.1, a.2 ++ [v]) else a)
                     level vw.1 acc vw.2) (d0, []) es) in
  (∀ k x, ODict.get d0 k = Some x → ODict.get dd k = Some x) ∧
  (∀ k lv ps, ODict.get dd k = Some (lv, ps) → ODict.get d0 k = None →
              lv = level ∧ ∀ v, v ∈ ps ↔ (v, k) ∈ es) ∧
  (∀ v k, (v, k) ∈ es → k ∈ ODict.keys dd).
Proof.
  intros Hlow.
  apply (visit_pairs_prefix (λ level _ v _, (level, [v]))
    (λ level (a : nat * list string) v,
       if Nat.eqb a.1 level then (a.1, a.2 ++ [v]) else a)
    (λ done dd,
       (∀ k x, ODict.get d0 k = Some x → ODict.get dd k = Some x) ∧
       (∀ k lv ps, ODict.get dd k = Some (lv, ps) → ODict.get d0 k = None →
                   lv = level ∧ ∀ v, v ∈ ps ↔ (v, k) ∈ done) ∧
       (∀ v k, (v, k) ∈ done → k ∈ ODict.keys dd))).
  - (* a node met for the first time *)
    intros done dd v w (I1 & I2 & I3) _ Hnone. split; [|split].
    + intros k x Hkx. rewrite odict_get_set.
      destruct (String.eqb_spec w k) as [<-|?]; [|by apply I1].
      apply I1 in Hkx. congruence.
    + intros k lv ps. rewrite odict_get_set.
      destruct (String.eqb_spec w k) as [<-|Hne].
      * intros [= <- <-] _. split; [done|]. intros v'.
        rewrite list_elem_of_singleton, elem_of_app, list_elem_of_singleton.
        split; [intros ->; by right|]. intros [Hd|[= ->]]; [|done].
        apply I3 in Hd. by apply odict_get_None_keys in Hnone.
      * intros Hk Hdk. destruct (I2 k lv ps Hk Hdk) as [-> Hps].
        split; [done|]. intros v'.
        rewrite Hps, elem_of_app, list_elem_of_singleton.
        split; [by left|]. intros [?|[= _ ?]]; [done|congruence].
    + intros v' k. rewrite elem_of_app, list_elem_of_singleton, odict_keys_set_elem.
      intros [Hd|[= -> ->]]; [left; by eapply I3|by right].
  - (* a node met again *)
    intros done dd v w a (I1 & I2 & I3) _ Ha.
    assert (∀ v' k, (v', k) ∈ done ++ [(v, w)] →
                    k ∈ ODict.keys (ODict.set dd w
                      (if Nat.eqb a.1 level then (a.1, a.2 ++ [v]) else a))) as I3'.
    { intros v' k. rewrite elem_of_app, list_elem_of_singleton, odict_keys_set_elem.
      intros [Hd|[= -> ->]]; [left; by eapply I3|by right]. }
    split; [|split; [|exact I3']].
    + intros k x Hkx. rewrite odict_get_set.
      destruct (String.eqb_spec w k) as [<-|?]; [|by apply I1].
      pose proof (I1 _ _ Hkx) as Hx. rewrite Ha in Hx. injection Hx as ->.
      destruct x as [lv ps]. apply Hlow in Hkx. simpl.
      destruct (Nat.eqb_spec lv level); [lia|done].
    + intros k lv ps. rewrite odict_get_set.
      destruct (String.eqb_spec w k) as [<-|Hne].
      * intros Hset Hdw. destruct a as [lv0 ps0].
        destruct (I2 w lv0 ps0 Ha Hdw) as [-> Hps]. simpl in Hset.
        rewrite Nat.eqb_refl in Hset. injection Hset as <- <-.
        split; [done|]. intros v'.
        rewrite !elem_of_app, !list_elem_of_singleton, Hps.
        split; [intros [?| ->]; [by left|by right]|].
        intros [?|[= ->]]; [by left|by right].
      * intros Hk Hdk. destruct (I2 k lv ps Hk Hdk) as [-> Hps].
        split; [done|]. intros v'.
        rewrite Hps, elem_of_app, list_elem_of_singleton.
        split; [by left|]. intros [?|[= _ ?]]; [done|congruence].
  - simpl. split; [done|]. split; [|by intros ? ? ?%elem_of_nil].
    intros k lv ps Hk Hnone. congruence.
Qed.

(** The dictionary of [predecessor]: the level of a node is the number of
    edges of a shortest path to it, and its predecessors are the nodes one
    level below it with an edge to it. *)
Lemma predecessor_levels g s pred :
  nx.predecessor g s = Some pred →
  ODict.get pred s = Some (O, []) ∧
  (∀ k lv ps, ODict.get pred k = Some (lv, ps) →
     (lv < length pred)%nat ∧
     (∃ q, is_path g s k q ∧ length q = S lv) ∧
     (∀ q, is_path g s k q → (S lv ≤ length q)%nat)) ∧
  (∀ k lv ps v, ODict.get pred k = Some (lv, ps) →
     v ∈ ps ↔ edge g v k ∧
              ∃ lv' psv, ODict.get pred v = Some (lv', psv) ∧ S lv' = lv).
Proof.
  unfold nx.predecessor. intros Hlevels.
  set (J := λ (level : nat) (d : ODict.t (nat * list string)) (next : list string),
    ODict.get d s = Some (O, []) ∧
    (∀ k lv ps, ODict.get d k = Some (lv, ps) →
       (lv ≤ level)%nat ∧ (lv < length (ODict.keys d))%nat ∧
       (∃ q, is_path g s k q ∧ length q = S lv) ∧
       (∀ q, is_path g s k q → (S lv ≤ length q)%nat)) ∧
    (∀ k lv ps v, ODict.get d k = Some (lv, ps) →
       v ∈ ps ↔ edge g v k ∧
                ∃ lv' psv, ODict.get d v = Some (lv', psv) ∧ S lv' = lv) ∧
    (∀ k, k ∈ next ↔ ∃ ps, ODict.get d k = Some (level, ps)) ∧
    (∀ k q, is_path g s k q → (length q ≤ S level)%nat → k ∈ ODict.keys d) ∧
    (next ≠ [] → (level < length (ODict.keys d))%nat)).
  cut (∃ level', J level' pred []).
  { intros (level' & J1 & J2 & J3 & _). split; [done|]. split; [|done].
    intros k lv ps Hk. destruct (J2 k lv ps Hk) as (_ & Hlen & Hq & Hmin).
    split; [|done]. unfold ODict.keys in Hlen. by rewrite length_map in Hlen. }
  eapply (levels_ind _ _ g J); [| |exact Hlevels].
  - (* one pass *)
    clear Hlevels pred. intros level d n next (J1 & J2 & J3 & J4 & J5 & J6).
    rewrite visit_level_pairs.
    set (T := n :: next) in *.
    set (acc := foldl _ (d, []) (level_pairs g T)).
    destruct (visit_pairs_keys (λ level _ v _, (level, [v]))
      (λ level (a : nat * list string) v,
         if Nat.eqb a.1 level then (a.1, a.2 ++ [v]) else a)
      (S level) (level_pairs g T) (d, []))
      as (new & Hk & Hn & _ & Hnew & Hall).
    fold acc in Hk, Hn, Hall. cbn [fst snd app] in Hk, Hn, Hnew.
    destruct (predecessor_pass (S level) (level_pairs g T) d)
      as (Hold & Hfresh & _).
    { intros k lv ps Hkd. destruct (J2 k lv ps Hkd). lia. }
    fold acc in Hold, Hfresh.
    specialize (J6 ltac:(done)).
    (* an entry is an old one, or one of the pass *)
    assert (∀ k lv ps, ODict.get acc.1 k = Some (lv, ps) →
              ODict.get d k = Some (lv, ps) ∨
              (ODict.get d k = None ∧ lv = S level ∧ k ∈ new ∧
               ∀ v, v ∈ ps ↔ v ∈ T ∧ edge g v k)) as Hentry.
    { intros k lv ps Hkp. destruct (ODict.get d k) as [x|] eqn:Hdk.
      - left. rewrite (Hold _ _ Hdk) in Hkp. done.
      - right. split; [done|]. destruct (Hfresh k lv ps Hkp Hdk) as [-> Hps].
        split; [done|]. split.
        + apply odict_get_Some_keys in Hkp. rewrite Hk in Hkp.
          apply odict_get_None_keys in Hdk. set_solver.
        + intros v. by rewrite Hps, elem_of_level_pairs. }
    assert (∀ v, v ∈ T → ∃ q, is_path g s v q ∧ length q = S level) as HT.
    { intros v (ps & Hv)%J4. by destruct (J2 v level ps Hv) as (_ & _ & Hq & _). }
    split; [by apply Hold|]. split; [|split; [|split; [|split]]].
    + intros k lv ps Hkp. rewrite Hk, length_app.
      destruct (Hentry k lv ps Hkp) as [Hdk|(Hdk & -> & Hin & Hps)].
      * destruct (J2 k lv ps Hdk) as (? & ? & ? & ?).
        split; [lia|]. split; [lia|]. by split.
      * split; [done|]. split.
        { destruct new; [by apply elem_of_nil in Hin|]. simpl. lia. }
        split.
        -- destruct (Hnew k Hin) as (_ & v & [Hv Hvk]%elem_of_level_pairs).
           destruct (HT v Hv) as (q & Hq & Hlen). exists (q ++ [k]).
           split; [by apply is_path_snoc with v|].
           rewrite length_app. simpl. lia.
        -- intros q Hq.
           destruct (decide (length q ≤ S level)%nat) as [Hle|Hgt]; [|lia].
           apply (J5 k q Hq) in Hle. by apply odict_get_None_keys in Hdk.
    + intros k lv ps v Hkp.
      destruct (Hentry k lv ps Hkp) as [Hdk|(Hdk & -> & Hin & Hps)].
      * rewrite (J3 k lv ps v Hdk). destruct (J2 k lv ps Hdk) as (Hle & _).
        split; intros (Hvk & lv' & psv & Hv & Heq); (split; [done|]);
          exists lv', psv; (split; [|done]).
        -- by apply Hold.
        -- destruct (Hentry v lv' psv Hv) as [?|(_ & -> & _)]; [done|lia].
      * rewrite Hps. split.
        -- intros [(psv & Hv)%J4 Hvk]. split; [done|]. exists level, psv.
           split; [by apply Hold|done].
        -- intros (Hvk & lv' & psv & Hv & [= ->]). split; [|done].
           apply J4. exists psv.
           destruct (Hentry v level psv Hv) as [?|(_ & ? & _)]; [done|lia].
    + intros k. rewrite Hn. split.
      * intros Hin. destruct (Hnew k Hin) as [Hnk _].
        assert (k ∈ ODict.keys acc.1) as Hkin by (rewrite Hk; set_solver).
        apply odict_mem_keys in Hkin. unfold ODict.mem in Hkin.
        destruct (ODict.get acc.1 k) as [[lv ps]|] eqn:Hkp; [|done].
        exists ps. destruct (Hentry k lv ps Hkp) as [Hdk|(_ & -> & _)]; [|done].
        by apply odict_get_Some_keys in Hdk.
      * intros (ps & Hkp).
        destruct (Hentry k (S level) ps Hkp) as [Hdk|(_ & _ & Hin & _)]; [|done].
        destruct (J2 k (S level) ps Hdk). lia.
    + intros k q Hq Hlen.
      destruct (decide (length q ≤ S level)%nat) as [Hle|Hgt].
      { rewrite Hk. apply elem_of_app. left. by apply (J5 k q). }
      destruct (is_path_last_hop g s k q level Hq) as (b & q' & -> & Hq' & Hbk);
        [lia|].
      rewrite length_app in Hlen, Hgt. simpl in Hlen, Hgt.
      assert (b ∈ ODict.keys d) as Hb by (apply (J5 b q'); [done|lia]).
      apply odict_mem_keys in Hb. unfold ODict.mem in Hb.
      destruct (ODict.get d b) as [[lvb psb]|] eqn:Hpb; [|done].
      destruct (J2 b lvb psb Hpb) as (Hle & _ & (qb & Hqb & Hlenb) & _).
      destruct (decide (lvb = level)) as [->|Hlt].
      * apply (Hall b k). apply elem_of_level_pairs. split; [|done].
        apply J4. by exists psb.
      * rewrite Hk. apply elem_of_app. left. apply (J5 k (qb ++ [k])).
        -- by apply is_path_snoc with b.
        -- rewrite length_app. simpl. lia.
    + rewrite Hn, Hk, length_app. intros Hne. destruct new; [done|]. simpl. lia.
  - (* the first level *)
    assert (∀ k q, is_path g s k q → (length q ≤ 1)%nat → k = s) as Hone.
    { intros k q [a|a b c q' Hq' Hbc]; [done|]. rewrite length_app. simpl.
      apply is_path_nonempty in Hq'. destruct q'; [done|]. simpl. lia. }
    split; [by simpl; rewrite String.eqb_refl|].
    split; [|split; [|split; [|split]]].
    + intros k lv ps. simpl. destruct (String.eqb_spec s k) as [<-|?]; [|done].
      intros [= <- <-]. split; [done|]. split; [lia|]. split.
      * exists [s]. split; [constructor|done].
      * intros q Hq. apply is_path_nonempty in Hq. destruct q; [done|]. simpl. lia.
    + intros k lv ps v. simpl. destruct (String.eqb_spec s k) as [<-|?]; [|done].
      intros [= <- <-]. split; [by intros ?%elem_of_nil|].
      by intros (_ & lv' & psv & _ & ?).
    + intros k. rewrite list_elem_of_singleton. simpl.
      destruct (String.eqb_spec s k) as [<-|?]; [|naive_solver].
      split; [intros _; by exists []|done].
    + intros k q Hq Hlen. rewrite (Hone k q Hq Hlen). simpl. by left.
    + simpl. lia.
Qed.

(** Every node within reach has an entry in the dictionary of
    [predecessor]. *)
Lemma predecessor_reaches g s pred :
  nx.has_node g s = true → nx.predecessor g s = Some pred →
  ∀ k, reachable g s k → k ∈ ODict.keys pred.
Proof.
  intros Hs. unfold nx.predecessor, nx.enough.
  destruct (levels_spec
    (λ level _ v _, (level, [v]))
    (λ level (a : nat * list string) v,
       if Nat.eqb a.1 level then (a.1, a.2 ++ [v]) else a) g
    (λ _, True)
    (S (length (nx.universe g))) 0 [(s, (O, []))] [s])
    as (pred' & -> & _ & Hsub & Hclosed); try done.
  - simpl. apply NoDup_singleton.
  - simpl. intros x ->%list_elem_of_singleton. by apply has_node_universe.
  - simpl. intros u Hu. by left.
  - simpl. lia.
  - intros [= <-].
    assert (∀ a k p, is_path g a k p → a ∈ ODict.keys pred' →
                     k ∈ ODict.keys pred') as Hreach.
    { intros a k p Hpath. induction Hpath as [|a b c q Hq IH Hbc]; [done|].
      intros Ha. apply (Hclosed b c); [by apply IH|done]. }
    intros k (p & Hpath). apply (Hreach s k p Hpath), Hsub. simpl. by left.
Qed.

(** The paths read off the dictionary of [predecessor] for a node are the
    paths from the source to it with as many edges as its level. *)
Lemma build_paths_spec g s pred :
  nx.has_node g s = true → nx.predecessor g s = Some pred →
  ∀ fuel k lv ps p,
    ODict.get pred k = Some (lv, ps) → (lv < fuel)%nat →
    p ∈ nx.build_paths fuel pred s k ↔ is_path g s k p ∧ length p = S lv.
Proof.
  intros Hs Hpred.
  destruct (predecessor_levels g s pred Hpred) as (P1 & P2 & P3).
  pose proof (predecessor_reaches g s pred Hs Hpred) as Hreach.
  induction fuel as [|fuel IH]; intros k lv ps p Hk Hfuel; [lia|].
  cbn [nx.build_paths]. rewrite Hk. cbn [snd]. rewrite elem_of_app. split.
  - intros [Hin|Hin].
    + destruct (String.eqb_spec k s) as [->|_]; [|by apply elem_of_nil in Hin].
      apply list_elem_of_singleton in Hin as ->. split; [constructor|].
      rewrite P1 in Hk. by injection Hk as <- <-.
    + apply list_elem_of_In, in_flat_map in Hin as (v & Hv & Hp).
      apply in_map_iff in Hp as (p' & <- & Hp').
      apply list_elem_of_In in Hv, Hp'.
      apply (P3 k lv ps v Hk) in Hv as (Hvk & lv' & psv & Hgv & <-).
      apply (IH v lv' psv p' Hgv) in Hp' as [Hpath Hlen]; [|lia].
      split; [by apply is_path_snoc with v|]. rewrite length_app. simpl. lia.
  - intros [Hpath Hlen]. inversion Hpath as [a|a b c q Hq Hbc]; subst.
    + left. rewrite String.eqb_refl. apply list_elem_of_here.
    + right. rewrite length_app in Hlen. simpl in Hlen.
      assert (b ∈ ODict.keys pred) as Hb by (apply Hreach; by exists q).
      apply odict_mem_keys in Hb. unfold ODict.mem in Hb.
      destruct (ODict.get pred b) as [[lvb psb]|] eqn:Hgb; [|done].
      destruct (P2 b lvb psb Hgb) as (_ & (qb & Hqb & Hlenb) & Hminb).
      destruct (P2 k lv ps Hk) as (_ & _ & Hmink).
      specialize (Hminb q Hq).
      specialize (Hmink (qb ++ [k]) (is_path_snoc g s b k qb Hqb Hbc)).
      rewrite length_app in Hmink. simpl in Hmink.
      assert (S lvb = lv) as Hlv by lia.
      apply list_elem_of_In, in_flat_map. exists b. split.
      * apply list_elem_of_In, (P3 k lv ps b Hk). split; [done|].
        by exists lvb, psb.
      * apply in_map_iff. exists q. split; [done|].
        apply list_elem_of_In, (IH b lvb psb q Hgb); [lia|]. split; [done|lia].
Qed.

(** The contract of [nx.all_shortest_paths] from a node to a node within
    reach: the paths between them with the fewest edges, and no other. *)
Lemma nx_all_shortest_paths_spec g s t :
  nx.has_node g s = true → reachable g s t →
  ∃ paths, nx.all_shortest_paths g s t = Ok paths ∧
    ∀ p, p ∈ paths ↔ is_path g s t p ∧
                     ∀ q, is_path g s t q → (length p ≤ length q)%nat.
Proof.
  intros Hs Hr. unfold nx.all_shortest_paths. rewrite Hs. simpl.
  destruct (predecessor_spec g s Hs) as (pred & Hpred & _). rewrite Hpred.
  destruct (predecessor_levels g s pred Hpred) as (_ & P2 & _).
  pose proof (predecessor_reaches g s pred Hs Hpred t Hr) as Ht.
  apply odict_mem_keys in Ht. rewrite Ht. unfold ODict.mem in Ht.
  destruct (ODict.get pred t) as [[lv ps]|] eqn:Hgt; [|done].
  destruct (P2 t lv ps Hgt) as (Hfuel & (q0 & Hq0 & Hlen0) & Hmin).
  eexists. split; [done|]. intros p.
  rewrite (build_paths_spec g s pred Hs Hpred (length pred) t lv ps p Hgt Hfuel).
  split.
  - intros [Hp Hlen]. split; [done|]. intros q Hq. specialize (Hmin q Hq). lia.
  - intros [Hp Hle]. split; [done|]. specialize (Hle q0 Hq0).
    specialize (Hmin p Hp). lia.
Qed.

(** From a node to itself there is the one path of no edge. *)
Lemma nx_all_shortest_paths_self g s :
  nx.has_node g s = true → nx.all_shortest_paths g s s = Ok [[s]].
Proof.
  intros Hs. unfold nx.all_shortest_paths. rewrite Hs. simpl.
  destruct (predecessor_spec g s Hs) as (pred & Hpred & _). rewrite Hpred.
  destruct (predecessor_levels g s pred Hpred) as (P1 & P2 & _).
  unfold ODict.mem. rewrite P1.
  destruct (P2 s O [] P1) as (Hlen & _).
  destruct (length pred) as [|fuel]; [lia|].
  cbn [nx.build_paths]. by rewrite String.eqb_refl, P1.
Qed.

End AllPaths.

(** ** Paths and directions *)

Section Routes.
Implicit Types (g : nx.graph) (cls : cls_state) (src : sources)
  (a b u v : string) (p q : list string).

Lemma is_path_last g a b p : is_path g a b p → last p = Some b.
Proof. induction 1 as [a|a b c q Hq IH Hbc]; [done|apply last_snoc]. Qed.

(** The hops of a path are edges. *)
Lemma is_path_hops g a b p (i : nat) u v :
  is_path g a b p → p !! i = Some u → p !! S i = Some v → edge g u v.
Proof.
  induction 1 as [a|a b c q Hq IH Hbc]; [by destruct i|].
  intros Hu Hv. apply lookup_lt_Some in Hv as Hlen.
  rewrite length_app in Hlen. simpl in Hlen.
  destruct (decide (S i < length q)%nat) as [Hlt|Hge].
  - rewrite lookup_app_l in Hu, Hv by lia. by apply IH.
  - assert (S i = length q) as Hi by lia.
    rewrite lookup_app_l in Hu by lia. rewrite Hi in Hv.
    rewrite list_lookup_middle in Hv by done. injection Hv as <-.
    pose proof (is_path_last g a b q Hq) as Hlast.
    rewrite last_lookup, <- Hi in Hlast. simpl in Hlast. congruence.
Qed.

Lemma edge_edge_lines g u v : edge g u v ↔ is_Some (nx.edge_lines g u v).
Proof.
  unfold edge, nx.neighbors, nx.edge_lines.
  destruct (ODict.get (nx.entries g) u) as [e|]; simpl.
  - rewrite <- odict_mem_keys. unfold ODict.mem.
    destruct (ODict.get (nx.adj e) v); split; (done || by intros [? ?] || by eexists).
  - split; [by intros ?%elem_of_nil|by intros [? ?]].
Qed.

(** Two functions that agree on the hops of a path give the same list. *)
Lemma hop_map_ext_path {B : Type} (F F' : string → string → B) g a b p :
  is_path g a b p →
  (∀ u v, edge g u v → F u v = F' u v) →
  hop_map F p = hop_map F' p.
Proof.
  intros Hp Hext. rewrite <- !index_hop_map. apply map_ext_in.
  intros i Hi%in_seq. apply Hext.
  apply (is_path_hops g a b p i); [done| |].
  - apply list_lookup_lookup_total_lt. lia.
  - rewrite <- Nat.add_1_r. apply list_lookup_lookup_total_lt. lia.
Qed.

(** What [nx.shortest_path] returns is a shortest path between two
    nodes. *)
Lemma nx_shortest_path_Ok g a b p :
  nx.shortest_path g a b = Ok p →
  nx.has_node g a = true ∧ nx.has_node g b = true ∧ shortest g a b p.
Proof.
  intros Hp. destruct (nx.has_node g a) eqn:Ha;
    [|by unfold nx.shortest_path in Hp; rewrite Ha in Hp].
  destruct (nx.has_node g b) eqn:Hb;
    [|by unfold nx.shortest_path in Hp; rewrite Ha, Hb in Hp].
  split; [done|]. split; [done|].
  destruct (nx_shortest_path_spec g a b Ha Hb) as [Hyes Hno].
  assert (reachable g a b) as Hr.
  { unfold nx.shortest_path in Hp. rewrite Ha, Hb in Hp. simpl in Hp.
    destruct (single_source_shortest_path_spec g a Ha) as (paths & Hpaths & Hvalid & _).
    rewrite Hpaths in Hp.
    destruct (ODict.get paths b) as [p'|] eqn:E; [|done].
    exists p'. by apply Hvalid. }
  destruct (Hyes Hr) as (p' & Hp' & Hpath & Hmin).
  rewrite Hp in Hp'. injection Hp' as <-. by split.
Qed.

Lemma path_lines_spec g a b p :
  is_path g a b p →
  MTAComplexGraph.path_lines g p = Ok (hop_map (lines_of g) p).
Proof.
  intros Hp. unfold MTAComplexGraph.path_lines.
  rewrite (for_each_map _ (λ i, lines_of g (p !!! i) (p !!! (i + 1)%nat))).
  - simpl. f_equal. apply (index_hop_map (lines_of g)).
  - intros acc i Hi%elem_of_seq.
    assert (edge g (p !!! i) (p !!! (i + 1)%nat)) as He.
    { apply (is_path_hops g a b p i); [done| |].
      - apply list_lookup_lookup_total_lt. lia.
      - rewrite <- Nat.add_1_r. apply list_lookup_lookup_total_lt. lia. }
    apply edge_edge_lines in He as [l Hl]. unfold lines_of. by rewrite Hl.
Qed.

Lemma get_directions_for_path_spec cls g p :
  G cls = Some g → all_named g = true →
  SubwayGraph.get_directions_for_path cls p = Ok (hop_map (segment_of g) p).
Proof.
  intros HG Hnamed. unfold SubwayGraph.get_directions_for_path.
  rewrite (for_each_map _ (λ i, segment_of g (p !!! i) (p !!! (i + 1)%nat))).
  - simpl. f_equal. apply (index_hop_map (segment_of g)).
  - intros acc i _.
    rewrite !(complex_id_to_name_named cls g _ HG Hnamed).
    unfold SubwayGraph.connecting_lines, SubwayGraph._assert_built.
    by rewrite HG.
Qed.

Lemma hop_map_Forall_path {B : Type} (Q : B → Prop) (F : string → string → B)
    g a b p :
  is_path g a b p → (∀ u v, edge g u v → Q (F u v)) → Forall Q (hop_map F p).
Proof.
  intros Hp HQ. rewrite <- index_hop_map. apply Forall_forall.
  intros x (i & -> & Hi%elem_of_seq)%list_elem_of_fmap. apply HQ.
  apply (is_path_hops g a b p i); [done| |].
  - apply list_lookup_lookup_total_lt. lia.
  - rewrite <- Nat.add_1_r. apply list_lookup_lookup_total_lt. lia.
Qed.

Lemma name_opt_built (cx : complexes.ComplexesData) g n :
  attrs_of_registry cx g → nx.has_node g n = true →
  name_opt g n = Some (complexes.get_station_name cx n).
Proof.
  intros Hat [e He]%has_node_get. unfold name_opt. rewrite He. simpl.
  by rewrite (Hat n e He).
Qed.

Lemma subway_shortest_path_Ok cls g a b p :
  G cls = Some g → SubwayGraph.shortest_path cls a b = Ok (Some p) →
  nx.shortest_path g a b = Ok p.
Proof.
  intros HG. unfold SubwayGraph.shortest_path, SubwayGraph._assert_built.
  rewrite HG. simpl. destruct (nx.shortest_path g a b) as [p'|[]]; try done.
  by intros [= ->].
Qed.

Lemma nx_shortest_path_self g a :
  nx.has_node g a = true → nx.shortest_path g a a = Ok [a].
Proof.
  intros Ha. destruct (nx_shortest_path_spec g a a Ha Ha) as [Hyes _].
  destruct Hyes as (p & Hp & Hpath & Hmin); [exists [a]; constructor|].
  rewrite Hp. f_equal. destruct (is_path_head g a a p Hpath) as [rest ->].
  specialize (Hmin [a] (is_path_one g a)). simpl in Hmin.
  destruct rest; [done|simpl in Hmin; lia].
Qed.

(** X13: on the class [SubwayGraph.build_graph] leaves, the lines at a
    stop id are the lines at the complex the resolver gives it, none when
    the resolver gives none, and the resolver's error when it raises.  In
    particular, for a key written by a listed stop id, all of whose
    writers are listed under the complex [c], they are the lines at
    [c]. *)
Theorem lines_at_listed_stop src cls0 :
  ∃ cls cx, SubwayGraph.build_graph src cls0 = Ok cls ∧
    _complexes cls = Some cx ∧
    (∀ s, SubwayGraph.lines_at_gtfs_stop_id cls s
          = match complexes.get_complex_id_by_gtfs_stop_id cx s with
            | Ok (Some c) => SubwayGraph.lines_at_complex_id cls c
            | Ok None => Ok []
            | Raise e => Raise e
            end) ∧
    ∀ k c, (∃ s, registered (complexes_csv src) s ∧ writes s k) →
           (∀ s c', registered_in (complexes_csv src) s c' → writes s k → c' = c) →
           c ≠ EmptyString →
           SubwayGraph.lines_at_gtfs_stop_id cls k
           = SubwayGraph.lines_at_complex_id cls c.
Proof.
  destruct (subway_build_total src cls0) as (cls & g & Hb & HG).
  destruct (subway_built src cls0 cls g Hb HG) as (cx & Hcx & Hinit & _).
  exists cls, cx. split; [done|]. split; [done|].
  assert (∀ s, SubwayGraph.lines_at_gtfs_stop_id cls s
               = match complexes.get_complex_id_by_gtfs_stop_id cx s with
                 | Ok (Some c) => SubwayGraph.lines_at_complex_id cls c
                 | Ok None => Ok []
                 | Raise e => Raise e
                 end) as Hcomp.
  { intros s. unfold SubwayGraph.lines_at_gtfs_stop_id,
      SubwayGraph.lines_at_complex_id, SubwayGraph._assert_built.
    rewrite HG, Hcx. simpl.
    by destruct (complexes.get_complex_id_by_gtfs_stop_id cx s) as [[c|]|e]. }
  split; [done|]. intros k c Hreg Honly Hc. rewrite Hcomp.
  destruct (resolve_branches cx) as (Hexact & _).
  rewrite (Hexact k c); [done| |done].
  by apply (listed_key_lookup (complexes_csv src) (complexes_stops_txt src)).
Qed.

(** Witness of X13: stop 127 of the two-platform example, listed under
    complex 611 only. *)
Lemma lines_at_listed_stop_witness :
  ∃ cls, SubwayGraph.build_graph two_platforms cls_initial = Ok cls ∧
         SubwayGraph.lines_at_gtfs_stop_id cls "127"
         = SubwayGraph.lines_at_complex_id cls "611".
Proof.
  destruct (lines_at_listed_stop two_platforms cls_initial)
    as (cls & cx & Hb & _ & _ & H).
  exists cls. split; [exact Hb|]. apply H.
  - exists "127". split; [|by left].
    eexists. split; [by apply list_elem_of_here|]. vm_compute.
    by apply list_elem_of_here.
  - intros s c' (row & Hrow & <- & Hs) Hw. simpl in Hrow.
    apply elem_of_cons in Hrow as [->|Hrow]; [done|].
    apply list_elem_of_singleton in Hrow as ->. vm_compute in Hs.
    apply list_elem_of_singleton in Hs as ->.
    by destruct Hw as [?|[?|?]].
  - done.
Defined.

(** X14: from a node to itself the shortest path is the node alone, with
    no line; it is the only one [all_shortest_paths] lists, it has no
    segment, and its directions are the line of the start. *)
Theorem path_to_itself cls g a :
  G cls = Some g → nx.has_node g a = true →
  SubwayGraph.shortest_path cls a a = Ok (Some [a]) ∧
  SubwayGraph.shortest_path_with_lines cls a a = Ok (Some [(a, [])]) ∧
  SubwayGraph.all_shortest_paths cls a a = Ok [[a]] ∧
  SubwayGraph.get_all_directions cls a a = Ok [[]] ∧
  MTAComplexGraph.shortest_path cls a a = Ok ([a], []) ∧
  (all_named g = true →
   SubwayGraph.get_directions cls a a = Ok (Some (start_line g a))).
Proof.
  intros HG Ha. pose proof (nx_shortest_path_self g a Ha) as Hnx.
  assert (SubwayGraph.shortest_path cls a a = Ok (Some [a])) as Hsp.
  { unfold SubwayGraph.shortest_path, SubwayGraph._assert_built.
    rewrite HG. simpl. by rewrite Hnx. }
  assert (SubwayGraph.all_shortest_paths cls a a = Ok [[a]]) as Hall.
  { unfold SubwayGraph.all_shortest_paths, SubwayGraph._assert_built.
    rewrite HG. simpl. by rewrite (nx_all_shortest_paths_self g a Ha). }
  split; [done|]. split; [|split; [done|split; [|split]]].
  - by rewrite (shortest_path_with_lines_spec cls g a a [a] HG Hsp).
  - unfold SubwayGraph.get_all_directions. by rewrite Hall.
  - unfold MTAComplexGraph.shortest_path, MTAComplexGraph._assert_built.
    rewrite HG. simpl. by rewrite Hnx.
  - intros Hnamed. by rewrite (get_directions_spec cls g a a [a] HG Hnamed Hsp).
Qed.

(** Witness of X14: node A of the hand-made graph. *)
Lemma path_to_itself_witness :
  SubwayGraph.shortest_path abc_cls "idA" "idA" = Ok (Some ["idA"]) ∧
  SubwayGraph.get_directions abc_cls "idA" "idA" = Ok (Some "Start at A (idA)").
Proof.
  destruct (path_to_itself abc_cls abc_graph "idA")
    as (H1 & _ & _ & _ & _ & H2); [reflexivity|reflexivity|].
  split; [exact H1|]. apply H2. reflexivity.
Defined.

(** X15: on the graph [SubwayGraph.build_graph] leaves, every hop of a
    shortest path has a line, so that the directions have no transfer
    line: they are the line of the start and a line for each hop that
    names its lines, every station by the name the registry gives its
    complex. *)
Theorem directions_on_built_graph src cls0 :
  ∃ cls cx g, SubwayGraph.build_graph src cls0 = Ok cls ∧
    _complexes cls = Some cx ∧ G cls = Some g ∧
    ∀ a b p, SubwayGraph.shortest_path cls a b = Ok (Some p) →
      Forall (λ l, l ≠ []) (hop_map (lines_of g) p) ∧
      SubwayGraph.get_directions cls a b
      = Ok (Some (PyStr.join (String "010"%char EmptyString)
                    (("Start at " +:+ complexes.get_station_name cx a
                      +:+ " (" +:+ a +:+ ")")
                     :: hop_map (ride_line cx g) p))).
Proof.
  destruct (subway_build_total src cls0) as (cls & g & Hb & HG).
  destruct (subway_built src cls0 cls g Hb HG)
    as (cx & Hcx & _ & _ & ([_ Hne] & _ & Hcl & Hat & _) & _).
  pose proof (subway_build_all_named src cls0 cls g Hb HG) as Hnamed.
  exists cls, cx, g. split; [done|]. split; [done|]. split; [done|].
  intros a b p Hsp.
  destruct (nx_shortest_path_Ok g a b p (subway_shortest_path_Ok cls g a b p HG Hsp))
    as (Ha & _ & Hpath & _).
  assert (∀ u v, edge g u v →
            lines_of g u v ≠ [] ∧ hop_line g u v = ride_line cx g u v) as Hhop.
  { intros u v [l Hl]%edge_edge_lines. unfold hop_line, ride_line, lines_of.
    rewrite Hl. simpl. pose proof (Hne u v l Hl) as Hl'. split; [done|].
    unfold hop_text. rewrite (name_opt_built cx g v Hat (Hcl u v l Hl)).
    by destruct l. }
  split.
  - apply (hop_map_Forall_path _ _ g a b p Hpath). intros u v Huv.
    by apply Hhop.
  - rewrite (get_directions_spec cls g a b p HG Hnamed Hsp
               (is_path_nonempty g a b p Hpath)).
    destruct (is_path_head g a b p Hpath) as [rest ->].
    unfold render_directions, start_line.
    rewrite (name_opt_built cx g a Hat Ha). simpl SubwayGraph.fmt.
    do 4 f_equal. apply (hop_map_ext_path _ _ g a b); [done|].
    intros u v Huv. by apply Hhop.
Qed.

(** Witness of X15: from complex 611 to complex 10 of the two-platform
    example. *)
Lemma directions_on_built_graph_witness :
  ∃ cls, SubwayGraph.build_graph two_platforms cls_initial = Ok cls ∧
    SubwayGraph.get_directions cls "611" "10"
    = Ok (Some "Start at Times Sq-42 St (611)
Take the L trains to 49 St (10)").
Proof.
  destruct (directions_on_built_graph two_platforms cls_initial)
    as (cls & cx & g & Hb & Hcx & HG & H).
  exists cls. split; [exact Hb|].
  vm_compute in Hb. injection Hb as <-.
  injection Hcx as <-. injection HG as <-.
  destruct (H "611" "10" ["611"; "10"]) as [_ Hd]; [vm_compute; reflexivity|].
  rewrite Hd. vm_compute. reflexivity.
Defined.

(** X16: on the graph [SubwayGraph.build_graph] leaves, two different
    complexes of which one comes after the other in a processed sequence
    are one hop apart: the shortest path is the two of them, and the route
    of the sequence is among its lines. *)
Theorem one_seat_ride src cls0 :
  ∃ cls, SubwayGraph.build_graph src cls0 = Ok cls ∧
    ∀ route direction ids a b,
      in_build_loop src route direction →
      SubwayGraph.complex_ids_of cls route direction = Ok ids →
      before ids a b → a ≠ b →
      SubwayGraph.shortest_path cls a b = Ok (Some [a; b]) ∧
      ∃ l, SubwayGraph.connecting_lines cls a b = Ok l ∧ route ∈ l.
Proof.
  destruct (subway_build_lines src cls0) as (cls & g & Hb & HG & _ & _ & Hlines).
  destruct (subway_built src cls0 cls g Hb HG)
    as (cx & _ & _ & _ & (_ & _ & Hcl & _) & _).
  exists cls. split; [done|]. intros route direction ids a b Hloop Hids Hbf Hab.
  assert (lines_on g a b route) as (l & Hl & Hr).
  { apply Hlines. by exists direction, ids. }
  assert (nx.has_node g a = true) as Ha by by eapply edge_lines_has_node.
  assert (nx.has_node g b = true) as Hbn by by eapply Hcl.
  assert (is_path g a b [a; b]) as Hpath.
  { apply (is_path_snoc g a a b [a]); [constructor|].
    apply edge_edge_lines. by exists l. }
  split.
  - destruct (nx_shortest_path_spec g a b Ha Hbn) as [Hyes _].
    destruct Hyes as (p & Hp & Hpp & Hmin); [by exists [a; b]|].
    unfold SubwayGraph.shortest_path, SubwayGraph._assert_built.
    rewrite HG. simpl. rewrite Hp. do 2 f_equal.
    specialize (Hmin _ Hpath). simpl in Hmin.
    pose proof (is_path_last g a b p Hpp) as Hlast.
    destruct (is_path_head g a b p Hpp) as [rest ->].
    destruct rest as [|x rest]; [simpl in Hlast; congruence|].
    destruct rest; [|simpl in Hmin; lia].
    simpl in Hlast. congruence.
  - exists l. split; [|done].
    unfold SubwayGraph.connecting_lines, SubwayGraph._assert_built.
    rewrite HG. simpl. by rewrite Hl.
Qed.

(** Witness of X16: route L of the two-platform example calls at complex
    611 before complex 10. *)
Lemma one_seat_ride_witness :
  ∃ cls, SubwayGraph.build_graph two_platforms cls_initial = Ok cls ∧
         SubwayGraph.shortest_path cls "611" "10" = Ok (Some ["611"; "10"]).
Proof.
  destruct (one_seat_ride two_platforms cls_initial) as (cls & Hb & H).
  exists cls. split; [exact Hb|].
  destruct (H "L" 0 ["611"; "611"; "10"] "611" "10") as [Hsp _].
  - split; vm_compute; [apply list_elem_of_here|apply list_elem_of_here].
  - vm_compute in Hb. injection Hb as <-. vm_compute. reflexivity.
  - exists 0%nat, 2%nat. split; [lia|]. split; reflexivity.
  - discriminate.
  - exact Hsp.
Defined.

(** X17: on a graph whose nodes all carry a name,
    [get_directions_for_path] gives one segment for each hop of the path
    it is given, with the names of the two ends ([None] for an id that is
    no node) and the lines of the hop (none when there is no edge), and
    [get_all_directions] gives these segments for every path of
    [all_shortest_paths]; neither adds an error of its own. *)
Theorem directions_are_segments cls g :
  G cls = Some g → all_named g = true →
  (∀ p, SubwayGraph.get_directions_for_path cls p
        = Ok (hop_map (segment_of g) p)) ∧
  (∀ a b, SubwayGraph.get_all_directions cls a b
          = (paths ← SubwayGraph.all_shortest_paths cls a b;
             Ok (map (hop_map (segment_of g)) paths))).
Proof.
  intros HG Hnamed. split; [intros p; by apply get_directions_for_path_spec|].
  intros a b. unfold SubwayGraph.get_all_directions.
  destruct (SubwayGraph.all_shortest_paths cls a b) as [paths|e]; [|done].
  cbn [mbind result_bind].
  rewrite (for_each_map _ (hop_map (segment_of g))); [done|].
  intros acc p _. by rewrite (get_directions_for_path_spec cls g p HG Hnamed).
Qed.

(** Witness of X17: the hand-made graph, from A to C. *)
Lemma directions_are_segments_witness :
  SubwayGraph.get_directions_for_path abc_cls ["idA"; "idB"; "idC"]
  = Ok [segment_of abc_graph "idA" "idB"; segment_of abc_graph "idB" "idC"] ∧
  SubwayGraph.get_all_directions abc_cls "idA" "idC"
  = Ok [[segment_of abc_graph "idA" "idB"; segment_of abc_graph "idB" "idC"]].
Proof.
  destruct (directions_are_segments abc_cls abc_graph) as [H1 H2];
    [reflexivity|reflexivity|].
  split; [apply H1|]. rewrite H2. vm_compute. reflexivity.
Defined.

(** X18: between two nodes joined by a path, [MTAComplexGraph.shortest_path]
    returns a path with the fewest edges and, for each of its hops, the
    lines of the hop; the look-up of the lines does not fail. *)
Theorem complex_shortest_path_lines cls g a b :
  G cls = Some g →
  nx.has_node g a = true → nx.has_node g b = true →
  reachable g a b →
  ∃ p, MTAComplexGraph.shortest_path cls a b = Ok (p, hop_map (lines_of g) p) ∧
       shortest g a b p ∧
       length (hop_map (lines_of g) p) = (length p - 1)%nat ∧
       Forall (λ l, ∃ u v, nx.edge_lines g u v = Some l) (hop_map (lines_of g) p).
Proof.
  intros HG Ha Hb Hr.
  destruct (nx_shortest_path_spec g a b Ha Hb) as [Hyes _].
  destruct (Hyes Hr) as (p & Hp & Hpath & Hmin).
  exists p. split; [|split; [by split|split]].
  - unfold MTAComplexGraph.shortest_path, MTAComplexGraph._assert_built.
    rewrite HG. simpl. rewrite Hp. simpl.
    by rewrite (path_lines_spec g a b p Hpath).
  - rewrite <- index_hop_map. by rewrite length_map, length_seq.
  - apply (hop_map_Forall_path _ _ g a b p Hpath).
    intros u v [l Hl]%edge_edge_lines. exists u, v. unfold lines_of.
    by rewrite Hl.
Qed.

(** Witness of X18: the hand-made graph, from A to C. *)
Lemma complex_shortest_path_lines_witness :
  ∃ p, MTAComplexGraph.shortest_path abc_cls "idA" "idC"
       = Ok (p, hop_map (lines_of abc_graph) p) ∧
       shortest abc_graph "idA" "idC" p.
Proof.
  destruct (complex_shortest_path_lines abc_cls abc_graph "idA" "idC")
    as (p & Hp & Hs & _); [reflexivity|reflexivity|reflexivity| |].
  - exists ["idA"; "idB"; "idC"].
    apply (is_path_snoc abc_graph "idA" "idB" "idC" ["idA"; "idB"]);
      [|apply list_elem_of_here].
    apply (is_path_snoc abc_graph "idA" "idA" "idB" ["idA"]); [constructor|].
    apply list_elem_of_here.
  - exists p. split; [exact Hp|exact Hs].
Defined.

(** X19: between two nodes joined by a path, [all_shortest_paths] lists
    the paths between them with the fewest edges, and no other list; the
    path [shortest_path] returns is one of them. *)
Theorem all_shortest_paths_are_shortest cls g a b :
  G cls = Some g →
  nx.has_node g a = true → nx.has_node g b = true →
  reachable g a b →
  ∃ paths, SubwayGraph.all_shortest_paths cls a b = Ok paths ∧
    (∀ p, p ∈ paths ↔ shortest g a b p) ∧
    ∃ p, SubwayGraph.shortest_path cls a b = Ok (Some p) ∧ p ∈ paths.
Proof.
  intros HG Ha Hb Hr.
  destruct (nx_all_shortest_paths_spec g a b Ha Hr) as (paths & Hall & Hpaths).
  exists paths. split; [|split; [done|]].
  - unfold SubwayGraph.all_shortest_paths, SubwayGraph._assert_built.
    rewrite HG. simpl. by rewrite Hall.
  - destruct (nx_shortest_path_spec g a b Ha Hb) as [Hyes _].
    destruct (Hyes Hr) as (p & Hp & Hpath & Hmin).
    exists p. split; [|by apply Hpaths].
    unfold SubwayGraph.shortest_path, SubwayGraph._assert_built.
    rewrite HG. simpl. by rewrite Hp.
Qed.

(** Witness of X19: the hand-made graph, from A to C. *)
Lemma all_shortest_paths_are_shortest_witness :
  ∃ paths, SubwayGraph.all_shortest_paths abc_cls "idA" "idC" = Ok paths ∧
           ∀ p, p ∈ paths ↔ shortest abc_graph "idA" "idC" p.
Proof.
  destruct (all_shortest_paths_are_shortest abc_cls abc_graph "idA" "idC")
    as (paths & Hp & Hs & _); [reflexivity|reflexivity|reflexivity| |].
  - exists ["idA"; "idB"; "idC"].
    apply (is_path_snoc abc_graph "idA" "idB" "idC" ["idA"; "idB"]);
      [|apply list_elem_of_here].
    apply (is_path_snoc abc_graph "idA" "idA" "idB" ["idA"]); [constructor|].
    apply list_elem_of_here.
  - exists paths. split; [exact Hp|exact Hs].
Defined.

(** X20: a build does not depend on the graph of the class before it,
    but for [MTAComplexGraph] on whether there was one: a build of
    [SubwayGraph] on its own result changes nothing, and so does a build of
    [MTAComplexGraph] on the result of a build that found a graph. *)
Theorem rebuild_is_stable src cls0 cls1 :
  (SubwayGraph.build_graph src cls0 = Ok cls1 →
   SubwayGraph.build_graph src cls1 = Ok cls1) ∧
  (G cls0 ≠ None → MTAComplexGraph.build_graph src cls0 = Ok cls1 →
   MTAComplexGraph.build_graph src cls1 = Ok cls1).
Proof.
  split; [apply subway_build_idempotent|].
  intros HG0. unfold MTAComplexGraph.build_graph.
  destruct (load src cls0) as [cls|] eqn:Hload; [|done].
  destruct (load_registry src cls0 cls Hload) as (cx & Hcx & ->).
  simpl. intros [= <-]. unfold load. simpl. rewrite Hcx. simpl.
  do 2 f_equal. f_equal.
  destruct (G cls0) as [g0|]; [|done].
  unfold for_routes, MTAComplexGraph.process, MTAComplexGraph.ordered_stops,
    MTAComplexGraph._assert_built. simpl. reflexivity.
Qed.

(** Witness of X20: a second and a third build of [MTAComplexGraph] on the
    self-named example. *)
Lemma rebuild_is_stable_witness :
  ∃ cls1 cls2, MTAComplexGraph.build_graph self_named cls_initial = Ok cls1 ∧
    MTAComplexGraph.build_graph self_named cls1 = Ok cls2 ∧
    MTAComplexGraph.build_graph self_named cls2 = Ok cls2.
Proof.
  destruct (complex_build_total self_named cls_initial) as (cls1 & g1 & Hb1 & HG1).
  destruct (complex_build_total self_named cls1) as (cls2 & g2 & Hb2 & HG2).
  exists cls1, cls2. split; [exact Hb1|]. split; [exact Hb2|].
  destruct (rebuild_is_stable self_named cls1 cls2) as [_ H].
  apply H; [|exact Hb2]. rewrite HG1. discriminate.
Defined.

Lemma with_lines_pairs g p :
  p ≠ [] →
  map fst (with_lines g p) = p ∧
  map snd (with_lines g p) = hop_map (lines_of g) p ++ [[]].
Proof.
  induction p as [|u p IH]; [done|]. intros _. destruct p as [|v p]; [done|].
  change (with_lines g (u :: v :: p))
    with ((u, lines_of g u v) :: with_lines g (v :: p)).
  change (hop_map ?F (u :: v :: p)) with (F u v :: hop_map F (v :: p)).
  destruct IH as [IH1 IH2]; [done|]. cbn [map fst snd app].
  by rewrite IH1, IH2.
Qed.

(** X22: [shortest_path_with_lines] pairs every node of the path that
    [shortest_path] returns with the lines to the next node, and the last
    node with none; it returns [None] when [shortest_path] does, and
    raises what [shortest_path] raises, nothing else. *)
Theorem path_with_lines_pairs cls g a b :
  G cls = Some g →
  match SubwayGraph.shortest_path cls a b with
  | Ok (Some p) =>
      ∃ r, SubwayGraph.shortest_path_with_lines cls a b = Ok (Some r) ∧
           map fst r = p ∧ map snd r = hop_map (lines_of g) p ++ [[]]
  | Ok None => SubwayGraph.shortest_path_with_lines cls a b = Ok None
  | Raise e => SubwayGraph.shortest_path_with_lines cls a b = Raise e
  end.
Proof.
  intros HG.
  destruct (SubwayGraph.shortest_path cls a b) as [[p|]|e] eqn:Hsp.
  - destruct (nx_shortest_path_Ok g a b p (subway_shortest_path_Ok cls g a b p HG Hsp))
      as (_ & _ & Hpath & _).
    pose proof (is_path_nonempty g a b p Hpath) as Hne.
    exists (with_lines g p).
    split; [by apply shortest_path_with_lines_spec|by apply with_lines_pairs].
  - unfold SubwayGraph.shortest_path_with_lines. by rewrite Hsp.
  - unfold SubwayGraph.shortest_path_with_lines. by rewrite Hsp.
Qed.

(** Witness of X22: the hand-made graph, from A to C. *)
Lemma path_with_lines_pairs_witness :
  ∃ r, SubwayGraph.shortest_path_with_lines abc_cls "idA" "idC" = Ok (Some r) ∧
       map fst r = ["idA"; "idB"; "idC"] ∧
       map snd r = [["N"; "Q"]; []; []].
Proof.
  pose proof (path_with_lines_pairs abc_cls abc_graph "idA" "idC" eq_refl) as H.
  assert (SubwayGraph.shortest_path abc_cls "idA" "idC"
          = Ok (Some ["idA"; "idB"; "idC"])) as Hsp by (vm_compute; reflexivity).
  rewrite Hsp in H. exact H.
Defined.

Lemma is_path_cons g a b c q :
  edge g a b → is_path g b c q → is_path g a c (a :: q).
Proof.
  intros Hab. induction 1 as [b|b b' c q Hq IH Hbc].
  - by apply (is_path_snoc g a a b [a]); [constructor|].
  - by apply (is_path_snoc g a b' c (a :: q)); [apply IH|].
Qed.

(** In a graph whose edges go both ways, a path read backwards is a
    path. *)
Lemma is_path_reverse g a b p :
  (∀ u v, edge g u v → edge g v u) →
  is_path g a b p → is_path g b a (reverse p).
Proof.
  intros Hsym. induction 1 as [a|a b c q Hq IH Hbc]; [constructor|].
  rewrite reverse_snoc. apply (is_path_cons g c b a); [by apply Hsym|done].
Qed.

Lemma complex_shortest_path_Ok cls g a b p :
  G cls = Some g → nx.shortest_path g a b = Ok p →
  MTAComplexGraph.shortest_path cls a b = Ok (p, hop_map (lines_of g) p).
Proof.
  intros HG Hp.
  destruct (nx_shortest_path_Ok g a b p Hp) as (_ & _ & Hpath & _).
  unfold MTAComplexGraph.shortest_path, MTAComplexGraph._assert_built.
  rewrite HG. simpl. rewrite Hp. simpl.
  by rewrite (path_lines_spec g a b p Hpath).
Qed.

(** X23: in the undirected graph [MTAComplexGraph.build_graph] leaves,
    the two directions of a search agree: the shortest paths from [a] to
    [b] and from [b] to [a] have the same number of nodes (none when
    there is no path), and the one search raises [NodeNotFound] exactly
    when the other does. *)
Theorem complex_distance_symmetric src cls0 :
  ∃ cls, MTAComplexGraph.build_graph src cls0 = Ok cls ∧
    ∀ a b,
      (∃ p ls q ls',
         MTAComplexGraph.shortest_path cls a b = Ok (p, ls) ∧
         MTAComplexGraph.shortest_path cls b a = Ok (q, ls') ∧
         length p = length q ∧ length ls = length ls')
      ∨ (MTAComplexGraph.shortest_path cls a b = Raise NodeNotFound ∧
         MTAComplexGraph.shortest_path cls b a = Raise NodeNotFound).
Proof.
  destruct (complex_build_total src cls0) as (cls & g & Hb & HG).
  destruct (complex_built src cls0 cls g Hb HG)
    as (cx & _ & _ & Hd & ([Hsym _] & _) & _).
  exists cls. split; [done|]. intros a b.
  assert (∀ u v, edge g u v → edge g v u) as Hedge.
  { intros u v. rewrite !edge_edge_lines. by rewrite (Hsym Hd u v). }
  assert (∀ u v, MTAComplexGraph.shortest_path cls u v
                 = match nx.shortest_path g u v with
                   | Ok p => Ok (p, hop_map (lines_of g) p)
                   | Raise NetworkXNoPath => Ok ([], [])
                   | Raise e => Raise e
                   end) as Hsp.
  { intros u v. destruct (nx.shortest_path g u v) as [p|e] eqn:E.
    - by apply complex_shortest_path_Ok.
    - unfold MTAComplexGraph.shortest_path, MTAComplexGraph._assert_built.
      rewrite HG. simpl. rewrite E. by destruct e. }
  rewrite !Hsp.
  destruct (nx.has_node g a) eqn:Ha;
    [|right; unfold nx.shortest_path; rewrite Ha; simpl;
      by rewrite orb_true_r].
  destruct (nx.has_node g b) eqn:Hbn;
    [|right; unfold nx.shortest_path; rewrite Hbn; simpl;
      by rewrite orb_true_r].
  left.
  destruct (nx_shortest_path_spec g a b Ha Hbn) as [Hyes Hno].
  destruct (nx_shortest_path_spec g b a Hbn Ha) as [Hyes' Hno'].
  destruct (nx.shortest_path g a b) as [p|e] eqn:E.
  - destruct (nx_shortest_path_Ok g a b p E) as (_ & _ & Hpath & Hmin).
    destruct Hyes' as (q & -> & Hq & Hminq).
    { exists (reverse p). by apply is_path_reverse. }
    assert (length p = length q) as Hlen.
    { specialize (Hmin _ (is_path_reverse g b a q Hedge Hq)).
      specialize (Hminq _ (is_path_reverse g a b p Hedge Hpath)).
      rewrite length_reverse in Hmin, Hminq. lia. }
    eexists _, _, _, _. split; [done|]. split; [done|]. split; [done|].
    rewrite <- !index_hop_map. rewrite !length_map, !length_seq. lia.
  - assert (¬ reachable g a b) as Hnr.
    { intros Hr. by destruct (Hyes Hr) as (p & ? & _). }
    assert (¬ reachable g b a) as Hnr'.
    { intros [q Hq]. apply Hnr. exists (reverse q). by apply is_path_reverse. }
    pose proof (Hno Hnr) as He. injection He as ->. rewrite (Hno' Hnr').
    by eexists _, _, _, _.
Qed.

End Routes.
